(** * generate_dataset.py: normalisation, projection and augmentation of
      19-joint skeletons, embedded in Rocq.

    The Python module works on NumPy [float64] arrays.  The embedding keeps
    the shape of the program (arrays living in a store, views that alias
    their base array, exceptions, the two random generators) and idealises
    the arithmetic: a finite number is an exact real, and the IEEE special
    values (NaN, +Inf, -Inf) that NumPy produces instead of raising are kept
    as such.  Rounding and overflow are outside the model.

    - A two-dimensional array is held as the list of its columns (one
      column per joint) together with its number of rows; arrays are of
      dtype float.
    - Arrays live in a store and are reached through references; a row
      slice is a view on the same stored array.  Python lists of arrays
      are passed by value: the program only appends to lists it has just
      created.
    - [random.uniform] and [numpy.random.uniform] read from two streams of
      draws that are part of the state.
    - [pyquaternion] is modelled by the arithmetic it performs (axis-angle
      construction, normalisation, Hamilton product), and
      [scipy.spatial.distance.euclidean] by the norm of the difference
      behind the finiteness check of [scipy.linalg.norm].
    - [utils.angle_between] is imported from a file that is not part of
      the sources and is modelled from its specification.
    - The directory walk and the JSON parsing of [generate_dataset] are
      taken as the list of loaded frames, and [pickle.dump] as returning
      the dictionary it is given. *)

From Stdlib Require Import Reals Lra Lia List Arith String.
From stdpp Require Import base list.
Import ListNotations.

(** ** Numbers *)

(** A NumPy scalar: a finite real or one of the IEEE special values. *)
Inductive fnum : Type :=
  | Fin (r : R)
  | PInf
  | NInf
  | NaN.

Abbreviation fzero := (Fin 0%R).
Abbreviation fone := (Fin 1%R).

Definition is_fin (a : fnum) : Prop :=
  match a with Fin _ => True | _ => False end.

Definition fneg (a : fnum) : fnum :=
  match a with
  | Fin r => Fin (- r)%R
  | PInf => NInf
  | NInf => PInf
  | NaN => NaN
  end.

Definition fadd (a b : fnum) : fnum :=
  match a, b with
  | NaN, _ | _, NaN => NaN
  | Fin x, Fin y => Fin (x + y)%R
  | PInf, NInf | NInf, PInf => NaN
  | PInf, _ | _, PInf => PInf
  | NInf, _ | _, NInf => NInf
  end.

Definition fsub (a b : fnum) : fnum := fadd a (fneg b).

(** The infinity whose sign is that of [r] times [pos]; [0 * inf] is NaN. *)
Definition inf_signed (pos : bool) (r : R) : fnum :=
  if Req_dec_T r 0%R then NaN
  else if Rlt_dec 0%R r then (if pos then PInf else NInf)
       else (if pos then NInf else PInf).

Definition fmul (a b : fnum) : fnum :=
  match a, b with
  | NaN, _ | _, NaN => NaN
  | Fin x, Fin y => Fin (x * y)%R
  | PInf, Fin y => inf_signed true y
  | NInf, Fin y => inf_signed false y
  | Fin x, PInf => inf_signed true x
  | Fin x, NInf => inf_signed false x
  | PInf, PInf | NInf, NInf => PInf
  | PInf, NInf | NInf, PInf => NInf
  end.

(** NumPy true division.  No exception: [x / 0] is an infinity of the sign
    of [x], and [0 / 0] is NaN.  Every divisor of the program is a literal
    or a square root, so a zero divisor is the positive zero. *)
Definition fdiv (a b : fnum) : fnum :=
  match a, b with
  | NaN, _ | _, NaN => NaN
  | Fin x, Fin y =>
      if Req_dec_T y 0%R then inf_signed true x else Fin (x / y)%R
  | Fin _, _ => Fin 0%R
  | PInf, Fin y => if Rlt_dec y 0%R then NInf else PInf
  | NInf, Fin y => if Rlt_dec y 0%R then PInf else NInf
  | _, _ => NaN
  end.

Definition fsqrt (a : fnum) : fnum :=
  match a with
  | Fin x => if Rlt_dec x 0%R then NaN else Fin (sqrt x)
  | PInf => PInf
  | _ => NaN
  end.

Definition fabs (a : fnum) : fnum :=
  match a with
  | Fin x => Fin (Rabs x)
  | PInf | NInf => PInf
  | NaN => NaN
  end.

(** [a < b]; every comparison with NaN is false. *)
Definition flt (a b : fnum) : bool :=
  match a, b with
  | NaN, _ | _, NaN => false
  | Fin x, Fin y => if Rlt_dec x y then true else false
  | NInf, NInf | PInf, _ => false
  | NInf, _ => true
  | Fin _, PInf => true
  | Fin _, NInf => false
  end.

(** [a == b] on floats. *)
Definition feqb (a b : fnum) : bool :=
  match a, b with
  | Fin x, Fin y => if Req_dec_T x y then true else false
  | PInf, PInf | NInf, NInf => true
  | _, _ => false
  end.

(** [np.clip(a, lo, hi)] with finite bounds: NaN goes through. *)
Definition np_clip (a : fnum) (lo hi : R) : fnum :=
  match a with
  | NaN => NaN
  | PInf => Fin hi
  | NInf => Fin lo
  | Fin x => Fin (Rmin (Rmax x lo) hi)
  end.

(** [np.arccos]: NaN (and a warning) outside [-1, 1]. *)
Definition np_arccos (a : fnum) : fnum :=
  match a with
  | Fin x =>
      if Rle_dec (-1) x then (if Rle_dec x 1 then Fin (acos x) else NaN)
      else NaN
  | _ => NaN
  end.

(** ** Exceptions *)

Inductive exn : Type :=
  | IndexError
  | ValueError
  | ZeroDivisionError
  | OverflowError
  | DomainError.

Inductive result (A : Type) : Type :=
  | Ok (a : A)
  | Raise (e : exn).
Arguments Ok {A} a.
Arguments Raise {A} e.

Definition rbind {A B} (r : result A) (k : A -> result B) : result B :=
  match r with Ok a => k a | Raise e => Raise e end.

(** [math.cos] and [math.sin]: [ValueError] on an infinity. *)
Definition math_cos (a : fnum) : result fnum :=
  match a with
  | Fin x => Ok (Fin (cos x))
  | NaN => Ok NaN
  | _ => Raise ValueError
  end.

Definition math_sin (a : fnum) : result fnum :=
  match a with
  | Fin x => Ok (Fin (sin x))
  | NaN => Ok NaN
  | _ => Raise ValueError
  end.

(** [math.radians]. *)
Definition math_radians (a : fnum) : fnum := fmul a (Fin (PI / 180)%R).

(** ** Vectors (one-dimensional arrays) *)

Abbreviation vec := (list fnum).

Fixpoint zip_with_f (f : fnum -> fnum -> fnum) (u v : vec) : vec :=
  match u, v with
  | x :: u', y :: v' => f x y :: zip_with_f f u' v'
  | _, _ => []
  end.

(** Elementwise operations; the program only combines vectors of one
    length (columns of one array), where no broadcasting takes place. *)
Definition vadd (u v : vec) : vec := zip_with_f fadd u v.
Definition vsub (u v : vec) : vec := zip_with_f fsub u v.
Definition vdivs (u : vec) (s : fnum) : vec := map (fun x => fdiv x s) u.
Definition vmuls (u : vec) (s : fnum) : vec := map (fun x => fmul x s) u.

Definition fsum (u : vec) : fnum := fold_left fadd u fzero.

(** [np.dot] on one-dimensional arrays: the lengths have to agree. *)
Definition np_dot (u v : vec) : result fnum :=
  if Nat.eqb (length u) (length v)
  then Ok (fsum (zip_with_f fmul u v))
  else Raise ValueError.

(** [np.linalg.norm] of a vector. *)
Definition np_norm (u : vec) : fnum := fsqrt (fsum (zip_with_f fmul u u)).

(** The Euclidean distance of two points. *)
Definition euclidean (u v : vec) : fnum := np_norm (vsub u v).

Definition is_finb (a : fnum) : bool :=
  match a with Fin _ => true | _ => false end.

(** [scipy.spatial.distance.euclidean]: the norm of [u - v], taken by
    [scipy.linalg.norm], which checks its argument first and raises
    [ValueError] on a NaN or an infinity. *)
Definition distance_euclidean (u v : vec) : result fnum :=
  if forallb is_finb (vsub u v) then Ok (euclidean u v)
  else Raise ValueError.

(** Entries at even positions: the slice [0::2]. *)
Fixpoint every_second (u : vec) : vec :=
  match u with
  | [] => []
  | x :: u' =>
      x :: match u' with [] => [] | _ :: u'' => every_second u'' end
  end.

(** ** Quaternions (the part of [pyquaternion] the program uses) *)

Record quat : Type := mkQuat { qw : fnum; qx : fnum; qy : fnum; qz : fnum }.

Definition q_sum_of_squares (q : quat) : fnum :=
  fsum [fmul (qw q) (qw q); fmul (qx q) (qx q);
        fmul (qy q) (qy q); fmul (qz q) (qz q)].

Definition q_norm (q : quat) : fnum := fsqrt (q_sum_of_squares q).

(** [is_unit(tolerance=1e-14)]. *)
Definition q_is_unit (q : quat) : bool :=
  flt (fabs (fsub fone (q_sum_of_squares q))) (Fin (/ 10 ^ 14)%R).

(** [_normalise]: rescales a quaternion that is not of unit length, when
    its norm is positive. *)
Definition q_normalise (q : quat) : quat :=
  if q_is_unit q then q
  else
    let n := q_norm q in
    if flt fzero n
    then mkQuat (fdiv (qw q) n) (fdiv (qx q) n) (fdiv (qy q) n) (fdiv (qz q) n)
    else q.

Definition q_conjugate (q : quat) : quat :=
  mkQuat (qw q) (fneg (qx q)) (fneg (qy q)) (fneg (qz q)).

(** Hamilton product, computed as the library does: the 4x4 matrix of the
    left factor applied to the right factor. *)
Definition q_mul (q p : quat) : quat :=
  mkQuat
    (fsum [fmul (qw q) (qw p); fmul (fneg (qx q)) (qx p);
           fmul (fneg (qy q)) (qy p); fmul (fneg (qz q)) (qz p)])
    (fsum [fmul (qx q) (qw p); fmul (qw q) (qx p);
           fmul (fneg (qz q)) (qy p); fmul (qy q) (qz p)])
    (fsum [fmul (qy q) (qw p); fmul (qz q) (qx p);
           fmul (qw q) (qy p); fmul (fneg (qx q)) (qz p)])
    (fsum [fmul (qz q) (qw p); fmul (fneg (qy q)) (qx p);
           fmul (qx q) (qy p); fmul (qw q) (qz p)]).

(** [Quaternion(axis=..., angle=...)]. *)
Definition Quaternion_axis_angle (axis : vec) (angle : fnum) : result quat :=
  match axis with
  | [_; _; _] =>
      let mag_sq := fsum (zip_with_f fmul axis axis) in
      if feqb mag_sq fzero then Raise ZeroDivisionError
      else
        let axis :=
          if flt (Fin (/ 10 ^ 12)%R) (fabs (fsub fone mag_sq))
          then vdivs axis (fsqrt mag_sq) else axis in
        let theta := fdiv angle (Fin 2%R) in
        rbind (math_cos theta) (fun r =>
        rbind (math_sin theta) (fun s =>
        match vmuls axis s with
        | [i0; i1; i2] => Ok (mkQuat r i0 i1 i2)
        | _ => Raise ValueError
        end))
  | _ => Raise ValueError
  end.

(** [quaternion.rotate(vector)] for a vector given as an array: the vector
    part of [q * (0, v) * conj q], after [q] has been normalised.  The
    library normalises [q] in place; normalising again changes nothing, so
    the quaternion is passed by value. *)
Definition q_rotate (q : quat) (v : vec) : result vec :=
  match v with
  | [v0; v1; v2] =>
      let q := q_normalise q in
      let r := q_mul (q_mul q (mkQuat fzero v0 v1 v2)) (q_conjugate q) in
      Ok [qx r; qy r; qz r]
  | _ => Raise ValueError
  end.

(** ** The angle between two vectors ([utils.angle_between]) *)

(** Modelled from the spec: [utils.unit_vector], a helper of
    [angle_between] in [utils.py], which is not part of the sources: the
    vector divided by its norm, a domain error on a vector of length
    zero. *)
Definition unit_vector (v : vec) : result vec :=
  let n := np_norm v in
  if feqb n fzero then Raise DomainError else Ok (vdivs v n).

(** Modelled from the spec: [utils.angle_between], imported from [utils.py],
    which is not part of the sources.  The unsigned angle in radians between
    two vectors: the arc cosine of the dot product of the two unit vectors,
    clamped to [-1, 1]; it fails on a vector of length zero. *)
Definition angle_between (v1 v2 : vec) : result fnum :=
  rbind (unit_vector v1) (fun v1_u =>
  rbind (unit_vector v2) (fun v2_u =>
  rbind (np_dot v1_u v2_u) (fun d =>
  Ok (np_arccos (np_clip d (-1) 1))))).

(** ** Arrays, views and the store *)

(** A two-dimensional array of [nrows] rows, held as the list of its
    columns: entry [r, c] is element [r] of column [c].  A skeleton has one
    column per joint. *)
Record array : Type := mkArray { nrows : nat; cols : list vec }.

Definition array_wf (a : array) : Prop :=
  Forall (fun c => length c = nrows a) (cols a).

Definition empty_array : array := mkArray 0 [].

(** An [ndarray] object: the rows [0 .. stop) of the array stored at
    [base].  Slicing rows ([a[:k, :]]) gives a view on the same base, so a
    write through a view is seen through every other reference. *)
Record ndarray : Type := mkNd { base : nat; stop : nat }.

(** The state of the interpreter that the program touches: the arrays, and
    the streams of the unit-interval draws still to be made by [random] and
    by [numpy.random]. *)
Record world : Type := mkWorld {
  heap : list array;
  py_random : nat -> R;
  np_random : nat -> R
}.

Definition M (A : Type) : Type := world -> result (A * world).

Definition ret {A} (a : A) : M A := fun w => Ok (a, w).

Definition bind {A B} (m : M A) (k : A -> M B) : M B :=
  fun w => match m w with
           | Ok (a, w') => k a w'
           | Raise e => Raise e
           end.

Definition lift {A} (r : result A) : M A :=
  fun w => match r with Ok a => Ok (a, w) | Raise e => Raise e end.

Definition raise {A} (e : exn) : M A := fun _ => Raise e.

Declare Scope py_scope.
Delimit Scope py_scope with py.
Notation "'do' x <- m ; k" := (bind m (fun x => k))
  (at level 10, x name, m at level 100, k at level 200) : py_scope.
Notation "m ;; k" := (bind m (fun _ => k))
  (at level 100, k at level 200, right associativity) : py_scope.
Local Open Scope py_scope.

Definition deref (w : world) (a : ndarray) : array :=
  default empty_array (heap w !! base a).

(** What a reference shows of its base array. *)
Definition view_of (k : nat) (b : array) : array :=
  mkArray (Nat.min k (nrows b)) (map (take k) (cols b)).

Definition contents (w : world) (a : ndarray) : array :=
  view_of (stop a) (deref w a).

Definition set_heap (w : world) (h : list array) : world :=
  mkWorld h (py_random w) (np_random w).

(** [a[:k, :]]: a view, no copy. *)
Definition slice_rows (a : ndarray) (k : nat) : ndarray :=
  mkNd (base a) (Nat.min (stop a) k).

(** [a.shape[0]] and [a.shape[1]]. *)
Definition shape0 (a : ndarray) : M nat :=
  fun w => Ok (nrows (contents w a), w).
Definition shape1 (a : ndarray) : M nat :=
  fun w => Ok (length (cols (contents w a)), w).

(** [a[:, i]], read. *)
Definition get_col (a : ndarray) (i : nat) : M vec :=
  fun w => match cols (contents w a) !! i with
           | Some c => Ok (c, w)
           | None => Raise IndexError
           end.

(** Column [i] of the base array after [v] has been written through a view
    of [k] rows. *)
Definition write_col (k i : nat) (v : vec) (b : array) : array :=
  mkArray (nrows b)
    (match cols b !! i with
     | Some c => <[i := v ++ drop k c]> (cols b)
     | None => cols b
     end).

(** [a[:, i] = v] for a vector [v] with one entry per row of [a]. *)
Definition set_col (a : ndarray) (i : nat) (v : vec) : M unit :=
  fun w =>
    let b := deref w a in
    if Nat.ltb i (length (cols b)) then
      if Nat.eqb (length v) (Nat.min (stop a) (nrows b)) then
        Ok (tt, set_heap w (<[base a := write_col (stop a) i v b]> (heap w)))
      else Raise ValueError
    else Raise IndexError.

(** [a[:, i] = x] for a scalar [x], broadcast over the rows. *)
Definition set_col_scalar (a : ndarray) (i : nat) (x : fnum) : M unit :=
  fun w => set_col a i (replicate (nrows (contents w a)) x) w.

(** A new array object. *)
Definition alloc (b : array) : M ndarray :=
  fun w => Ok (mkNd (length (heap w)) (nrows b), set_heap w (heap w ++ [b])).

(** [np.copy(a)]. *)
Definition np_copy (a : ndarray) : M ndarray :=
  fun w => alloc (contents w a) w.

(** [for x in xs: body(x)]. *)
Fixpoint for_each {A} (xs : list A) (body : A -> M unit) : M unit :=
  match xs with
  | [] => ret tt
  | x :: xs' => body x ;; for_each xs' body
  end.

(** [for i in range(n): body(i)]. *)
Definition for_range (n : nat) (body : nat -> M unit) : M unit :=
  for_each (seq 0 n) body.

(** ** The skeleton normaliser *)

(** [normalize_skeleton(_skel)]. *)
Definition normalize_skeleton (_skel : ndarray) : M ndarray :=
  let skel := slice_rows _skel 3 in
  do n_joints <- shape1 skel;
  do c3 <- get_col skel 3;
  do c9 <- get_col skel 9;
  let anchor_pt := vdivs (vadd c3 c9) (Fin 2%R) in
  set_col skel 0 anchor_pt ;;
  do c3 <- get_col skel 3;
  do c9 <- get_col skel 9;
  do resize_factor <- lift (distance_euclidean c3 c9);
  for_range n_joints (fun i =>
    do ci <- get_col skel i;
    set_col skel i (vdivs (vsub ci anchor_pt) resize_factor)) ;;
  do c3 <- get_col skel 3;
  do c9 <- get_col skel 9;
  do angle <- lift (angle_between
                      (vsub (every_second c3) (every_second c9))
                      [Fin (-1)%R; Fin 0%R]);
  do quaternion <- lift (Quaternion_axis_angle [Fin 0; Fin 1; Fin 0]%R angle);
  for_range n_joints (fun i =>
    do ci <- get_col skel i;
    do v <- lift (q_rotate quaternion ci);
    set_col skel i v) ;;
  ret skel.

(** ** The projector *)

(** [project_skel(skel_3d)]: the first two rows, as a view. *)
Definition project_skel (skel_3d : ndarray) : ndarray :=
  slice_rows skel_3d 2.

(** ** The rotator *)

(** [rotate_skel(skel_3d, degree)]. *)
Definition rotate_skel (skel_3d : ndarray) (degree : fnum) : M ndarray :=
  do quaternion <- lift (Quaternion_axis_angle [Fin 0; Fin 1; Fin 0]%R
                           (math_radians degree));
  do rotated_skel <- np_copy skel_3d;
  do n_joints <- shape1 skel_3d;
  for_range n_joints (fun i =>
    do ci <- get_col skel_3d i;
    do v <- lift (q_rotate quaternion ci);
    set_col rotated_skel i v) ;;
  ret rotated_skel.

(** ** The augmenter *)

(** [random.uniform(a, b)]: [a + (b - a) * random()]. *)
Definition py_uniform (a b : R) : M fnum :=
  fun w =>
    Ok (Fin (a + (b - a) * py_random w 0)%R,
        mkWorld (heap w) (fun n => py_random w (S n)) (np_random w)).

(** [np.random.uniform(low, high, (r, c))]: an [r] x [c] array of draws
    [low + (high - low) * u], filled row by row; [OverflowError] when the
    range is not finite. *)
Definition np_random_uniform (low high : fnum) (r c : nat) : M array :=
  fun w =>
    match fsub high low with
    | Fin _ =>
        Ok (mkArray r
              (map (fun j =>
                 map (fun i =>
                   fadd low (fmul (fsub high low)
                                  (Fin (np_random w (i * c + j)))))
                   (seq 0 r))
                 (seq 0 c)),
            mkWorld (heap w) (py_random w) (fun n => np_random w (r * c + n)))
    | _ => Raise OverflowError
    end.

(** [np.std(a)]: the square root of the mean squared deviation from the
    mean, over all entries. *)
Definition np_std (a : array) : fnum :=
  let xs := concat (cols a) in
  let n := Fin (INR (length xs)) in
  let mean := fdiv (fsum xs) n in
  let dev := map (fun x => fsub x mean) xs in
  fsqrt (fdiv (fsum (zip_with_f fmul dev dev)) n).

(** [a + noise] on two arrays of one shape. *)
Definition array_add (a b : array) : array :=
  mkArray (nrows a) (zip_with vadd (cols a) (cols b)).

(** The body of the loop of [augmented_data] for one skeleton; the list of
    samples is the accumulator. *)
Definition augment_one (noise_amount : fnum) (augmented_samples : list ndarray)
    (skel_3d : ndarray) : M (list ndarray) :=
  do degree <- py_uniform (-20) 20;
  do new_sample <- rotate_skel skel_3d degree;
  let augmented_samples := augmented_samples ++ [new_sample] in
  do s0 <- shape0 skel_3d;
  do s1 <- shape1 skel_3d;
  do noise <- np_random_uniform (Fin 0%R) noise_amount s0 s1;
  do new_sample <- (fun w => alloc (array_add (contents w skel_3d) noise) w);
  set_col_scalar new_sample 0 (Fin 0%R) ;;
  ret (augmented_samples ++ [new_sample]).

Fixpoint augment_loop (noise_amount : fnum) (augmented_samples : list ndarray)
    (skeletons_3d : list ndarray) : M (list ndarray) :=
  match skeletons_3d with
  | [] => ret augmented_samples
  | skel_3d :: rest =>
      do augmented_samples <- augment_one noise_amount augmented_samples skel_3d;
      augment_loop noise_amount augmented_samples rest
  end.

(** [augmented_data(skeletons_3d)]. *)
Definition augmented_data (skeletons_3d : list ndarray) : M (list ndarray) :=
  match skeletons_3d with
  | [] => raise IndexError
  | first :: _ =>
      do noise_amount <-
        (fun w => Ok (fdiv (np_std (contents w first)) (Fin 10%R), w));
      augment_loop noise_amount [] skeletons_3d
  end.

(** ** The dataset builder *)

(** A parsed frame file: its bodies, each with the flat list [joints19]. *)
Record body : Type := mkBody { joints19 : list fnum }.
Record frame : Type := mkFrame { bodies : list body }.

(** The rows of [reshape((-1, 4))]: the flat list cut in groups of four. *)
Fixpoint reshape4 (l : list fnum) : result (list vec) :=
  match l with
  | [] => Ok []
  | a :: b :: c :: d :: l' =>
      rbind (reshape4 l') (fun rows => Ok ([a; b; c; d] :: rows))
  | _ => Raise ValueError
  end.

(** [np.array(l).reshape((-1, 4)).transpose()]: a 4-row array whose columns
    are the groups of four. *)
Definition np_array_reshape4_T (l : list fnum) : M ndarray :=
  do rows <- lift (reshape4 l);
  alloc (mkArray 4 rows).

(** [xs[::2]]. *)
Fixpoint step2 {A} (xs : list A) : list A :=
  match xs with
  | [] => []
  | x :: xs' => x :: match xs' with [] => [] | _ :: xs'' => step2 xs'' end
  end.

Fixpoint normalize_bodies (skeletons_3d : list ndarray) (bs : list body)
    : M (list ndarray) :=
  match bs with
  | [] => ret skeletons_3d
  | b :: bs' =>
      do skel <- np_array_reshape4_T (joints19 b);
      do skel <- normalize_skeleton skel;
      normalize_bodies (skeletons_3d ++ [skel]) bs'
  end.

Fixpoint normalize_frames (skeletons_3d : list ndarray) (fs : list frame)
    : M (list ndarray) :=
  match fs with
  | [] => ret skeletons_3d
  | f :: fs' =>
      do skeletons_3d <- normalize_bodies skeletons_3d (bodies f);
      normalize_frames skeletons_3d fs'
  end.

(** The dictionary that is pickled. *)
Definition dataset : Type := list (string * list ndarray).

Definition dict_get (d : dataset) (k : string) : option (list ndarray) :=
  snd <$> find (fun kv => String.eqb (fst kv) k) d.

(** [generate_dataset(raw_dir, pickle_file)], from the frames loaded by the
    directory walk (in the order of the walk) to the dictionary handed to
    [pickle.dump]. *)
Definition generate_dataset (frames : list frame) : M dataset :=
  let frames := step2 frames in
  do skeletons_3d <- normalize_frames [] frames;
  do augmented <- augmented_data skeletons_3d;
  let skeletons_3d := skeletons_3d ++ augmented in
  let skeletons_2d := map project_skel skeletons_3d in
  ret [("3d"%string, skeletons_3d); ("2d"%string, skeletons_2d)].


(** ** Vocabulary of the statements *)

(** Column [i] of an array (empty when there is none). *)
Definition col (b : array) (i : nat) : vec :=
  match cols b !! i with Some c => c | None => [] end.

(** The first three entries of column [i]: joint [i] as the normaliser
    sees it. *)
Definition col3 (b : array) (i : nat) : vec := take 3 (col b i).

(** Joint [i] of the skeleton behind a reference: [a[:, i]]. *)
Definition joint (w : world) (a : ndarray) (i : nat) : vec :=
  col (contents w a) i.

(** The (x, z) part of the shoulder line of a skeleton, joint 3 minus
    joint 9. *)
Definition shoulder_line_xz (w : world) (a : ndarray) : vec :=
  vsub (every_second (joint w a 3)) (every_second (joint w a 9)).

(** A 2-vector that is a positive multiple of the reference direction
    (-1, 0). *)
Definition along_reference (v : vec) : Prop :=
  exists k : R, (0 < k)%R /\ v = [Fin (- k); Fin 0].

(** What a loop of the form [a[:, i] = g(a[:, i])] leaves in one column of
    the base array of the view [a] of [k] rows. *)
Definition upd_col (g : vec -> result vec) (k : nat) (c : vec) : vec :=
  match g (take k c) with
  | Ok v => v ++ drop k c
  | Raise _ => c
  end.

(** The stages of [normalize_skeleton] on the stored array [b]: the anchor,
    the resize factor, the array after the neck has been replaced by the
    anchor, after the first loop, and after the second loop. *)
Definition anchor_of (b : array) : vec :=
  vdivs (vadd (col3 b 3) (col3 b 9)) (Fin 2%R).

Definition resize_of (b : array) : fnum :=
  euclidean (col3 b 3) (col3 b 9).

(** The check that [distance.euclidean] makes on the two shoulders. *)
Definition shoulders_finite (b : array) : bool :=
  forallb is_finb (vsub (col3 b 3) (col3 b 9)).

Definition recentred (b : array) : array :=
  mkArray (nrows b) (<[0 := anchor_of b ++ drop 3 (col b 0)]> (cols b)).

Definition scaled (b : array) : array :=
  mkArray (nrows b)
    (map (upd_col (fun c => Ok (vdivs (vsub c (anchor_of b)) (resize_of b))) 3)
         (cols (recentred b))).

Definition shoulder_xz (b : array) : vec :=
  vsub (every_second (col3 b 3)) (every_second (col3 b 9)).

Definition turned (q : quat) (b : array) : array :=
  mkArray (nrows b) (map (upd_col (q_rotate q) 3) (cols b)).

(** The squared distance between two points, and their distance. *)
Definition shoulder_sq (x3 y3 z3 x9 y9 z9 : R) : R :=
  ((x3 - x9) * (x3 - x9) + (y3 - y9) * (y3 - y9) + (z3 - z9) * (z3 - z9))%R.
Definition shoulder_len (x3 y3 z3 x9 y9 z9 : R) : R :=
  sqrt (shoulder_sq x3 y3 z3 x9 y9 z9).

(** The length of a 2-vector and the angle [angle_between] returns for it
    against (-1, 0). *)
Definition hyp2 (a c : R) : R := sqrt (a * a + c * c).
Definition frontal_angle (a c : R) : R := acos (- a / hyp2 a c).

(** The quaternion of a turn by [t] about the vertical axis. *)
Definition quat_y (t : R) : quat :=
  mkQuat (Fin (cos (t / 2))) (Fin (0 * sin (t / 2)))
         (Fin (1 * sin (t / 2))) (Fin (0 * sin (t / 2))).

(** The turn of a point about the vertical axis by [t]. *)
Definition rot_y (t x y z : R) : vec :=
  [Fin (x * cos t + z * sin t); Fin y; Fin (- x * sin t + z * cos t)]%R.

(** ** Sample inputs *)

(** A 4 x 19 array (x, y, z and confidence of 19 joints) with every joint
    at the origin except the two shoulders. *)
Definition skeleton_with_shoulders (p3 p9 : vec) : array :=
  mkArray 4
    (<[3 := p3]> (<[9 := p9]> (replicate 19 [Fin 0; Fin 0; Fin 0; Fin 1]%R))).

(** A store holding the given arrays; both generators always draw 0. *)
Definition world_of (h : list array) : world :=
  mkWorld h (fun _ => 0%R) (fun _ => 0%R).

(** ** Vocabulary of the augmenter *)

(** What [q_rotate] makes of a column (the column itself when it is not
    a 3-vector and the call raises). *)
Definition rotated_col (q : quat) (c : vec) : vec :=
  match q_rotate q c with Ok v => v | Raise _ => c end.

(** An array turned about the vertical axis by [d] degrees. *)
Definition rotated_by (d : R) (m : array) : array :=
  mkArray (nrows m) (map (rotated_col (quat_y (d * (PI / 180)))) (cols m)).

(** An array with column 0 overwritten by zeros. *)
Definition zero_root (m : array) : array :=
  mkArray (nrows m) (<[0 := replicate (nrows m) (Fin 0%R)]> (cols m)).

(** A reference to a stored, well-formed array showing three rows and at
    least one joint. *)
Definition is_skeleton (w : world) (a : ndarray) : Prop :=
  exists b, heap w !! base a = Some b /\ array_wf b /\
            Nat.min (stop a) (nrows b) = 3 /\ 1 <= length (cols b).

Definition all_finite (m : array) : Prop :=
  Forall (Forall is_fin) (cols m).

(** Entry [r, c] of an array. *)
Definition entry (m : array) (r c : nat) : option fnum := col m c !! r.

(** The references to [n] arrays allocated one after the other in a
    store of [len] arrays, each showing three rows. *)
Definition fresh_refs (len n : nat) : list ndarray :=
  map (fun k => mkNd (len + k) 3) (seq 0 n).

(** [news] holds, for each skeleton of [skels] in turn, a turned copy and
    then a noised copy with its root set to zero. *)
Definition variants (w : world) (skels : list ndarray) (news : list array)
    : Prop :=
  length news = 2 * length skels /\
  forall i a, skels !! i = Some a ->
    exists (d : R) (noise : array),
      news !! (2 * i) = Some (rotated_by d (contents w a)) /\
      news !! (2 * i + 1) = Some (zero_root (array_add (contents w a) noise)) /\
      nrows noise = 3 /\
      length (cols noise) = length (cols (contents w a)) /\
      (forall c, c ∈ cols noise -> length c = 3).

(** A stored 3 x 19 skeleton with the shoulders at (1, 0, 0) and the
    origin. *)
Definition sample_skeleton : array :=
  view_of 3 (skeleton_with_shoulders [Fin 1; Fin 0; Fin 0; Fin 1]
                                     [Fin 0; Fin 0; Fin 0; Fin 1]%R).

(** A column whose first three entries are finite. *)
Definition fin3 (c : vec) : Prop :=
  exists x y z : R, take 3 c = [Fin x; Fin y; Fin z].

(** One frame file with one body: the 76 numbers of a skeleton whose
    shoulders are at (1, 0, 0) and at the origin. *)
Definition sample_frames : list frame :=
  [mkFrame [mkBody (concat (cols (skeleton_with_shoulders
                                    [Fin 1; Fin 0; Fin 0; Fin 1]
                                    [Fin 0; Fin 0; Fin 0; Fin 1]%R)))]].

(** ** Vocabulary of the further properties *)

(** An array with the first three entries of column 0 replaced by [v]. *)
Definition with_neck (v : vec) (b : array) : array :=
  mkArray (nrows b) (<[0 := v ++ drop 3 (col b 0)]> (cols b)).

(** A column with [t] added to its first three entries, and an array with
    every joint moved by (tx, ty, tz). *)
Definition shift_col (t : vec) (c : vec) : vec :=
  vadd (take 3 c) t ++ drop 3 c.

Definition translated (tx ty tz : R) (b : array) : array :=
  mkArray (nrows b) (map (shift_col [Fin tx; Fin ty; Fin tz]) (cols b)).

(** A store with the array at [l] replaced. *)
Definition store_at (w : world) (l : nat) (b : array) : world :=
  set_heap w (<[l := b]> (heap w)).

(** The array [np.random.uniform(0, n, (r, c))] makes of the stream [g] of
    draws, the angle [uniform(-20, +20)] makes of the next draw, and the
    state one round of the augmenter leaves. *)
Definition uniform_noise (n : R) (g : nat -> R) (r c : nat) : array :=
  mkArray r
    (map (fun j =>
       map (fun i =>
         fadd (Fin 0%R) (fmul (fsub (Fin n) (Fin 0%R)) (Fin (g (i * c + j)))))
         (seq 0 r))
       (seq 0 c)).

Definition drawn_degree (w : world) : R :=
  (-20 + (20 - -20) * py_random w 0)%R.

Definition world_after_augment (n : R) (w : world) (a : ndarray) : world :=
  mkWorld
    (heap w ++
     [rotated_by (drawn_degree w) (contents w a);
      zero_root (array_add (contents w a)
                   (uniform_noise n (np_random w) 3
                      (length (cols (contents w a)))))])
    (fun k => py_random w (S k))
    (fun k => np_random w (3 * length (cols (contents w a)) + k)).

(** Every draw of both generators lies in [0, 1). *)
Definition draws_in_unit (w : world) : Prop :=
  forall k, (0 <= py_random w k < 1)%R /\ (0 <= np_random w k < 1)%R.

(** An array of finite entries between 0 and [n]. *)
Definition noise_within (n : R) (noise : array) : Prop :=
  Forall (Forall (fun e => exists u : R, (0 <= u <= n)%R /\ e = Fin u))
         (cols noise).

(** [variants] with the ranges of the random perturbations. *)
Definition variants_within (n : R) (w : world) (skels : list ndarray)
    (news : list array) : Prop :=
  forall i a, skels !! i = Some a ->
    exists (d : R) (noise : array),
      (-20 <= d <= 20)%R /\
      noise_within n noise /\
      news !! (2 * i) = Some (rotated_by d (contents w a)) /\
      news !! (2 * i + 1) = Some (zero_root (array_add (contents w a) noise)) /\
      nrows noise = 3 /\
      length (cols noise) = length (cols (contents w a)) /\
      (forall c, c ∈ cols noise -> length c = 3).

(** The number of bodies in a list of frames. *)
Definition body_count (fs : list frame) : nat :=
  length (concat (map bodies fs)).

(** A column with its first three entries multiplied by [k], and an array
    with every joint scaled by [k] about the origin. *)
Definition stretch_col (k : R) (c : vec) : vec :=
  vmuls (take 3 c) (Fin k) ++ drop 3 c.

Definition stretched (k : R) (b : array) : array :=
  mkArray (nrows b) (map (stretch_col k) (cols b)).



(** * Properties *)

(** ** Arithmetic on finite numbers *)

Ltac rdec :=
  repeat match goal with
    | |- context [Rlt_dec ?a ?b] => destruct (Rlt_dec a b)
    | |- context [Rle_dec ?a ?b] => destruct (Rle_dec a b)
    | |- context [Req_dec_T ?a ?b] => destruct (Req_dec_T a b)
    end.

Lemma vec3_fin_eq (a b c a' b' c' : R) :
  a = a' -> b = b' -> c = c' ->
  @Ok vec [Fin a; Fin b; Fin c] = Ok [Fin a'; Fin b'; Fin c'].
Proof. intros -> -> ->. reflexivity. Qed.

Ltac vec3_eq := apply vec3_fin_eq.

Lemma fdiv_fin (x y : R) : y <> 0%R -> fdiv (Fin x) (Fin y) = Fin (x / y)%R.
Proof. intros Hy. unfold fdiv. rdec; [contradiction | reflexivity]. Qed.

Lemma fsqrt_fin (x : R) : (0 <= x)%R -> fsqrt (Fin x) = Fin (sqrt x).
Proof. intros Hx. unfold fsqrt. rdec; [lra | reflexivity]. Qed.

Lemma feqb_fin_ne (x y : R) : x <> y -> feqb (Fin x) (Fin y) = false.
Proof. intros H. unfold feqb. rdec; [contradiction | reflexivity]. Qed.

Lemma feqb_fin_eq (x : R) : feqb (Fin x) (Fin x) = true.
Proof. unfold feqb. rdec; [reflexivity | contradiction]. Qed.

Lemma flt_fin_true (x y : R) : (x < y)%R -> flt (Fin x) (Fin y) = true.
Proof. intros H. unfold flt. rdec; [reflexivity | contradiction]. Qed.

Lemma flt_fin_false (x y : R) : (y <= x)%R -> flt (Fin x) (Fin y) = false.
Proof. intros H. unfold flt. rdec; [lra | reflexivity]. Qed.

Lemma np_clip_id (x : R) :
  (-1 <= x <= 1)%R -> np_clip (Fin x) (-1) 1 = Fin x.
Proof.
  intros [H1 H2]. unfold np_clip. f_equal.
  rewrite Rmax_left by lra. apply Rmin_left; lra.
Qed.

Lemma np_arccos_fin (x : R) :
  (-1 <= x <= 1)%R -> np_arccos (Fin x) = Fin (acos x).
Proof. intros [H1 H2]. unfold np_arccos. rdec; (reflexivity || lra). Qed.

Lemma pow10_pos (n : nat) : (0 < / 10 ^ n)%R.
Proof. apply Rinv_0_lt_compat, pow_lt. lra. Qed.

(** ** Rotation about the vertical axis *)

(** The quaternion built for the axis (0, 1, 0) and a finite angle. *)
Lemma Quaternion_y_fin (t : R) :
  Quaternion_axis_angle [Fin 0; Fin 1; Fin 0]%R (Fin t) =
  Ok (mkQuat (Fin (cos (t / 2))) (Fin (0 * sin (t / 2)))
             (Fin (1 * sin (t / 2))) (Fin (0 * sin (t / 2)))).
Proof.
  unfold Quaternion_axis_angle. cbn [zip_with_f fsum fold_left fmul fadd].
  rewrite feqb_fin_ne by lra.
  cbn [fsub fneg fadd fabs].
  replace (1 + - (0 + 0 * 0 + 1 * 1 + 0 * 0))%R with 0%R by ring.
  rewrite Rabs_R0, flt_fin_false by (left; apply pow10_pos).
  rewrite fdiv_fin by lra. reflexivity.
Qed.

(** A NaN angle gives a quaternion of four NaN. *)
Lemma Quaternion_y_nan :
  Quaternion_axis_angle [Fin 0; Fin 1; Fin 0]%R NaN =
  Ok (mkQuat NaN NaN NaN NaN).
Proof.
  unfold Quaternion_axis_angle. cbn [zip_with_f fsum fold_left fmul fadd].
  rewrite feqb_fin_ne by lra.
  cbn [fsub fneg fadd fabs].
  replace (1 + - (0 + 0 * 0 + 1 * 1 + 0 * 0))%R with 0%R by ring.
  rewrite Rabs_R0, flt_fin_false by (left; apply pow10_pos).
  reflexivity.
Qed.

(** Rotating by the NaN quaternion gives NaN everywhere. *)
Lemma q_rotate_nan (a b c : fnum) :
  q_rotate (mkQuat NaN NaN NaN NaN) [a; b; c] = Ok [NaN; NaN; NaN].
Proof. reflexivity. Qed.

(** A unit quaternion about the vertical axis turns (x, y, z) in the
    (x, z) plane. *)
Lemma q_rotate_y_unit (c s x y z : R) :
  (c * c + s * s = 1)%R ->
  q_rotate (mkQuat (Fin c) (Fin (0 * s)) (Fin (1 * s)) (Fin (0 * s)))
           [Fin x; Fin y; Fin z] =
  Ok [Fin (x * (c * c - s * s) + z * (2 * s * c));
      Fin y;
      Fin (- x * (2 * s * c) + z * (c * c - s * s))]%R.
Proof.
  intros Hu. unfold q_rotate, q_normalise, q_is_unit, q_sum_of_squares.
  cbn [qw qx qy qz fsum fold_left fmul fadd fsub fneg fabs].
  replace (1 + - (0 + c * c + 0 * s * (0 * s) + 1 * s * (1 * s)
                  + 0 * s * (0 * s)))%R with (1 - (c * c + s * s))%R by ring.
  rewrite Hu, Rminus_diag.
  rewrite Rabs_R0, flt_fin_true by apply pow10_pos.
  unfold q_mul, q_conjugate.
  cbn [qw qx qy qz fsum fold_left fmul fadd fneg].
  vec3_eq.
  - ring.
  - transitivity (y * (c * c + s * s))%R; [ring | rewrite Hu; ring].
  - ring.
Qed.

Lemma q_rotate_y_fin (t x y z : R) :
  q_rotate (mkQuat (Fin (cos (t / 2))) (Fin (0 * sin (t / 2)))
                   (Fin (1 * sin (t / 2))) (Fin (0 * sin (t / 2))))
           [Fin x; Fin y; Fin z] =
  Ok [Fin (x * cos t + z * sin t);
      Fin y;
      Fin (- x * sin t + z * cos t)]%R.
Proof.
  rewrite q_rotate_y_unit.
  - assert (Hc : cos t = (cos (t / 2) * cos (t / 2)
                          - sin (t / 2) * sin (t / 2))%R).
    { rewrite <- cos_2a. f_equal. field. }
    assert (Hs : sin t = (2 * sin (t / 2) * cos (t / 2))%R).
    { rewrite <- sin_2a. f_equal. field. }
    rewrite Hc, Hs. vec3_eq; ring.
  - pose proof (sin2_cos2 (t / 2)) as H. unfold Rsqr in H. lra.
Qed.

(** ** The store: reading and writing columns *)

Lemma heap_set_heap (w : world) (h : list array) : heap (set_heap w h) = h.
Proof. reflexivity. Qed.

Lemma set_heap_set_heap (w : world) (h1 h2 : list array) :
  set_heap (set_heap w h1) h2 = set_heap w h2.
Proof. reflexivity. Qed.

Lemma set_heap_id (w : world) : set_heap w (heap w) = w.
Proof. destruct w; reflexivity. Qed.

Lemma deref_lookup (w : world) (a : ndarray) (b : array) :
  heap w !! base a = Some b -> deref w a = b.
Proof. unfold deref. intros ->. reflexivity. Qed.

Lemma lookup_map {A B} (f : A -> B) (l : list A) (i : nat) :
  map f l !! i = f <$> (l !! i).
Proof. apply (list_lookup_fmap f l i). Qed.

Lemma contents_lookup (w : world) (l k : nat) (b : array) :
  heap w !! l = Some b -> contents w (mkNd l k) = view_of k b.
Proof. intros H. unfold contents. rewrite (deref_lookup _ _ b); auto. Qed.

Lemma get_col_ok (w : world) (l k i : nat) (b : array) (c : vec) :
  heap w !! l = Some b -> cols b !! i = Some c ->
  get_col (mkNd l k) i w = Ok (take k c, w).
Proof.
  intros Hb Hc. unfold get_col. rewrite (contents_lookup _ _ _ b Hb).
  cbn [view_of cols]. rewrite lookup_map. rewrite Hc. reflexivity.
Qed.

Lemma get_col_index_error (w : world) (l k i : nat) (b : array) :
  heap w !! l = Some b -> length (cols b) <= i ->
  get_col (mkNd l k) i w = Raise IndexError.
Proof.
  intros Hb Hi. unfold get_col. rewrite (contents_lookup _ _ _ b Hb).
  cbn [view_of cols]. rewrite lookup_map.
  rewrite (lookup_ge_None_2 _ _ Hi). reflexivity.
Qed.

Lemma set_col_ok (w : world) (l k i : nat) (b : array) (c v : vec) :
  heap w !! l = Some b -> cols b !! i = Some c ->
  length v = Nat.min k (nrows b) ->
  set_col (mkNd l k) i v w =
  Ok (tt, set_heap w
            (<[l := mkArray (nrows b) (<[i := v ++ drop k c]> (cols b))]>
               (heap w))).
Proof.
  intros Hb Hc Hv. unfold set_col.
  rewrite (deref_lookup _ _ b) by exact Hb. cbn [base stop].
  apply lookup_lt_Some in Hc as Hi.
  destruct (Nat.ltb_spec i (length (cols b))) as [_ | Hge]; [ | lia].
  rewrite Hv, Nat.eqb_refl. unfold write_col. rewrite Hc. reflexivity.
Qed.

Lemma bind_ok {A B} (m : M A) (k : A -> M B) (w w' : world) (a : A) :
  m w = Ok (a, w') -> bind m k w = k a w'.
Proof. unfold bind. intros ->. reflexivity. Qed.

Lemma bind_raise {A B} (m : M A) (k : A -> M B) (w : world) (e : exn) :
  m w = Raise e -> bind m k w = Raise e.
Proof. unfold bind. intros ->. reflexivity. Qed.

(** A loop that rewrites every column of an array from its own value. *)
Lemma for_each_cols_self (g : vec -> result vec) (l k : nat) :
  forall (n s : nat) (w : world) (b : array),
    heap w !! l = Some b ->
    s + n = length (cols b) ->
    (forall i c, s <= i -> cols b !! i = Some c ->
       exists v, g (take k c) = Ok v /\ length v = Nat.min k (nrows b)) ->
    for_each (seq s n) (fun i =>
      do ci <- get_col (mkNd l k) i;
      do v <- lift (g ci);
      set_col (mkNd l k) i v) w =
    Ok (tt, set_heap w
              (<[l := mkArray (nrows b)
                        (take s (cols b) ++ map (upd_col g k) (drop s (cols b)))]>
                 (heap w))).
Proof.
  induction n as [ | n IH]; intros s w b Hb Hlen Hg.
  - cbn [seq for_each]. unfold ret.
    rewrite drop_ge, take_ge by lia. cbn [map]. rewrite app_nil_r.
    destruct b as [r cs]. cbn [nrows cols].
    rewrite list_insert_id by exact Hb. rewrite set_heap_id. reflexivity.
  - cbn [seq for_each].
    destruct (lookup_lt_is_Some_2 (cols b) s) as [c Hc]; [lia | ].
    destruct (Hg s c (Nat.le_refl s) Hc) as (v & Hgv & Hv).
    rewrite (bind_ok _ _ w
               (set_heap w (<[l := mkArray (nrows b)
                                     (<[s := v ++ drop k c]> (cols b))]>
                              (heap w))) tt).
    2:{ rewrite (bind_ok _ _ w w (take k c)) by (eapply get_col_ok; eauto).
        rewrite (bind_ok _ _ w w v) by (unfold lift; rewrite Hgv; reflexivity).
        eapply set_col_ok; eauto. }
    apply lookup_lt_Some in Hb as Hl.
    rewrite (IH (S s) _ (mkArray (nrows b) (<[s := v ++ drop k c]> (cols b)))).
    + rewrite set_heap_set_heap, heap_set_heap, list_insert_insert_eq.
      cbn [nrows cols]. do 4 f_equal.
      rewrite take_insert_lt by lia.
      rewrite (take_S_r _ _ c) by exact Hc.
      rewrite insert_app_r_alt by (rewrite length_take; lia).
      rewrite length_take, Nat.min_l by lia.
      rewrite Nat.sub_diag. cbn [insert list_insert].
      rewrite drop_insert_lt by lia.
      rewrite <- app_assoc. f_equal.
      rewrite (drop_S _ c s) by exact Hc. cbn [map app].
      unfold upd_col at 2. rewrite Hgv. reflexivity.
    + rewrite heap_set_heap. apply list_lookup_insert_eq. exact Hl.
    + cbn [cols]. rewrite length_insert. lia.
    + cbn [cols nrows]. intros i c' Hi Hc'.
      rewrite list_lookup_insert_ne in Hc' by lia.
      apply (Hg i c'); [lia | exact Hc'].
Qed.

(** ** What [normalize_skeleton] computes *)

Lemma col_lookup (b : array) (i : nat) (c : vec) :
  cols b !! i = Some c -> col b i = c.
Proof. unfold col. intros ->. reflexivity. Qed.

Lemma length_zip_with_f (f : fnum -> fnum -> fnum) (u v : vec) :
  length (zip_with_f f u v) = Nat.min (length u) (length v).
Proof.
  revert v; induction u as [ | x u IH]; intros [ | y v]; cbn; auto.
Qed.

Lemma length_vdivs (u : vec) (s : fnum) : length (vdivs u s) = length u.
Proof. apply length_map. Qed.

Lemma q_rotate_total (q : quat) (v : vec) :
  length v = 3 -> exists v', q_rotate q v = Ok v' /\ length v' = 3.
Proof.
  destruct v as [ | a [ | b [ | c [ | d v]]]]; try discriminate.
  intros _. eexists; split; reflexivity.
Qed.

Section Shape.
Variable b : array.
Hypothesis Hwf : array_wf b.
Hypothesis Hrows : 3 <= nrows b.
Hypothesis Hcols : 10 <= length (cols b).

Lemma wf_col_length (i : nat) (c : vec) :
  cols b !! i = Some c -> length c = nrows b.
Proof.
  intros Hc. apply (proj1 (Forall_forall _ _) Hwf).
  eapply list_elem_of_lookup_2; eauto.
Qed.

Lemma col3_length (i : nat) : i < length (cols b) -> length (col3 b i) = 3.
Proof.
  intros Hi. unfold col3.
  destruct (lookup_lt_is_Some_2 (cols b) i Hi) as [c Hc].
  rewrite (col_lookup b i c Hc). rewrite length_take, (wf_col_length i c Hc). lia.
Qed.

Lemma anchor_length : length (anchor_of b) = 3.
Proof.
  unfold anchor_of, vadd. rewrite length_vdivs, length_zip_with_f.
  rewrite !col3_length by lia. reflexivity.
Qed.

Lemma recentred_col_length (i : nat) (c : vec) :
  cols (recentred b) !! i = Some c -> length c = nrows b.
Proof.
  unfold recentred. cbn [cols]. intros Hc.
  destruct (Nat.eq_dec i 0) as [-> | Hne].
  - rewrite list_lookup_insert_eq in Hc by lia. inversion Hc; subst c.
    destruct (lookup_lt_is_Some_2 (cols b) 0) as [c0 Hc0]; [lia | ].
    rewrite (col_lookup b 0 c0 Hc0).
    rewrite length_app, anchor_length, length_drop, (wf_col_length 0 c0 Hc0).
    lia.
  - rewrite list_lookup_insert_ne in Hc by lia. eapply wf_col_length; eauto.
Qed.

Lemma scaled_col_length (i : nat) (c : vec) :
  cols (scaled b) !! i = Some c -> length c = nrows b.
Proof.
  unfold scaled. cbn [cols]. rewrite lookup_map. intros Hc.
  destruct (cols (recentred b) !! i) as [c' | ] eqn:Hc'; [ | discriminate].
  cbn in Hc. inversion Hc; subst c. unfold upd_col.
  pose proof (recentred_col_length i c' Hc') as Hl.
  rewrite length_app, length_vdivs, length_drop.
  unfold vsub. rewrite length_zip_with_f, length_take, anchor_length. lia.
Qed.

End Shape.

Section NormalizeRun.
Variables (w : world) (l s : nat) (b : array).
Hypothesis Hb : heap w !! l = Some b.
Hypothesis Hwf : array_wf b.
Hypothesis Hrows : 3 <= nrows b.
Hypothesis Hstop : 3 <= s.
Hypothesis Hcols : 10 <= length (cols b).

(** The normaliser, step by step: the two loops run through, and the
    only steps that can raise are the shoulder distance, the angle and the
    quaternion. *)
Lemma normalize_skeleton_run :
  normalize_skeleton (mkNd l s) w =
  if shoulders_finite b then
    match angle_between (shoulder_xz (scaled b)) [Fin (-1)%R; Fin 0%R] with
    | Raise e => Raise e
    | Ok angle =>
        match Quaternion_axis_angle [Fin 0; Fin 1; Fin 0]%R angle with
        | Raise e => Raise e
        | Ok q =>
            Ok (mkNd l 3,
                set_heap w (<[l := turned q (scaled b)]> (heap w)))
        end
    end
  else Raise ValueError.
Proof.
  pose proof (anchor_length b Hwf Hrows Hcols) as anchor_length.
  pose proof (recentred_col_length b Hwf Hrows Hcols) as recentred_col_length.
  pose proof (scaled_col_length b Hwf Hrows Hcols) as scaled_col_length.
  unfold normalize_skeleton, slice_rows. cbn [base stop].
  rewrite (Nat.min_r s 3) by lia.
  destruct (lookup_lt_is_Some_2 (cols b) 0) as [C0 HC0]; [lia | ].
  destruct (lookup_lt_is_Some_2 (cols b) 3) as [C3 HC3]; [lia | ].
  destruct (lookup_lt_is_Some_2 (cols b) 9) as [C9 HC9]; [lia | ].
  apply lookup_lt_Some in Hb as Hl.
  (* n_joints *)
  rewrite (bind_ok _ _ w w (length (cols b))).
  2:{ unfold shape1. rewrite (contents_lookup _ _ _ b Hb).
      cbn [view_of cols]. rewrite length_map. reflexivity. }
  (* the anchor *)
  rewrite (bind_ok _ _ w w (take 3 C3)) by (eapply get_col_ok; eauto).
  rewrite (bind_ok _ _ w w (take 3 C9)) by (eapply get_col_ok; eauto).
  assert (Ha : vdivs (vadd (take 3 C3) (take 3 C9)) (Fin 2%R) = anchor_of b).
  { unfold anchor_of, col3.
    rewrite (col_lookup _ _ _ HC3), (col_lookup _ _ _ HC9). reflexivity. }
  rewrite Ha.
  set (w1 := set_heap w (<[l := recentred b]> (heap w))).
  rewrite (bind_ok _ _ w w1 tt).
  2:{ unfold w1, recentred. rewrite (col_lookup _ _ _ HC0).
      eapply set_col_ok; eauto. rewrite anchor_length. lia. }
  assert (Hb1 : heap w1 !! l = Some (recentred b)).
  { unfold w1. rewrite heap_set_heap. apply list_lookup_insert_eq. exact Hl. }
  assert (HC3' : cols (recentred b) !! 3 = Some C3).
  { unfold recentred. cbn [cols]. rewrite list_lookup_insert_ne by lia. exact HC3. }
  assert (HC9' : cols (recentred b) !! 9 = Some C9).
  { unfold recentred. cbn [cols]. rewrite list_lookup_insert_ne by lia. exact HC9. }
  rewrite (bind_ok _ _ w1 w1 (take 3 C3)) by (eapply get_col_ok; eauto).
  rewrite (bind_ok _ _ w1 w1 (take 3 C9)) by (eapply get_col_ok; eauto).
  assert (Hr : distance_euclidean (take 3 C3) (take 3 C9) =
               if shoulders_finite b then Ok (resize_of b)
               else Raise ValueError).
  { unfold distance_euclidean, shoulders_finite, resize_of, col3.
    rewrite (col_lookup _ _ _ HC3), (col_lookup _ _ _ HC9). reflexivity. }
  rewrite Hr.
  destruct (shoulders_finite b); [ | reflexivity].
  unfold lift at 1. unfold bind at 1.
  (* the first loop *)
  set (w2 := set_heap w (<[l := scaled b]> (heap w))).
  rewrite (bind_ok _ _ w1 w2 tt).
  2:{ unfold for_range.
      rewrite (for_each_cols_self
                 (fun c => Ok (vdivs (vsub c (anchor_of b)) (resize_of b)))
                 l 3 _ 0 w1 (recentred b) Hb1).
      - unfold w1, w2. rewrite set_heap_set_heap, heap_set_heap.
        rewrite list_insert_insert_eq. reflexivity.
      - unfold recentred. cbn [cols]. rewrite length_insert. lia.
      - intros i c _ Hc. eexists; split; [reflexivity | ].
        pose proof (recentred_col_length i c Hc) as Hlc.
        unfold vsub. rewrite length_vdivs, length_zip_with_f, length_take.
        rewrite anchor_length. cbn [recentred nrows]. lia. }
  assert (Hb2 : heap w2 !! l = Some (scaled b)).
  { unfold w2. rewrite heap_set_heap. apply list_lookup_insert_eq. exact Hl. }
  (* the angle *)
  destruct (lookup_lt_is_Some_2 (cols (scaled b)) 3) as [S3 HS3].
  { unfold scaled, recentred. cbn [cols]. rewrite length_map, length_insert. lia. }
  destruct (lookup_lt_is_Some_2 (cols (scaled b)) 9) as [S9 HS9].
  { unfold scaled, recentred. cbn [cols]. rewrite length_map, length_insert. lia. }
  rewrite (bind_ok _ _ w2 w2 (take 3 S3)) by (eapply get_col_ok; eauto).
  rewrite (bind_ok _ _ w2 w2 (take 3 S9)) by (eapply get_col_ok; eauto).
  assert (Hxz : vsub (every_second (take 3 S3)) (every_second (take 3 S9))
                = shoulder_xz (scaled b)).
  { unfold shoulder_xz, col3.
    rewrite (col_lookup _ _ _ HS3), (col_lookup _ _ _ HS9). reflexivity. }
  rewrite Hxz.
  destruct (angle_between (shoulder_xz (scaled b)) [Fin (-1)%R; Fin 0%R])
    as [angle | e]; [ | reflexivity].
  unfold lift at 1. unfold bind at 1.
  destruct (Quaternion_axis_angle [Fin 0; Fin 1; Fin 0]%R angle)
    as [q | e]; [ | reflexivity].
  unfold lift at 1. unfold bind at 1.
  (* the second loop *)
  set (w3 := set_heap w (<[l := turned q (scaled b)]> (heap w))).
  rewrite (bind_ok _ _ w2 w3 tt); [reflexivity | ].
  unfold for_range.
  replace (length (cols b)) with (length (cols (scaled b))).
  2:{ unfold scaled, recentred. cbn [cols]. rewrite length_map, length_insert. lia. }
  rewrite (for_each_cols_self (q_rotate q) l 3 _ 0 w2 (scaled b) Hb2).
  - unfold w2, w3. rewrite set_heap_set_heap, heap_set_heap.
    rewrite list_insert_insert_eq. reflexivity.
  - lia.
  - intros i c _ Hc.
    destruct (q_rotate_total q (take 3 c)) as (v & Hv & Hlv).
    + rewrite length_take, (scaled_col_length i c Hc). lia.
    + exists v. split; [exact Hv | ]. cbn [scaled nrows]. lia.
Qed.
End NormalizeRun.

(** ** The columns of the normalised array *)

Lemma take_app_3 (u d : vec) : length u = 3 -> take 3 (u ++ d) = u.
Proof. intros H. apply take_app_length'. auto. Qed.

Lemma drop_app_3 (u d : vec) : length u = 3 -> drop 3 (u ++ d) = d.
Proof. intros H. apply drop_app_length'. auto. Qed.

Lemma turned_col3 (q : quat) (b : array) (i : nat) (v : vec) :
  i < length (cols b) -> q_rotate q (col3 b i) = Ok v ->
  col3 (turned q b) i = v.
Proof.
  intros Hi Hv. destruct (lookup_lt_is_Some_2 _ _ Hi) as [c Hc].
  unfold col3 in *. rewrite (col_lookup _ _ _ Hc) in Hv.
  rewrite (col_lookup _ _ (upd_col (q_rotate q) 3 c)).
  - unfold upd_col. rewrite Hv. apply take_app_3.
    destruct (take 3 c) as [ | a0 [ | a1 [ | a2 [ | a3 t]]]]; try discriminate.
    cbn in Hv. inversion Hv. reflexivity.
  - unfold turned. cbn [cols]. rewrite lookup_map, Hc. reflexivity.
Qed.

Section Scaled.
Variable b : array.
Hypothesis Hwf : array_wf b.
Hypothesis Hrows : 3 <= nrows b.
Hypothesis Hcols : 10 <= length (cols b).

Lemma scaled_length : length (cols (scaled b)) = length (cols b).
Proof.
unfold scaled, recentred. cbn [cols]. rewrite length_map, length_insert.
reflexivity.
Qed.

Lemma scaled_col3 (i : nat) :
0 < i < length (cols b) ->
col3 (scaled b) i = vdivs (vsub (col3 b i) (anchor_of b)) (resize_of b).
Proof.
intros Hi. destruct (lookup_lt_is_Some_2 (cols b) i) as [c Hc]; [lia | ].
unfold col3 at 1.
rewrite (col_lookup _ _
  (upd_col (fun c => Ok (vdivs (vsub c (anchor_of b)) (resize_of b))) 3 c)).
- unfold upd_col, col3. rewrite (col_lookup _ _ _ Hc). apply take_app_3.
  unfold vsub. rewrite length_vdivs, length_zip_with_f, length_take.
  rewrite (anchor_length b Hwf Hrows Hcols).
  rewrite (wf_col_length b Hwf i c Hc). lia.
- unfold scaled, recentred. cbn [cols].
  rewrite lookup_map, list_lookup_insert_ne by lia. rewrite Hc. reflexivity.
Qed.

Lemma scaled_col3_root :
col3 (scaled b) 0 =
vdivs (vsub (anchor_of b) (anchor_of b)) (resize_of b).
Proof.
pose proof (anchor_length b Hwf Hrows Hcols) as Ha.
unfold col3 at 1.
rewrite (col_lookup _ _
  (upd_col (fun c => Ok (vdivs (vsub c (anchor_of b)) (resize_of b))) 3
           (anchor_of b ++ drop 3 (col b 0)))).
- unfold upd_col. rewrite (take_app_3 (anchor_of b) _ Ha). apply take_app_3.
  unfold vsub. rewrite length_vdivs, length_zip_with_f, Ha. reflexivity.
- unfold scaled, recentred. cbn [cols].
  rewrite lookup_map, list_lookup_insert_eq by lia. reflexivity.
Qed.
End Scaled.

(** ** Shoulders at finite positions *)

Lemma sq_nonneg (a : R) : (0 <= a * a)%R.
Proof. nra. Qed.

Lemma sq_pos (a : R) : a <> 0%R -> (0 < a * a)%R.
Proof. intros H. nra. Qed.

Section Shoulders.
Local Open Scope R_scope.
Variable b : array.
Hypothesis Hwf : array_wf b.
Hypothesis Hrows : (3 <= nrows b)%nat.
Hypothesis Hcols : (10 <= length (cols b))%nat.
Variables x3 y3 z3 x9 y9 z9 : R.
Hypothesis H3 : col3 b 3 = [Fin x3; Fin y3; Fin z3].
Hypothesis H9 : col3 b 9 = [Fin x9; Fin y9; Fin z9].

Local Abbreviation shoulder_sq := (shoulder_sq x3 y3 z3 x9 y9 z9).
Local Abbreviation shoulder_len := (shoulder_len x3 y3 z3 x9 y9 z9).

Lemma shoulder_sq_nonneg : 0 <= shoulder_sq.
Proof.
unfold shoulder_sq.
pose proof (sq_nonneg (x3 - x9)). pose proof (sq_nonneg (y3 - y9)).
pose proof (sq_nonneg (z3 - z9)). lra.
Qed.

Lemma anchor_of_fin :
anchor_of b = [Fin ((x3 + x9) / 2); Fin ((y3 + y9) / 2); Fin ((z3 + z9) / 2)].
Proof.
unfold anchor_of. rewrite H3, H9. cbn [vadd zip_with_f fadd vdivs map].
rewrite !fdiv_fin by lra. reflexivity.
Qed.

Lemma shoulders_finite_fin : shoulders_finite b = true.
Proof. unfold shoulders_finite. rewrite H3, H9. reflexivity. Qed.

Lemma resize_of_fin : resize_of b = Fin shoulder_len.
Proof.
unfold resize_of, euclidean, np_norm. rewrite H3, H9.
cbn [vsub zip_with_f fsub fneg fadd fmul fsum fold_left].
replace (0 + (x3 + - x9) * (x3 + - x9) + (y3 + - y9) * (y3 + - y9)
         + (z3 + - z9) * (z3 + - z9)) with shoulder_sq
  by (unfold shoulder_sq; ring).
apply fsqrt_fin, shoulder_sq_nonneg.
Qed.

Lemma shoulder_len_sq : shoulder_len * shoulder_len = shoulder_sq.
Proof. apply sqrt_sqrt, shoulder_sq_nonneg. Qed.

Lemma shoulder_len_pos :
(x3, y3, z3) <> (x9, y9, z9) -> 0 < shoulder_len.
Proof.
intros Hne. apply sqrt_lt_R0.
destruct (Req_dec_T x3 x9) as [Ex | Nx];
  [destruct (Req_dec_T y3 y9) as [Ey | Ny];
    [destruct (Req_dec_T z3 z9) as [Ez | Nz] | ] | ].
- exfalso. apply Hne. rewrite Ex, Ey, Ez. reflexivity.
- unfold shoulder_sq. pose proof (sq_pos (z3 - z9)).
  pose proof (sq_nonneg (x3 - x9)). pose proof (sq_nonneg (y3 - y9)). lra.
- unfold shoulder_sq. pose proof (sq_pos (y3 - y9)).
  pose proof (sq_nonneg (x3 - x9)). pose proof (sq_nonneg (z3 - z9)). lra.
- unfold shoulder_sq. pose proof (sq_pos (x3 - x9)).
  pose proof (sq_nonneg (y3 - y9)). pose proof (sq_nonneg (z3 - z9)). lra.
Qed.

Lemma shoulder_len_zero :
(x3, y3, z3) = (x9, y9, z9) -> shoulder_len = 0.
Proof.
intros E. injection E as Ex Ey Ez. unfold shoulder_len, shoulder_sq.
rewrite Ex, Ey, Ez.
replace ((x9 - x9) * (x9 - x9) + (y9 - y9) * (y9 - y9)
         + (z9 - z9) * (z9 - z9)) with 0 by ring.
apply sqrt_0.
Qed.

(** *** Distinct shoulders: the scaled joints *)

Section Distinct.
Hypothesis Hne : (x3, y3, z3) <> (x9, y9, z9).

Lemma scaled_root_fin : col3 (scaled b) 0 = [Fin 0; Fin 0; Fin 0].
Proof.
  pose proof (shoulder_len_pos Hne) as Hpos.
  rewrite (scaled_col3_root b Hwf Hrows Hcols), anchor_of_fin, resize_of_fin.
  cbn [vsub zip_with_f fsub fneg fadd vdivs map].
  rewrite !fdiv_fin by lra.
  repeat (f_equal; try (field; lra)).
Qed.

Lemma scaled_shoulder3_fin :
  col3 (scaled b) 3 =
  [Fin ((x3 - x9) / (2 * shoulder_len)); Fin ((y3 - y9) / (2 * shoulder_len));
   Fin ((z3 - z9) / (2 * shoulder_len))].
Proof.
  pose proof (shoulder_len_pos Hne) as Hpos.
  rewrite (scaled_col3 b Hwf Hrows Hcols 3) by lia.
  rewrite H3, anchor_of_fin, resize_of_fin.
  cbn [vsub zip_with_f fsub fneg fadd vdivs map].
  rewrite !fdiv_fin by lra. 
  repeat (f_equal; try (field; lra)).
Qed.

Lemma scaled_shoulder9_fin :
  col3 (scaled b) 9 =
  [Fin (- ((x3 - x9) / (2 * shoulder_len))); Fin (- ((y3 - y9) / (2 * shoulder_len)));
   Fin (- ((z3 - z9) / (2 * shoulder_len)))].
Proof.
  pose proof (shoulder_len_pos Hne) as Hpos.
  rewrite (scaled_col3 b Hwf Hrows Hcols 9) by lia.
  rewrite H9, anchor_of_fin, resize_of_fin.
  cbn [vsub zip_with_f fsub fneg fadd vdivs map].
  rewrite !fdiv_fin by lra. 
  repeat (f_equal; try (field; lra)).
Qed.

Lemma shoulder_xz_scaled :
  shoulder_xz (scaled b) = [Fin ((x3 - x9) / shoulder_len); Fin ((z3 - z9) / shoulder_len)].
Proof.
  pose proof (shoulder_len_pos Hne) as Hpos.
  unfold shoulder_xz. rewrite scaled_shoulder3_fin, scaled_shoulder9_fin.
  cbn [every_second vsub zip_with_f fsub fneg fadd]. 
  repeat (f_equal; try (field; lra)).
Qed.
End Distinct.
End Shoulders.

(** ** The angle to the reference direction (-1, 0) *)

Section Angle.
Local Open Scope R_scope.

Lemma hyp2_pos (a c : R) : a <> 0 \/ c <> 0 -> 0 < hyp2 a c.
Proof.
  intros H. apply sqrt_lt_R0.
  pose proof (sq_nonneg a). pose proof (sq_nonneg c).
  destruct H as [H | H]; apply sq_pos in H; lra.
Qed.

Lemma hyp2_sq (a c : R) : hyp2 a c * hyp2 a c = a * a + c * c.
Proof.
  apply sqrt_sqrt. pose proof (sq_nonneg a). pose proof (sq_nonneg c). lra.
Qed.

Lemma cos_ratio_bounds (a c : R) :
  a <> 0 \/ c <> 0 -> -1 <= - a / hyp2 a c <= 1.
Proof.
  intros H. pose proof (hyp2_pos a c H) as Hp.
  pose proof (hyp2_sq a c) as Hs. pose proof (sq_nonneg c) as Hc.
  assert (Ha : - hyp2 a c <= a <= hyp2 a c) by nra.
  split.
  - apply Rmult_le_reg_r with (hyp2 a c); [exact Hp | ].
    unfold Rdiv. rewrite Rmult_assoc, Rinv_l by lra. lra.
  - apply Rmult_le_reg_r with (hyp2 a c); [exact Hp | ].
    unfold Rdiv. rewrite Rmult_assoc, Rinv_l by lra. lra.
Qed.

Lemma angle_between_ref_fin (a c : R) :
  a <> 0 \/ c <> 0 ->
  angle_between [Fin a; Fin c] [Fin (-1); Fin 0] = Ok (Fin (frontal_angle a c)).
Proof.
  intros H. pose proof (hyp2_pos a c H) as Hp.
  unfold angle_between, unit_vector, np_norm.
  cbn [zip_with_f fmul fsum fold_left fadd].
  replace (0 + a * a + c * c) with (a * a + c * c) by ring.
  replace (0 + -1 * -1 + 0 * 0) with 1 by ring.
  rewrite !fsqrt_fin by (pose proof (sq_nonneg a); pose proof (sq_nonneg c); lra).
  rewrite sqrt_1. fold (hyp2 a c).
  rewrite !feqb_fin_ne by lra.
  cbn [rbind vdivs map]. rewrite !fdiv_fin by lra.
  unfold np_dot. cbn [length Nat.eqb zip_with_f fmul fsum fold_left fadd rbind].
  replace (0 + a / hyp2 a c * (-1 / 1) + c / hyp2 a c * (0 / 1))
    with (- a / hyp2 a c) by (field; lra).
  pose proof (cos_ratio_bounds a c H) as Hb.
  rewrite np_clip_id, np_arccos_fin by exact Hb. reflexivity.
Qed.

Lemma angle_between_zero (a c : R) (v : vec) :
  a = 0 -> c = 0 -> angle_between [Fin a; Fin c] v = Raise DomainError.
Proof.
  intros -> ->. unfold angle_between, unit_vector, np_norm.
  cbn [zip_with_f fmul fsum fold_left fadd].
  replace (0 + 0 * 0 + 0 * 0) with 0 by ring.
  rewrite fsqrt_fin by lra. rewrite sqrt_0, feqb_fin_eq. reflexivity.
Qed.

Lemma angle_between_nan :
  angle_between [NaN; NaN] [Fin (-1); Fin 0] = Ok NaN.
Proof.
  unfold angle_between, unit_vector, np_norm.
  cbn [zip_with_f fmul fsum fold_left fadd].
  change (fsqrt NaN) with NaN. cbn [feqb rbind vdivs map].
  replace (0 + -1 * -1 + 0 * 0) with 1 by ring.
  rewrite fsqrt_fin by lra. rewrite sqrt_1, feqb_fin_ne by lra.
  cbn [rbind vdivs map]. rewrite !fdiv_fin by lra. reflexivity.
Qed.

Lemma cos_frontal (a c : R) :
  a <> 0 \/ c <> 0 -> cos (frontal_angle a c) = - a / hyp2 a c.
Proof. intros H. apply cos_acos, cos_ratio_bounds, H. Qed.

Lemma sin_frontal (a c : R) :
  a <> 0 \/ c <> 0 -> sin (frontal_angle a c) = Rabs c / hyp2 a c.
Proof.
  intros H. pose proof (hyp2_pos a c H) as Hp.
  unfold frontal_angle. rewrite sin_acos by (apply cos_ratio_bounds, H).
  replace (1 - (- a / hyp2 a c)²) with ((c / hyp2 a c)²).
  - rewrite sqrt_Rsqr_abs. unfold Rdiv.
    rewrite Rabs_mult, (Rabs_right (/ hyp2 a c)); [reflexivity | ].
    apply Rle_ge. left. apply Rinv_0_lt_compat, Hp.
  - unfold Rsqr, Rdiv. pose proof (hyp2_sq a c) as Hs.
    assert (Hi : / hyp2 a c * hyp2 a c = 1) by (apply Rinv_l; lra).
    transitivity (/ hyp2 a c * / hyp2 a c * (hyp2 a c * hyp2 a c)
                  - - a * / hyp2 a c * (- a * / hyp2 a c)).
    + rewrite Hs. ring.
    + f_equal. transitivity ((/ hyp2 a c * hyp2 a c) * (/ hyp2 a c * hyp2 a c)).
      * ring.
      * rewrite Hi. ring.
Qed.
End Angle.

(** ** The returned skeleton *)

Lemma col_view_of (k : nat) (b : array) (i : nat) :
  col (view_of k b) i = take k (col b i).
Proof.
  unfold col, view_of. cbn [cols]. rewrite lookup_map.
  destruct (cols b !! i); [reflexivity | ]. cbn. destruct k; reflexivity.
Qed.

Lemma joint_after_write (w : world) (l : nat) (b' : array) (i : nat) :
  l < length (heap w) ->
  joint (set_heap w (<[l := b']> (heap w))) (mkNd l 3) i = col3 b' i.
Proof.
  intros Hl. unfold joint.
  rewrite (contents_lookup _ _ _ b').
  - apply col_view_of.
  - rewrite heap_set_heap. apply list_lookup_insert_eq, Hl.
Qed.

Lemma shoulder_line_after_write (w : world) (l : nat) (b' : array) :
  l < length (heap w) ->
  shoulder_line_xz (set_heap w (<[l := b']> (heap w))) (mkNd l 3) =
  shoulder_xz b'.
Proof.
  intros Hl. unfold shoulder_line_xz, shoulder_xz.
  rewrite !joint_after_write by exact Hl. reflexivity.
Qed.

Section Frontal.
Local Open Scope R_scope.
Variable b : array.
Hypothesis Hwf : array_wf b.
Hypothesis Hrows : (3 <= nrows b)%nat.
Hypothesis Hcols : (10 <= length (cols b))%nat.
Variables x3 y3 z3 x9 y9 z9 : R.
Hypothesis H3 : col3 b 3 = [Fin x3; Fin y3; Fin z3].
Hypothesis H9 : col3 b 9 = [Fin x9; Fin y9; Fin z9].
Hypothesis Hxz : x3 <> x9 \/ z3 <> z9.

Local Abbreviation rho := (shoulder_len x3 y3 z3 x9 y9 z9).
Local Abbreviation dx := ((x3 - x9) / rho).
Local Abbreviation dy := ((y3 - y9) / rho).
Local Abbreviation dz := ((z3 - z9) / rho).
Local Abbreviation theta := (frontal_angle dx dz).
Local Abbreviation final := (turned (quat_y theta) (scaled b)).

Lemma shoulders_distinct : (x3, y3, z3) <> (x9, y9, z9).
Proof. intros E. injection E as Ex Ey Ez. destruct Hxz; contradiction. Qed.

Lemma rho_pos : 0 < rho.
Proof. apply shoulder_len_pos, shoulders_distinct. Qed.

Lemma dxz_nonzero : dx <> 0 \/ dz <> 0.
Proof.
  pose proof rho_pos as Hp.
  destruct Hxz as [H | H]; [left | right]; intros E;
    apply H; apply Rminus_diag_uniq;
    apply (Rmult_eq_reg_r (/ rho)); [ | apply Rinv_neq_0_compat; lra
                                       | | apply Rinv_neq_0_compat; lra];
    rewrite Rmult_0_l; exact E.
Qed.

Lemma final_root : col3 final 0 = [Fin 0; Fin 0; Fin 0].
Proof.
  apply turned_col3.
  - rewrite scaled_length. lia.
  - rewrite (scaled_root_fin b Hwf Hrows Hcols x3 y3 z3 x9 y9 z9 H3 H9
               shoulders_distinct).
    unfold quat_y. rewrite q_rotate_y_fin. vec3_eq; ring.
Qed.

Lemma final_shoulder3 :
  col3 final 3 =
  [Fin (dx / 2 * cos theta + dz / 2 * sin theta);
   Fin (dy / 2);
   Fin (- (dx / 2) * sin theta + dz / 2 * cos theta)].
Proof.
  pose proof rho_pos as Hp.
  apply turned_col3.
  - rewrite scaled_length. lia.
  - rewrite (scaled_shoulder3_fin b Hwf Hrows Hcols x3 y3 z3 x9 y9 z9 H3 H9
               shoulders_distinct).
    unfold quat_y. rewrite q_rotate_y_fin.
    vec3_eq; field; lra.
Qed.

Lemma final_shoulder9 :
  col3 final 9 =
  [Fin (- (dx / 2) * cos theta + - (dz / 2) * sin theta);
   Fin (- (dy / 2));
   Fin (dx / 2 * sin theta + - (dz / 2) * cos theta)].
Proof.
  pose proof rho_pos as Hp.
  apply turned_col3.
  - rewrite scaled_length. lia.
  - rewrite (scaled_shoulder9_fin b Hwf Hrows Hcols x3 y3 z3 x9 y9 z9 H3 H9
               shoulders_distinct).
    unfold quat_y. rewrite q_rotate_y_fin.
    vec3_eq; field; lra.
Qed.

Lemma unit_direction : dx * dx + dy * dy + dz * dz = 1.
Proof.
  pose proof rho_pos as Hp.
  pose proof (shoulder_len_sq x3 y3 z3 x9 y9 z9) as Hs.
  unfold shoulder_sq in Hs.
  transitivity (((x3 - x9) * (x3 - x9) + (y3 - y9) * (y3 - y9)
                 + (z3 - z9) * (z3 - z9)) / (rho * rho)).
  - field. lra.
  - rewrite <- Hs. field. lra.
Qed.

Lemma final_shoulder_distance :
  euclidean (col3 final 3) (col3 final 9) = Fin 1.
Proof.
  rewrite final_shoulder3, final_shoulder9.
  unfold euclidean, np_norm.
  cbn [vsub zip_with_f fsub fneg fadd fmul fsum fold_left].
  pose proof (sin2_cos2 theta) as Hsc. unfold Rsqr in Hsc.
  pose proof unit_direction as Hu.
  match goal with
  | |- fsqrt (Fin ?e) = _ =>
      replace e with ((dx * dx + dz * dz)
                      * (sin theta * sin theta + cos theta * cos theta)
                      + dy * dy) by (field; pose proof rho_pos; lra)
  end.
  rewrite Hsc.
  replace ((dx * dx + dz * dz) * 1 + dy * dy) with 1 by lra.
  rewrite fsqrt_fin by lra. rewrite sqrt_1. reflexivity.
Qed.

Lemma final_shoulder_xz :
  shoulder_xz final =
  [Fin (dx * cos theta + dz * sin theta);
   Fin (- dx * sin theta + dz * cos theta)].
Proof.
  unfold shoulder_xz. rewrite final_shoulder3, final_shoulder9.
  cbn [every_second vsub zip_with_f fsub fneg fadd].
  pose proof rho_pos as Hp.
  f_equal; [ | f_equal]; f_equal; field; lra.
Qed.

Lemma normalize_skeleton_frontal_run (w : world) (l s : nat) :
  heap w !! l = Some b -> (3 <= s)%nat ->
  normalize_skeleton (mkNd l s) w =
  Ok (mkNd l 3, set_heap w (<[l := final]> (heap w))).
Proof.
  intros Hb Hstop.
  rewrite (normalize_skeleton_run w l s b Hb Hwf Hrows Hstop Hcols).
  rewrite (shoulders_finite_fin b x3 y3 z3 x9 y9 z9 H3 H9).
  rewrite (shoulder_xz_scaled b Hwf Hrows Hcols x3 y3 z3 x9 y9 z9 H3 H9
             shoulders_distinct).
  rewrite (angle_between_ref_fin dx dz dxz_nonzero).
  rewrite Quaternion_y_fin. reflexivity.
Qed.

(** The left shoulder not in front of the right one: the turn brings
    the shoulder line onto the reference direction. *)
Lemma final_shoulder_xz_aligned :
  z3 <= z9 -> shoulder_xz final = [Fin (- hyp2 dx dz); Fin 0].
Proof.
  intros Hz. pose proof rho_pos as Hp.
  pose proof (hyp2_pos dx dz dxz_nonzero) as Hh.
  pose proof (hyp2_sq dx dz) as Hs.
  assert (Hdz : dz <= 0).
  { pose proof (Rinv_0_lt_compat rho Hp). unfold Rdiv. nra. }
  rewrite final_shoulder_xz.
  rewrite cos_frontal, sin_frontal by exact dxz_nonzero.
  rewrite (Rabs_left1 dz Hdz).
  f_equal; [ | f_equal]; f_equal.
  - transitivity (- (dx * dx + dz * dz) / hyp2 dx dz); [field; lra | ].
    rewrite <- Hs. field. lra.
  - field. lra.
Qed.

(** The left shoulder in front of the right one: the unsigned angle
    turns the skeleton the wrong way. *)
Lemma final_shoulder_xz_mirrored :
  z9 < z3 ->
  shoulder_xz final =
  [Fin ((dz * dz - dx * dx) / hyp2 dx dz); Fin (- (2 * dx * dz) / hyp2 dx dz)].
Proof.
  intros Hz. pose proof rho_pos as Hp.
  pose proof (hyp2_pos dx dz dxz_nonzero) as Hh.
  assert (Hdz : 0 <= dz).
  { pose proof (Rinv_0_lt_compat rho Hp). unfold Rdiv. nra. }
  rewrite final_shoulder_xz.
  rewrite cos_frontal, sin_frontal by exact dxz_nonzero.
  rewrite (Rabs_right dz) by (apply Rle_ge, Hdz).
  f_equal; [ | f_equal]; f_equal; field; lra.
Qed.
End Frontal.

(** ** Coincident shoulders *)

Lemma fdiv_zero_zero (x : R) : x = 0%R -> fdiv (Fin x) (Fin 0) = NaN.
Proof.
  intros ->. unfold fdiv, inf_signed. rdec; try reflexivity; contradiction.
Qed.

Section Coincident.
Local Open Scope R_scope.
Variable b : array.
Hypothesis Hwf : array_wf b.
Hypothesis Hrows : (3 <= nrows b)%nat.
Hypothesis Hcols : (10 <= length (cols b))%nat.
Variables x y z : R.
Hypothesis H3 : col3 b 3 = [Fin x; Fin y; Fin z].
Hypothesis H9 : col3 b 9 = [Fin x; Fin y; Fin z].

Lemma resize_of_zero : resize_of b = Fin 0.
Proof.
  rewrite (resize_of_fin b x y z x y z H3 H9).
  rewrite shoulder_len_zero; reflexivity.
Qed.

Lemma scaled_shoulders_nan (i : nat) :
  i = 3%nat \/ i = 9%nat -> col3 (scaled b) i = [NaN; NaN; NaN].
Proof.
  intros Hi. rewrite (scaled_col3 b Hwf Hrows Hcols i) by lia.
  assert (Hc : col3 b i = [Fin x; Fin y; Fin z]) by (destruct Hi; subst; auto).
  rewrite Hc, (anchor_of_fin b x y z x y z H3 H9), resize_of_zero.
  cbn [vsub zip_with_f fsub fneg fadd vdivs map].
  rewrite !fdiv_zero_zero by field. reflexivity.
Qed.

Lemma normalize_skeleton_coincident_run (w : world) (l s : nat) :
  heap w !! l = Some b -> (3 <= s)%nat ->
  normalize_skeleton (mkNd l s) w =
  Ok (mkNd l 3,
      set_heap w (<[l := turned (mkQuat NaN NaN NaN NaN) (scaled b)]> (heap w))).
Proof.
  intros Hb Hstop.
  rewrite (normalize_skeleton_run w l s b Hb Hwf Hrows Hstop Hcols).
  rewrite (shoulders_finite_fin b x y z x y z H3 H9).
  unfold shoulder_xz. rewrite !scaled_shoulders_nan by auto.
  cbn [every_second vsub zip_with_f fsub fneg fadd].
  rewrite angle_between_nan, Quaternion_y_nan. reflexivity.
Qed.

Lemma turned_nan_col3 (i : nat) :
  (i < length (cols b))%nat ->
  col3 (turned (mkQuat NaN NaN NaN NaN) (scaled b)) i = [NaN; NaN; NaN].
Proof.
  intros Hi. apply turned_col3.
  - rewrite scaled_length. exact Hi.
  - destruct (lookup_lt_is_Some_2 (cols (scaled b)) i) as [c Hc].
    { rewrite scaled_length. exact Hi. }
    pose proof (scaled_col_length b Hwf Hrows Hcols i c Hc) as Hlen.
    unfold col3. rewrite (col_lookup _ _ _ Hc).
    destruct c as [ | a0 [ | a1 [ | a2 t]]]; cbn in Hlen; try lia.
    cbn [take]. destruct t; apply q_rotate_nan.
Qed.
End Coincident.

(** * Properties of [normalize_skeleton] *)

Lemma skeleton_with_shoulders_wf (p3 p9 : vec) :
  length p3 = 4 -> length p9 = 4 -> array_wf (skeleton_with_shoulders p3 p9).
Proof.
  intros H3 H9. unfold array_wf, skeleton_with_shoulders. cbn.
  repeat (constructor; [assumption || reflexivity | ]). constructor.
Qed.

(** C1 (amended).  For every stored joint array with at least three rows
    and ten joints whose shoulders (joints 3 and 9) are finite and differ in
    their x or in their z coordinate, [normalize_skeleton] returns a
    skeleton whose joint 0 is (0, 0, 0) and whose shoulders are at
    distance 1 (exactly so in real arithmetic). *)
Theorem normalize_skeleton_root_and_scale
    (w : world) (l s : nat) (b : array) (x3 y3 z3 x9 y9 z9 : R) :
  heap w !! l = Some b -> array_wf b ->
  3 <= nrows b -> 3 <= s -> 10 <= length (cols b) ->
  col3 b 3 = [Fin x3; Fin y3; Fin z3] ->
  col3 b 9 = [Fin x9; Fin y9; Fin z9] ->
  x3 <> x9 \/ z3 <> z9 ->
  exists w',
    normalize_skeleton (mkNd l s) w = Ok (mkNd l 3, w') /\
    joint w' (mkNd l 3) 0 = [Fin 0; Fin 0; Fin 0] /\
    euclidean (joint w' (mkNd l 3) 3) (joint w' (mkNd l 3) 9) = Fin 1.
Proof.
  intros Hb Hwf Hrows Hstop Hcols H3 H9 Hxz.
  apply lookup_lt_Some in Hb as Hl.
  eexists. split; [ | split].
  - eapply normalize_skeleton_frontal_run; eassumption.
  - rewrite joint_after_write by exact Hl.
    eapply final_root; eassumption.
  - rewrite !joint_after_write by exact Hl.
    eapply final_shoulder_distance; eassumption.
Qed.

Lemma normalize_skeleton_root_and_scale_witness :
  exists w',
    normalize_skeleton (mkNd 0 4)
      (world_of [skeleton_with_shoulders [Fin 1; Fin 0; Fin 0; Fin 1]
                                         [Fin 0; Fin 0; Fin 0; Fin 1]]%R)
    = Ok (mkNd 0 3, w') /\
    joint w' (mkNd 0 3) 0 = [Fin 0; Fin 0; Fin 0] /\
    euclidean (joint w' (mkNd 0 3) 3) (joint w' (mkNd 0 3) 9) = Fin 1.
Proof.
  apply (normalize_skeleton_root_and_scale _ 0 4
           (skeleton_with_shoulders [Fin 1; Fin 0; Fin 0; Fin 1]
                                    [Fin 0; Fin 0; Fin 0; Fin 1])%R
           1 0 0 0 0 0)%R.
  - reflexivity.
  - apply skeleton_with_shoulders_wf; reflexivity.
  - cbn; lia.
  - lia.
  - cbn; lia.
  - reflexivity.
  - reflexivity.
  - left. lra.
Defined.

(** C1 as stated fails: two shoulders one above the other are distinct, but
    their shoulder line has no (x, z) part, the angle is undefined and no
    skeleton is returned. *)
Lemma normalize_skeleton_vertical_shoulders :
  let b := skeleton_with_shoulders [Fin 0; Fin 1; Fin 0; Fin 1]
                                   [Fin 0; Fin 0; Fin 0; Fin 1]%R in
  col b 3 <> col b 9 /\
  normalize_skeleton (mkNd 0 4) (world_of [b]) = Raise DomainError /\
  ~ (exists r w',
       normalize_skeleton (mkNd 0 4) (world_of [b]) = Ok (r, w') /\
       joint w' r 0 = [Fin 0; Fin 0; Fin 0] /\
       euclidean (joint w' r 3) (joint w' r 9) = Fin 1).
Proof.
  intros b.
  assert (Hraise : normalize_skeleton (mkNd 0 4) (world_of [b])
                   = Raise DomainError).
  { rewrite (normalize_skeleton_run _ 0 4 b); try reflexivity;
      try (cbn; lia); try lia;
      [ | apply skeleton_with_shoulders_wf; reflexivity].
    change (shoulders_finite b) with true. cbv iota.
    rewrite (shoulder_xz_scaled b) with (x3 := 0%R) (y3 := 1%R) (z3 := 0%R)
                                        (x9 := 0%R) (y9 := 0%R) (z9 := 0%R);
      try reflexivity; try (cbn; lia).
    - rewrite angle_between_zero; [reflexivity | | ]; unfold Rdiv; ring.
    - apply skeleton_with_shoulders_wf; reflexivity.
    - intros E. injection E as E. lra. }
  split; [ | split].
  - cbn. intros E. injection E as E. lra.
  - exact Hraise.
  - intros (r & w' & Hok & _). rewrite Hraise in Hok. discriminate.
Qed.

(** For a skeleton whose left shoulder is not in front of the right one
    ([z3 <= z9]), the normaliser does bring the shoulder line onto the
    reference direction. *)
Lemma normalize_skeleton_frontal_when_behind
    (w : world) (l s : nat) (b : array) (x3 y3 z3 x9 y9 z9 : R) :
  heap w !! l = Some b -> array_wf b ->
  3 <= nrows b -> 3 <= s -> 10 <= length (cols b) ->
  col3 b 3 = [Fin x3; Fin y3; Fin z3] ->
  col3 b 9 = [Fin x9; Fin y9; Fin z9] ->
  x3 <> x9 \/ z3 <> z9 ->
  (z3 <= z9)%R ->
  exists w',
    normalize_skeleton (mkNd l s) w = Ok (mkNd l 3, w') /\
    along_reference (shoulder_line_xz w' (mkNd l 3)).
Proof.
  intros Hb Hwf Hrows Hstop Hcols H3 H9 Hxz Hz.
  apply lookup_lt_Some in Hb as Hl.
  eexists. split.
  - eapply normalize_skeleton_frontal_run; eassumption.
  - rewrite shoulder_line_after_write by exact Hl.
    rewrite (final_shoulder_xz_aligned b Hwf Hrows Hcols x3 y3 z3 x9 y9 z9
               H3 H9 Hxz Hz).
    eexists. split; [ | reflexivity].
    apply hyp2_pos.
    eapply (dxz_nonzero x3 y3 z3 x9 y9 z9); eassumption.
Qed.

Lemma shoulder_len_3_4 : shoulder_len 3 0 4 0 0 0 = 5%R.
Proof.
  unfold shoulder_len, shoulder_sq.
  replace ((3 - 0) * (3 - 0) + (0 - 0) * (0 - 0) + (4 - 0) * (4 - 0))%R
    with (5 * 5)%R by ring.
  apply sqrt_square. lra.
Qed.

Lemma hyp2_3_4 : hyp2 ((3 - 0) / 5) ((4 - 0) / 5) = 1%R.
Proof.
  unfold hyp2.
  replace ((3 - 0) / 5 * ((3 - 0) / 5) + (4 - 0) / 5 * ((4 - 0) / 5))%R
    with 1%R by field.
  apply sqrt_1.
Qed.

(** C2 (the code at a failing input).  With the left shoulder at
    (3, 0, 4) and the right shoulder at the origin, [normalize_skeleton]
    returns a skeleton whose shoulder line has the (x, z) part
    (7/25, -24/25): it does not lie along (-1, 0). *)
Theorem normalize_skeleton_not_frontal :
  let b := skeleton_with_shoulders [Fin 3; Fin 0; Fin 4; Fin 1]
                                   [Fin 0; Fin 0; Fin 0; Fin 1]%R in
  exists w',
    normalize_skeleton (mkNd 0 4) (world_of [b]) = Ok (mkNd 0 3, w') /\
    shoulder_line_xz w' (mkNd 0 3) = [Fin (7 / 25); Fin (- 24 / 25)]%R /\
    ~ along_reference (shoulder_line_xz w' (mkNd 0 3)).
Proof.
  intros b.
  assert (Hwf : array_wf b) by (apply skeleton_with_shoulders_wf; reflexivity).
  assert (Hrows : 3 <= nrows b) by (cbn; lia).
  assert (Hcols : 10 <= length (cols b)) by (cbn; lia).
  assert (H3 : col3 b 3 = [Fin 3; Fin 0; Fin 4]%R) by reflexivity.
  assert (H9 : col3 b 9 = [Fin 0; Fin 0; Fin 0]%R) by reflexivity.
  assert (Hxz : (3 <> 0 \/ 4 <> 0)%R) by (left; lra).
  assert (Hline : shoulder_line_xz
                    (set_heap (world_of [b])
                       (<[0 := turned
                                 (quat_y (frontal_angle
                                    ((3 - 0) / shoulder_len 3 0 4 0 0 0)
                                    ((4 - 0) / shoulder_len 3 0 4 0 0 0)))
                                 (scaled b)]> (heap (world_of [b]))))
                    (mkNd 0 3)
                  = [Fin (7 / 25); Fin (- 24 / 25)]%R).
  { rewrite shoulder_line_after_write by (cbn; lia).
    rewrite (final_shoulder_xz_mirrored b Hwf Hrows Hcols 3 0 4 0 0 0
               H3 H9 Hxz) by lra.
    rewrite shoulder_len_3_4, hyp2_3_4.
    f_equal; [ | f_equal]; f_equal; field. }
  eexists. split; [ | split].
  - apply (normalize_skeleton_frontal_run b Hwf Hrows Hcols 3 0 4 0 0 0
             H3 H9 Hxz (world_of [b]) 0 4 eq_refl (Nat.le_succ_diag_r 3)).
  - exact Hline.
  - rewrite Hline. intros (k & Hk & E). injection E as E1 E2. lra.
Qed.

(** * Coincident shoulders *)

(** C3 (amended).  For every stored joint array with at least three rows
    and ten joints whose two shoulders are at the same finite position,
    [normalize_skeleton] raises nothing: it divides by the zero shoulder
    length and returns a skeleton all of whose joints are (NaN, NaN, NaN). *)
Theorem normalize_skeleton_coincident_shoulders
    (w : world) (l s : nat) (b : array) (x y z : R) :
  heap w !! l = Some b -> array_wf b ->
  3 <= nrows b -> 3 <= s -> 10 <= length (cols b) ->
  col3 b 3 = [Fin x; Fin y; Fin z] ->
  col3 b 9 = [Fin x; Fin y; Fin z] ->
  exists w',
    normalize_skeleton (mkNd l s) w = Ok (mkNd l 3, w') /\
    forall i, i < length (cols b) ->
      joint w' (mkNd l 3) i = [NaN; NaN; NaN].
Proof.
  intros Hb Hwf Hrows Hstop Hcols H3 H9.
  apply lookup_lt_Some in Hb as Hl.
  eexists. split.
  - eapply normalize_skeleton_coincident_run; eassumption.
  - intros i Hi. rewrite joint_after_write by exact Hl.
    eapply turned_nan_col3; eassumption.
Qed.

Lemma normalize_skeleton_coincident_shoulders_witness :
  exists w',
    normalize_skeleton (mkNd 0 4)
      (world_of [skeleton_with_shoulders [Fin 1; Fin 2; Fin 3; Fin 1]
                                         [Fin 1; Fin 2; Fin 3; Fin 1]]%R)
    = Ok (mkNd 0 3, w') /\
    forall i, i < 19 -> joint w' (mkNd 0 3) i = [NaN; NaN; NaN].
Proof.
  apply (normalize_skeleton_coincident_shoulders _ 0 4
           (skeleton_with_shoulders [Fin 1; Fin 2; Fin 3; Fin 1]
                                    [Fin 1; Fin 2; Fin 3; Fin 1])%R
           1 2 3)%R.
  - reflexivity.
  - apply skeleton_with_shoulders_wf; reflexivity.
  - cbn; lia.
  - lia.
  - cbn; lia.
  - reflexivity.
  - reflexivity.
Defined.

(** C3 as stated fails: on a body whose shoulders are both at (0, 0, 0)
    the normaliser raises no exception and hands back NaN joints. *)
Lemma normalize_skeleton_coincident_no_error :
  let b := skeleton_with_shoulders [Fin 0; Fin 0; Fin 0; Fin 1]
                                   [Fin 0; Fin 0; Fin 0; Fin 1]%R in
  col b 3 = col b 9 /\
  (forall e, normalize_skeleton (mkNd 0 4) (world_of [b]) <> Raise e) /\
  exists w',
    normalize_skeleton (mkNd 0 4) (world_of [b]) = Ok (mkNd 0 3, w') /\
    joint w' (mkNd 0 3) 3 = [NaN; NaN; NaN].
Proof.
  intros b.
  assert (Hwf : array_wf b) by (apply skeleton_with_shoulders_wf; reflexivity).
  assert (Hrows : 3 <= nrows b) by (cbn; lia).
  assert (Hcols : 10 <= length (cols b)) by (cbn; lia).
  assert (H3 : col3 b 3 = [Fin 0; Fin 0; Fin 0]%R) by reflexivity.
  assert (H9 : col3 b 9 = [Fin 0; Fin 0; Fin 0]%R) by reflexivity.
  pose proof (normalize_skeleton_coincident_run b Hwf Hrows Hcols 0 0 0
                H3 H9 (world_of [b]) 0 4 eq_refl (Nat.le_succ_diag_r 3))%R
    as Hrun.
  split; [reflexivity | split].
  - intros e. rewrite Hrun. discriminate.
  - eexists. split; [exact Hrun | ].
    rewrite joint_after_write by (cbn; lia).
    apply (turned_nan_col3 b Hwf Hrows Hcols). cbn; lia.
Qed.

(** * The rotator *)

(** A loop that fills every column of one array from the same column of
    another array. *)
Lemma for_each_cols_copy (g : vec -> result vec) (a : ndarray) (ld kd : nat)
    (bs : array) :
  base a <> ld ->
  forall (n s : nat) (w : world) (bd : array),
    heap w !! base a = Some bs ->
    heap w !! ld = Some bd ->
    s + n = length (cols bs) ->
    length (cols bd) = length (cols bs) ->
    (forall i c, s <= i -> cols bs !! i = Some c ->
       exists v, g (take (stop a) c) = Ok v /\
                 length v = Nat.min kd (nrows bd)) ->
    (forall i c, s <= i -> cols bd !! i = Some c -> length c <= kd) ->
    for_each (seq s n) (fun i =>
      do ci <- get_col a i;
      do v <- lift (g ci);
      set_col (mkNd ld kd) i v) w =
    Ok (tt, set_heap w
              (<[ld := mkArray (nrows bd)
                         (take s (cols bd) ++
                          map (fun c =>
                                 match g (take (stop a) c) with
                                 | Ok v => v
                                 | Raise _ => take (stop a) c
                                 end) (drop s (cols bs)))]>
                 (heap w))).
Proof.
  intros Hne. destruct a as [la ka]. cbn [base stop] in *.
  induction n as [ | n IH]; intros s w bd Hs Hd Hlen Hsame Hg Hshort.
  - cbn [seq for_each]. unfold ret.
    rewrite (drop_ge (cols bs)), take_ge by lia. cbn [map]. rewrite app_nil_r.
    destruct bd as [r cs]. cbn [nrows cols].
    rewrite list_insert_id by exact Hd. rewrite set_heap_id. reflexivity.
  - cbn [seq for_each].
    destruct (lookup_lt_is_Some_2 (cols bs) s) as [c Hc]; [lia | ].
    destruct (lookup_lt_is_Some_2 (cols bd) s) as [cd Hcd]; [lia | ].
    destruct (Hg s c (Nat.le_refl s) Hc) as (v & Hgv & Hv).
    pose proof (Hshort s cd (Nat.le_refl s) Hcd) as Hcdlen.
    apply lookup_lt_Some in Hd as Hl.
    set (bd1 := mkArray (nrows bd) (<[s := v]> (cols bd))).
    rewrite (bind_ok _ _ w (set_heap w (<[ld := bd1]> (heap w))) tt).
    2:{ rewrite (bind_ok _ _ w w (take ka c)) by (eapply get_col_ok; eauto).
        rewrite (bind_ok _ _ w w v) by (unfold lift; rewrite Hgv; reflexivity).
        rewrite (set_col_ok w ld kd s bd cd v Hd Hcd Hv).
        rewrite (drop_ge cd) by exact Hcdlen. rewrite app_nil_r. reflexivity. }
    rewrite (IH (S s) _ bd1).
    + rewrite set_heap_set_heap, heap_set_heap, list_insert_insert_eq.
      unfold bd1. cbn [nrows cols]. do 4 f_equal.
      rewrite take_insert_lt by lia.
      rewrite (take_S_r _ _ cd) by exact Hcd.
      rewrite insert_app_r_alt by (rewrite length_take; lia).
      rewrite length_take, Nat.min_l by lia.
      rewrite Nat.sub_diag. cbn [insert list_insert].
      rewrite <- app_assoc. f_equal.
      rewrite (drop_S _ c s) by exact Hc. cbn [map app].
      rewrite Hgv. reflexivity.
    + rewrite heap_set_heap, list_lookup_insert_ne by (intros E; apply Hne; auto).
      exact Hs.
    + rewrite heap_set_heap. apply list_lookup_insert_eq. exact Hl.
    + lia.
    + unfold bd1. cbn [cols]. rewrite length_insert. exact Hsame.
    + unfold bd1. cbn [nrows]. intros i c' Hi Hc'. apply (Hg i c'); [lia | exact Hc'].
    + unfold bd1. cbn [cols]. intros i c' Hi Hc'.
      rewrite list_lookup_insert_ne in Hc' by lia.
      apply (Hshort i c'); [lia | exact Hc'].
Qed.

Lemma contents_app (w : world) (a : ndarray) (b : array) (h : list array) :
  heap w !! base a = Some b ->
  contents (set_heap w (heap w ++ h)) a = contents w a.
Proof.
  intros Hb. destruct a as [l k]. cbn [base] in Hb.
  rewrite (contents_lookup _ _ _ b), (contents_lookup _ _ _ b); auto.
  rewrite heap_set_heap. apply lookup_app_l_Some. exact Hb.
Qed.

Lemma view_of_col_length (k : nat) (b : array) (i : nat) (c : vec) :
  array_wf b -> cols (view_of k b) !! i = Some c ->
  length c = nrows (view_of k b).
Proof.
  intros Hwf. cbn [view_of cols nrows]. rewrite lookup_map.
  destruct (cols b !! i) as [c0 | ] eqn:Hc0; [ | discriminate].
  cbn. intros E. inversion E; subst c. rewrite length_take.
  rewrite (wf_col_length b Hwf i c0 Hc0). reflexivity.
Qed.

Lemma math_radians_fin (d : R) :
  math_radians (Fin d) = Fin (d * (PI / 180))%R.
Proof. reflexivity. Qed.

(** What [rotate_skel] does on a skeleton of three rows: the store grows
    by one array, the turned copy, and nothing else changes. *)
Lemma rotate_skel_run (w : world) (a : ndarray) (b : array) (d : R) :
  heap w !! base a = Some b -> array_wf b ->
  Nat.min (stop a) (nrows b) = 3 ->
  rotate_skel a (Fin d) w =
  Ok (mkNd (length (heap w)) 3,
      set_heap w (heap w ++ [rotated_by d (contents w a)])).
Proof.
  intros Hb Hwf Hrows. unfold rotate_skel.
  rewrite math_radians_fin, Quaternion_y_fin.
  fold (quat_y (d * (PI / 180))). unfold lift at 1. unfold bind at 1.
  set (m := contents w a).
  assert (Hm : m = view_of (stop a) b).
  { unfold m. destruct a as [l k]. apply contents_lookup. exact Hb. }
  assert (Hmr : nrows m = 3) by (rewrite Hm; exact Hrows).
  set (w1 := set_heap w (heap w ++ [m])).
  rewrite (bind_ok _ _ w w1 (mkNd (length (heap w)) 3)).
  2:{ unfold np_copy, alloc. fold m. rewrite Hmr. reflexivity. }
  rewrite (bind_ok _ _ w1 w1 (length (cols b))).
  2:{ unfold shape1, w1. rewrite (contents_app w a b) by exact Hb.
      fold m. rewrite Hm. cbn [view_of cols]. rewrite length_map. reflexivity. }
  apply lookup_lt_Some in Hb as Hl.
  rewrite (bind_ok _ _ w1
             (set_heap w (heap w ++ [rotated_by d m])) tt); [reflexivity | ].
  unfold for_range.
  rewrite (for_each_cols_copy (q_rotate (quat_y (d * (PI / 180)))) a
             (length (heap w)) 3 b) with (bd := m).
  - unfold w1. rewrite set_heap_set_heap, heap_set_heap.
    rewrite <- (Nat.add_0_r (length (heap w))) at 1.
    rewrite insert_app_r. cbn [insert list_insert take drop app].
    unfold rotated_by. replace (cols m) with (map (take (stop a)) (cols b))
      by (rewrite Hm; reflexivity).
    rewrite map_map. reflexivity.
  - lia.
  - unfold w1. rewrite heap_set_heap. apply lookup_app_l_Some. exact Hb.
  - unfold w1. rewrite heap_set_heap.
    rewrite lookup_app_r by lia. rewrite Nat.sub_diag. reflexivity.
  - lia.
  - rewrite Hm. cbn [view_of cols]. apply length_map.
  - intros i c _ Hc.
    destruct (q_rotate_total (quat_y (d * (PI / 180))) (take (stop a) c))
      as (v & Hv & Hlv).
    + rewrite length_take, (wf_col_length b Hwf i c Hc). exact Hrows.
    + exists v. split; [exact Hv | ]. rewrite Hmr. lia.
  - intros i c _ Hc. rewrite Hm in Hc.
    rewrite (view_of_col_length _ _ _ _ Hwf Hc). rewrite <- Hm, Hmr. lia.
Qed.

Lemma view_of_view_of (k k' : nat) (b : array) :
  view_of k' (view_of k b) = view_of (Nat.min k k') b.
Proof.
  unfold view_of. cbn [nrows cols]. f_equal.
  - lia.
  - rewrite map_map. apply map_ext. intros c.
    rewrite take_take. f_equal. lia.
Qed.

Lemma view_of_id (k : nat) (m : array) :
  array_wf m -> nrows m <= k -> view_of k m = m.
Proof.
  intros Hwf Hk. destruct m as [r cs]. unfold view_of. cbn [nrows cols] in *.
  f_equal; [lia | ].
  unfold array_wf in Hwf. cbn [nrows cols] in Hwf.
  induction Hwf as [ | c cs Hc Hcs IH]; [reflexivity | ].
  cbn [map]. rewrite IH, take_ge by lia. reflexivity.
Qed.

Lemma contents_alloc (w : world) (m : array) (k : nat) :
  contents (set_heap w (heap w ++ [m])) (mkNd (length (heap w)) k) = view_of k m.
Proof.
  apply contents_lookup. rewrite heap_set_heap.
  rewrite lookup_app_r by lia. rewrite Nat.sub_diag. reflexivity.
Qed.

Lemma view_of_wf (k : nat) (b : array) : array_wf b -> array_wf (view_of k b).
Proof.
  intros Hwf. unfold array_wf. apply Forall_forall. intros c Hc.
  apply list_elem_of_lookup in Hc as [i Hi].
  eapply view_of_col_length; eauto.
Qed.

Lemma rotated_by_wf (d : R) (m : array) :
  array_wf m -> nrows m = 3 -> array_wf (rotated_by d m).
Proof.
  intros Hwf Hr. unfold array_wf, rotated_by. cbn [nrows cols].
  unfold array_wf in Hwf. rewrite Hr in *.
  induction Hwf as [ | c cs Hc Hcs IH]; cbn [map]; constructor; [ | exact IH].
  unfold rotated_col.
  destruct (q_rotate_total (quat_y (d * (PI / 180))) c Hc) as (v & -> & Hv).
  exact Hv.
Qed.

Lemma rotated_col_fin (t x y z : R) :
  rotated_col (quat_y t) [Fin x; Fin y; Fin z] = rot_y t x y z.
Proof. unfold rotated_col, quat_y. rewrite q_rotate_y_fin. reflexivity. Qed.

(** * Properties of [project_skel] and [rotate_skel] *)

(** C4.  [project_skel] computes a reference from a reference and touches
    no store; on every skeleton that shows 3 rows and 19 columns, what the
    result shows is the 2 x 19 array of the first two rows of the input,
    entry by entry, and is a function of what the input shows. *)
Theorem project_skel_drops_depth (w : world) (skel_3d : ndarray) :
  nrows (contents w skel_3d) = 3 ->
  length (cols (contents w skel_3d)) = 19 ->
  nrows (contents w (project_skel skel_3d)) = 2 /\
  length (cols (contents w (project_skel skel_3d))) = 19 /\
  (forall r c, r < 2 ->
     entry (contents w (project_skel skel_3d)) r c =
     entry (contents w skel_3d) r c) /\
  contents w (project_skel skel_3d) = view_of 2 (contents w skel_3d).
Proof.
  intros Hr Hc.
  assert (E : contents w (project_skel skel_3d)
              = view_of 2 (contents w skel_3d)).
  { unfold project_skel, slice_rows, contents. cbn [base stop].
    unfold deref. cbn [base]. symmetry. apply view_of_view_of. }
  rewrite E. repeat split.
  - cbn [view_of nrows]. rewrite Hr. reflexivity.
  - cbn [view_of cols]. rewrite length_map. exact Hc.
  - intros r c Hlt. unfold entry. rewrite col_view_of.
    apply lookup_take_lt. exact Hlt.
Qed.

Lemma project_skel_drops_depth_witness :
  let w := world_of [skeleton_with_shoulders [Fin 1; Fin 0; Fin 0; Fin 1]
                                             [Fin 0; Fin 0; Fin 0; Fin 1]%R] in
  nrows (contents w (project_skel (mkNd 0 3))) = 2 /\
  length (cols (contents w (project_skel (mkNd 0 3)))) = 19 /\
  (forall r c, r < 2 ->
     entry (contents w (project_skel (mkNd 0 3))) r c =
     entry (contents w (mkNd 0 3)) r c) /\
  contents w (project_skel (mkNd 0 3)) = view_of 2 (contents w (mkNd 0 3)).
Proof.
  intros w. apply (project_skel_drops_depth w (mkNd 0 3)); reflexivity.
Defined.

(** C5.  On every stored skeleton of three rows and every finite amount
    [d] of degrees, [rotate_skel] returns a reference to a new array, which
    holds the input turned about the vertical axis by [d * PI / 180]
    radians: a joint (x, y, z) becomes
    (x cos t + z sin t, y, - x sin t + z cos t).  Every array that was in
    the store before the call, the input among them, is unchanged. *)
Theorem rotate_skel_fresh_and_input_unchanged
    (w : world) (skel_3d : ndarray) (b : array) (d : R) :
  heap w !! base skel_3d = Some b -> array_wf b ->
  Nat.min (stop skel_3d) (nrows b) = 3 ->
  exists r w',
    rotate_skel skel_3d (Fin d) w = Ok (r, w') /\
    base r = length (heap w) /\
    (forall l, l < length (heap w) -> heap w' !! l = heap w !! l) /\
    contents w' skel_3d = contents w skel_3d /\
    contents w' r = rotated_by d (contents w skel_3d) /\
    (forall i x y z,
       joint w skel_3d i = [Fin x; Fin y; Fin z] ->
       joint w' r i = rot_y (d * (PI / 180)) x y z).
Proof.
  intros Hb Hwf Hrows.
  assert (Hm : contents w skel_3d = view_of (stop skel_3d) b).
  { destruct skel_3d as [l k]. apply contents_lookup. exact Hb. }
  assert (Hc : contents (set_heap w (heap w ++ [rotated_by d (contents w skel_3d)]))
                 (mkNd (length (heap w)) 3)
               = rotated_by d (contents w skel_3d)).
  { rewrite contents_alloc. apply view_of_id.
    - apply rotated_by_wf; rewrite Hm; [apply view_of_wf, Hwf | exact Hrows].
    - cbn [rotated_by nrows]. rewrite Hm. cbn [view_of nrows]. lia. }
  eexists _, _. split; [ | split; [ | split; [ | split; [ | split]]]].
  - apply (rotate_skel_run w skel_3d b d Hb Hwf Hrows).
  - reflexivity.
  - intros l Hl. rewrite heap_set_heap. apply lookup_app_l. exact Hl.
  - apply (contents_app w skel_3d b). exact Hb.
  - exact Hc.
  - intros i x y z Hj. unfold joint in *. rewrite Hc.
    unfold col in *. unfold rotated_by. cbn [cols]. rewrite lookup_map.
    destruct (cols (contents w skel_3d) !! i) as [c | ]; [ | discriminate].
    cbn. rewrite Hj. apply rotated_col_fin.
Qed.

Lemma rotate_skel_fresh_and_input_unchanged_witness :
  let w := world_of [view_of 3 (skeleton_with_shoulders
                                  [Fin 1; Fin 0; Fin 0; Fin 1]
                                  [Fin 0; Fin 0; Fin 0; Fin 1]%R)] in
  exists r w',
    rotate_skel (mkNd 0 3) (Fin 90) w = Ok (r, w') /\
    base r = 1 /\
    (forall l, l < 1 -> heap w' !! l = heap w !! l) /\
    contents w' (mkNd 0 3) = contents w (mkNd 0 3) /\
    contents w' r = rotated_by 90 (contents w (mkNd 0 3)) /\
    (forall i x y z,
       joint w (mkNd 0 3) i = [Fin x; Fin y; Fin z] ->
       joint w' r i = rot_y (90 * (PI / 180)) x y z).
Proof.
  intros w.
  apply (rotate_skel_fresh_and_input_unchanged w (mkNd 0 3)
           (view_of 3 (skeleton_with_shoulders [Fin 1; Fin 0; Fin 0; Fin 1]
                                               [Fin 0; Fin 0; Fin 0; Fin 1]%R))).
  - reflexivity.
  - apply view_of_wf, skeleton_with_shoulders_wf; reflexivity.
  - reflexivity.
Defined.

(** * The augmenter *)

Lemma contents_same_heap (w w' : world) (a : ndarray) :
  heap w' = heap w -> contents w' a = contents w a.
Proof. intros E. unfold contents, deref. rewrite E. reflexivity. Qed.

Lemma contents_grown (w w' : world) (a : ndarray) (b : array) (h : list array) :
  heap w' = heap w ++ h -> heap w !! base a = Some b ->
  contents w' a = contents w a.
Proof.
  intros E Hb. destruct a as [l k]. cbn [base] in Hb.
  rewrite (contents_lookup w' l k b), (contents_lookup w l k b); auto.
  rewrite E. apply lookup_app_l_Some. exact Hb.
Qed.

Lemma is_skeleton_grown (w w' : world) (a : ndarray) (h : list array) :
  heap w' = heap w ++ h -> is_skeleton w a -> is_skeleton w' a.
Proof.
  intros E (b & Hb & Hwf & Hr & Hc). exists b. repeat split; auto.
  rewrite E. apply lookup_app_l_Some. exact Hb.
Qed.

Lemma length_zip_with_vadd (cs ds : list vec) :
  length (zip_with vadd cs ds) = Nat.min (length cs) (length ds).
Proof. apply length_zip_with. Qed.

Lemma world_eq (w1 w2 : world) :
  heap w1 = heap w2 -> py_random w1 = py_random w2 ->
  np_random w1 = np_random w2 -> w1 = w2.
Proof.
  destruct w1, w2. cbn. intros -> -> ->. reflexivity.
Qed.

(** One round of the augmenter on a skeleton, for a finite noise amount:
    two arrays are appended to the store, the turned copy and the noised
    copy with its root set to zero, and their references to the samples;
    each generator has moved on by what the round drew. *)
Lemma augment_one_step (n : R) (acc : list ndarray) (a : ndarray) (w : world) :
  is_skeleton w a ->
  augment_one (Fin n) acc a w =
  Ok (acc ++ [mkNd (length (heap w)) 3; mkNd (S (length (heap w))) 3],
      world_after_augment n w a).
Proof.
  intros (b & Hb & Hwf & Hrows & Hcols).
  set (m := contents w a).
  assert (Hm : m = view_of (stop a) b).
  { unfold m. destruct a as [l k]. apply contents_lookup. exact Hb. }
  assert (Hmr : nrows m = 3) by (rewrite Hm; exact Hrows).
  assert (Hmc : length (cols m) = length (cols b)).
  { rewrite Hm. cbn [view_of cols]. apply length_map. }
  assert (Hmwf : array_wf m) by (rewrite Hm; apply view_of_wf, Hwf).
  set (d := (-20 + (20 - -20) * py_random w 0)%R).
  set (wa := mkWorld (heap w) (fun k => py_random w (S k)) (np_random w)).
  set (wb := set_heap wa (heap w ++ [rotated_by d m])).
  set (noise :=
         mkArray 3
           (map (fun j =>
              map (fun i =>
                fadd (Fin 0%R)
                     (fmul (fsub (Fin n) (Fin 0%R))
                           (Fin (np_random wb (i * length (cols b) + j)))))
                (seq 0 3))
              (seq 0 (length (cols b))))).
  set (wc := mkWorld (heap wb) (py_random wb)
               (fun k => np_random wb (3 * length (cols b) + k))).
  set (sum := array_add m noise).
  set (wd := set_heap wc (heap wc ++ [sum])).
  set (we := set_heap wd (<[S (length (heap w)) := zero_root sum]> (heap wd))).
  assert (Hma : contents wa a = m) by (apply contents_same_heap; reflexivity).
  assert (Hmb : contents wb a = m).
  { unfold m. apply (contents_grown w wb a b [rotated_by d (contents w a)]);
      [reflexivity | exact Hb]. }
  assert (Hmc' : contents wc a = m)
    by (rewrite <- Hmb; apply contents_same_heap; reflexivity).
  assert (Hnc : length (cols noise) = length (cols m)).
  { unfold noise. cbn [cols]. rewrite length_map, length_seq. lia. }
  assert (Hsumc : length (cols sum) = length (cols b)).
  { unfold sum, array_add. cbn [cols]. rewrite length_zip_with_vadd. lia. }
  assert (Hnl : forall c, c ∈ cols noise -> length c = 3).
  { intros c Hc. unfold noise in Hc. cbn [cols] in Hc.
    apply list_elem_of_In, in_map_iff in Hc as (j & <- & _).
    rewrite length_map, length_seq. reflexivity. }
  assert (Hsr : nrows sum = 3) by (unfold sum, array_add; cbn [nrows]; exact Hmr).
  assert (Hlenwc : length (heap wc) = S (length (heap w))).
  { unfold wc, wb. cbn [heap set_heap]. rewrite length_app. cbn. lia. }
  assert (Hwe : we = world_after_augment n w a).
  { apply world_eq.
    - unfold world_after_augment. cbn [heap]. fold m. rewrite Hmc.
      fold (drawn_degree w). 
      unfold we, wd, wc, wb. cbn [heap set_heap].
      rewrite <- app_assoc. cbn [app].
      replace (S (length (heap w))) with (length (heap w) + 1) by lia.
      rewrite insert_app_r. reflexivity.
    - reflexivity.
    - unfold world_after_augment. cbn [np_random]. fold m. rewrite Hmc.
      reflexivity. }
  rewrite <- Hwe.
  unfold augment_one.
  rewrite (bind_ok _ _ w wa (Fin d)) by reflexivity.
  rewrite (bind_ok _ _ wa wb (mkNd (length (heap w)) 3)).
  2:{ rewrite (rotate_skel_run wa a b d Hb Hwf Hrows). rewrite Hma.
      reflexivity. }
  rewrite (bind_ok _ _ wb wb 3)
    by (unfold shape0; rewrite Hmb, Hmr; reflexivity).
  rewrite (bind_ok _ _ wb wb (length (cols b)))
    by (unfold shape1; rewrite Hmb, Hmc; reflexivity).
  rewrite (bind_ok _ _ wb wc noise) by reflexivity.
  rewrite (bind_ok _ _ wc wd (mkNd (S (length (heap w))) 3)).
  2:{ rewrite Hmc'. unfold alloc. fold sum. rewrite Hlenwc, Hsr.
      reflexivity. }
  assert (Hd : heap wd !! S (length (heap w)) = Some sum).
  { unfold wd, wc, wb. cbn [heap set_heap].
    rewrite lookup_app_r by (rewrite length_app; cbn; lia).
    rewrite length_app. cbn [length].
    replace (S (length (heap w)) - (length (heap w) + 1)) with 0 by lia.
    reflexivity. }
  destruct (lookup_lt_is_Some_2 (cols sum) 0) as [c0 Hc0]; [lia | ].
  assert (Hc0l : length c0 = 3).
  { unfold sum, array_add in Hc0. cbn [cols] in Hc0.
    apply lookup_zip_with_Some in Hc0 as (u & v & -> & Hu & Hv).
    unfold vadd. rewrite length_zip_with_f.
    rewrite (Hnl v) by (eapply list_elem_of_lookup_2; eauto).
    assert (length u = 3); [ | lia].
    rewrite <- Hmr. apply (proj1 (Forall_forall _ _) Hmwf).
    eapply list_elem_of_lookup_2; eauto. }
  rewrite (bind_ok _ _ wd we tt);
    [unfold ret; rewrite <- app_assoc; reflexivity | ].
  unfold set_col_scalar.
  rewrite (contents_lookup wd _ 3 sum Hd). cbn [view_of nrows].
  rewrite Hsr. cbn [Nat.min replicate].
  rewrite (set_col_ok wd _ 3 0 sum c0 _ Hd Hc0) by (rewrite Hsr; reflexivity).
  unfold we, zero_root. rewrite Hsr. cbn [replicate].
  rewrite (drop_ge c0) by lia. reflexivity.
Qed.

Lemma augment_one_run (n : R) (acc : list ndarray) (a : ndarray) (w : world) :
  is_skeleton w a ->
  exists (d : R) (noise : array) (w' : world),
    augment_one (Fin n) acc a w =
      Ok (acc ++ [mkNd (length (heap w)) 3; mkNd (S (length (heap w))) 3], w') /\
    heap w' = heap w ++ [rotated_by d (contents w a);
                         zero_root (array_add (contents w a) noise)] /\
    nrows noise = 3 /\
    length (cols noise) = length (cols (contents w a)) /\
    (forall c, c ∈ cols noise -> length c = 3).
Proof.
  intros Ha.
  exists (drawn_degree w),
         (uniform_noise n (np_random w) 3 (length (cols (contents w a)))),
         (world_after_augment n w a).
  split; [apply augment_one_step, Ha | ]. split; [reflexivity | ].
  split; [reflexivity | ]. split.
  - unfold uniform_noise. cbn [cols]. rewrite length_map. apply length_seq.
  - intros c Hc. unfold uniform_noise in Hc. cbn [cols] in Hc.
    apply list_elem_of_In, in_map_iff in Hc as (j & <- & _).
    rewrite length_map. apply length_seq.
Qed.

Lemma map_seq_shift {A} (f : nat -> A) (a m : nat) :
  map f (seq a m) = map (fun k => f (a + k)) (seq 0 m).
Proof.
  revert a f. induction m as [ | m IH]; intros a f; [reflexivity | ].
  cbn [seq map]. rewrite Nat.add_0_r. f_equal.
  rewrite (IH (S a)), (IH 1). apply map_ext. intros k. f_equal. lia.
Qed.

Lemma fresh_refs_step (len n : nat) :
  fresh_refs len (S (S n)) =
  [mkNd len 3; mkNd (S len) 3] ++ fresh_refs (len + 2) n.
Proof.
  unfold fresh_refs. cbn [seq map app].
  rewrite Nat.add_0_r. replace (len + 1) with (S len) by lia.
  do 2 f_equal. rewrite map_seq_shift. apply map_ext. intros k. f_equal. lia.
Qed.

(** The loop of the augmenter. *)
Lemma augment_loop_run (n : R) :
  forall (skels acc : list ndarray) (w : world),
    Forall (is_skeleton w) skels ->
    exists (news : list array) (w' : world),
      augment_loop (Fin n) acc skels w =
        Ok (acc ++ fresh_refs (length (heap w)) (2 * length skels), w') /\
      heap w' = heap w ++ news /\
      variants w skels news.
Proof.
  induction skels as [ | a rest IH]; intros acc w Hsk.
  - exists [], w. cbn [augment_loop length]. unfold ret, fresh_refs.
    cbn. rewrite !app_nil_r. repeat split. intros i a Hi. discriminate.
  - apply Forall_cons in Hsk as [Ha Hrest].
    destruct (augment_one_run n acc a w Ha)
      as (d & noise & w1 & Hone & Hh1 & Hn1 & Hn2 & Hn3).
    assert (Hrest1 : Forall (is_skeleton w1) rest).
    { eapply Forall_impl; [exact Hrest | ]. intros x Hx.
      eapply is_skeleton_grown; eauto. }
    destruct (IH (acc ++ [mkNd (length (heap w)) 3;
                          mkNd (S (length (heap w))) 3]) w1 Hrest1)
      as (news1 & w' & Hloop & Hh' & Hlen1 & Hvar1).
    exists ([rotated_by d (contents w a);
             zero_root (array_add (contents w a) noise)] ++ news1), w'.
    split; [ | split; [ | split]].
    + cbn [augment_loop]. rewrite (bind_ok _ _ _ _ _ Hone). rewrite Hloop.
      cbn [length]. replace (2 * S (length rest)) with (S (S (2 * length rest))) by lia.
      rewrite fresh_refs_step, <- app_assoc.
      rewrite Hh1, length_app. cbn [length]. reflexivity.
    + rewrite Hh', Hh1, <- app_assoc. reflexivity.
    + rewrite length_app. cbn [length]. lia.
    + intros i a' Hi. destruct i as [ | j].
      * cbn in Hi. inversion Hi; subst a'.
        exists d, noise. cbn. auto.
      * cbn in Hi. destruct (Hvar1 j a' Hi) as (d' & noise' & G1 & G2 & G3 & G4 & G5).
        assert (Ha' : is_skeleton w a').
        { apply (proj1 (Forall_forall _ _) Hrest).
          eapply list_elem_of_lookup_2; eauto. }
        destruct Ha' as (b' & Hb' & _).
        rewrite (contents_grown w w1 a' b' _ Hh1 Hb') in G1, G2, G4.
        exists d', noise'.
        replace (2 * S j) with (S (S (2 * j))) by lia.
        replace (S (S (2 * j)) + 1) with (S (S (2 * j + 1))) by lia.
        cbn [app lookup list_lookup]. auto.
Qed.

(** *** The noise amount *)

Lemma fold_fadd_fin (xs : vec) :
  Forall is_fin xs ->
  forall r, exists r', fold_left fadd xs (Fin r) = Fin r'.
Proof.
  induction 1 as [ | x xs Hx Hxs IH]; intros r; [eexists; reflexivity | ].
  destruct x; try contradiction. cbn [fold_left fadd]. apply IH.
Qed.

Lemma fold_squares_fin (xs : vec) :
  Forall is_fin xs ->
  forall r, (0 <= r)%R ->
    exists r', (0 <= r')%R /\
               fold_left fadd (zip_with_f fmul xs xs) (Fin r) = Fin r'.
Proof.
  induction 1 as [ | x xs Hx Hxs IH]; intros r Hr.
  - exists r. split; [exact Hr | reflexivity].
  - destruct x as [v | | | ]; try contradiction.
    cbn [zip_with_f fold_left fadd fmul]. apply IH.
    pose proof (sq_nonneg v). lra.
Qed.

Lemma deviations_fin (mu : R) (xs : vec) :
  Forall is_fin xs -> Forall is_fin (map (fun x => fsub x (Fin mu)) xs).
Proof.
  induction 1 as [ | x l Hx Hl IH]; cbn [map]; constructor; [ | exact IH].
  destruct x; try contradiction. exact I.
Qed.

Lemma np_std_fin (m : array) :
  all_finite m -> concat (cols m) <> [] -> exists s, np_std m = Fin s.
Proof.
  intros Hfin Hne. unfold np_std.
  assert (Hxs : Forall is_fin (concat (cols m))).
  { apply Forall_concat. exact Hfin. }
  set (xs := concat (cols m)) in *.
  assert (Hn : INR (length xs) <> 0%R).
  { apply not_0_INR. destruct xs; [contradiction | discriminate]. }
  assert (Hnpos : (0 < INR (length xs))%R).
  { apply lt_0_INR. destruct xs; [contradiction | cbn; lia]. }
  destruct (fold_fadd_fin xs Hxs 0) as (t & Ht). unfold fsum. rewrite Ht.
  rewrite fdiv_fin by exact Hn.
  set (mean := (t / INR (length xs))%R).
  assert (Hdev : Forall is_fin (map (fun x => fsub x (Fin mean)) xs)).
  { apply deviations_fin, Hxs. }
  destruct (fold_squares_fin _ Hdev 0 (Rle_refl 0)) as (v & Hv & Hsq).
  rewrite Hsq, fdiv_fin by exact Hn.
  rewrite fsqrt_fin.
  - eexists; reflexivity.
  - unfold Rdiv. apply Rmult_le_pos; [exact Hv | ].
    left. apply Rinv_0_lt_compat, Hnpos.
Qed.

Lemma is_skeleton_entries (w : world) (a : ndarray) :
  is_skeleton w a -> concat (cols (contents w a)) <> [].
Proof.
  intros (b & Hb & Hwf & Hr & Hc).
  assert (Hm : contents w a = view_of (stop a) b).
  { destruct a as [l k]. apply contents_lookup. exact Hb. }
  rewrite Hm. cbn [view_of cols].
  destruct (cols b) as [ | c cs] eqn:E; [cbn in Hc; lia | ].
  cbn [map concat].
  assert (Hl : length c = nrows b).
  { apply (wf_col_length b Hwf 0 c). rewrite E. reflexivity. }
  intros Hnil. apply (f_equal (@length fnum)) in Hnil.
  rewrite length_app, length_take in Hnil. cbn in Hnil. lia.
Qed.

(** The whole augmenter, on a non-empty collection of skeletons the first
    of which is finite. *)
Lemma augmented_data_run (first : ndarray) (rest : list ndarray) (w : world) :
  Forall (is_skeleton w) (first :: rest) ->
  all_finite (contents w first) ->
  exists (news : list array) (w' : world),
    augmented_data (first :: rest) w =
      Ok (fresh_refs (length (heap w)) (2 * length (first :: rest)), w') /\
    heap w' = heap w ++ news /\
    variants w (first :: rest) news.
Proof.
  intros Hsk Hfin.
  assert (Hfirst : is_skeleton w first) by (inversion Hsk; assumption).
  destruct (np_std_fin _ Hfin (is_skeleton_entries w first Hfirst)) as (s & Hs).
  destruct (augment_loop_run (s / 10) (first :: rest) [] w Hsk)
    as (news & w' & Hloop & Hh & Hvar).
  exists news, w'. split; [ | split; assumption].
  unfold augmented_data.
  rewrite (bind_ok _ _ w w (Fin (s / 10))).
  - exact Hloop.
  - rewrite Hs, fdiv_fin by lra. reflexivity.
Qed.

(** ** The augmenter with its draws named *)

Lemma uniform_noise_col_length (n : R) (g : nat -> R) (r c : nat) (v : vec) :
  v ∈ cols (uniform_noise n g r c) -> length v = r.
Proof.
  unfold uniform_noise. cbn [cols]. intros Hv.
  apply list_elem_of_In, in_map_iff in Hv as (j & <- & _).
  rewrite length_map. apply length_seq.
Qed.

Lemma uniform_noise_length (n : R) (g : nat -> R) (r c : nat) :
  length (cols (uniform_noise n g r c)) = c.
Proof. unfold uniform_noise. cbn [cols]. rewrite length_map. apply length_seq. Qed.






Lemma contents_fresh (w w' : world) (news : list array) (k : nat) (m : array) :
  heap w' = heap w ++ news -> news !! k = Some m ->
  array_wf m -> nrows m <= 3 ->
  contents w' (mkNd (length (heap w) + k) 3) = m.
Proof.
  intros Hh Hk Hwf Hr.
  rewrite (contents_lookup w' _ 3 m).
  - apply view_of_id; assumption.
  - rewrite Hh, lookup_app_r by lia.
    replace (length (heap w) + k - length (heap w)) with k by lia. exact Hk.
Qed.

Lemma fresh_refs_lookup (len n k : nat) :
  k < n -> fresh_refs len n !! k = Some (mkNd (len + k) 3).
Proof.
  intros Hk. unfold fresh_refs. rewrite lookup_map.
  rewrite lookup_seq_lt by exact Hk. reflexivity.
Qed.


Lemma fresh_refs_base (len n : nat) :
  Forall (fun r => len <= base r) (fresh_refs len n).
Proof.
  apply Forall_forall. intros r Hr.
  apply list_elem_of_In, in_map_iff in Hr as (k & <- & _). cbn. lia.
Qed.

Lemma contents_skeleton (w : world) (a : ndarray) :
  is_skeleton w a ->
  array_wf (contents w a) /\ nrows (contents w a) = 3 /\
  1 <= length (cols (contents w a)).
Proof.
  intros (b & Hb & Hwf & Hr & Hc).
  assert (Hm : contents w a = view_of (stop a) b).
  { destruct a as [l k]. apply contents_lookup. exact Hb. }
  rewrite Hm. split; [apply view_of_wf, Hwf | split; [exact Hr | ]].
  cbn [view_of cols]. rewrite length_map. exact Hc.
Qed.

Lemma zero_root_sum_wf (m noise : array) :
  array_wf m -> nrows m = 3 ->
  (forall c, c ∈ cols noise -> length c = 3) ->
  array_wf (zero_root (array_add m noise)).
Proof.
  intros Hwf Hr Hn. unfold array_wf, zero_root, array_add. cbn [nrows cols].
  apply Forall_forall. intros c Hc.
  apply list_elem_of_lookup in Hc as [i Hi].
  destruct (Nat.eq_dec i 0) as [-> | Hne].
  - apply list_lookup_insert_Some in Hi as [(_ & <- & _) | (Hc & _)];
      [apply length_replicate | contradiction].
  - rewrite list_lookup_insert_ne in Hi by lia.
    apply lookup_zip_with_Some in Hi as (u & v & -> & Hu & Hv).
    unfold vadd. rewrite length_zip_with_f.
    rewrite (Hn v) by (eapply list_elem_of_lookup_2; eauto).
    assert (length u = nrows m); [ | lia].
    apply (proj1 (Forall_forall _ _) Hwf). eapply list_elem_of_lookup_2; eauto.
Qed.

Lemma sample_is_skeleton :
  Forall (is_skeleton (world_of [sample_skeleton])) [mkNd 0 3].
Proof.
  constructor; [ | constructor]. exists sample_skeleton. repeat split.
  - apply view_of_wf, skeleton_with_shoulders_wf; reflexivity.
  - cbn. lia.
Qed.

Lemma sample_all_finite :
  all_finite (contents (world_of [sample_skeleton]) (mkNd 0 3)).
Proof. unfold all_finite. cbn. repeat constructor. Qed.

(** * Properties of [augmented_data] *)



(** C7.  On every such collection, [augmented_data] leaves every array
    that was in the store before the call as it was, so every input
    skeleton shows the same contents after the call, and every reference it
    returns is to an array allocated during the call. *)
Theorem augmented_data_input_unchanged
    (first : ndarray) (rest : list ndarray) (w : world) :
  Forall (is_skeleton w) (first :: rest) ->
  all_finite (contents w first) ->
  exists (out : list ndarray) (w' : world),
    augmented_data (first :: rest) w = Ok (out, w') /\
    (forall l, l < length (heap w) -> heap w' !! l = heap w !! l) /\
    Forall (fun a => contents w' a = contents w a) (first :: rest) /\
    Forall (fun r => length (heap w) <= base r) out.
Proof.
  intros Hsk Hfin.
  destruct (augmented_data_run first rest w Hsk Hfin)
    as (news & w' & Hrun & Hh & Hlen & Hvar).
  eexists _, w'. split; [exact Hrun | ]. split; [ | split].
  - intros l Hl. rewrite Hh. apply lookup_app_l. exact Hl.
  - eapply Forall_impl; [exact Hsk | ]. intros a (b & Hb & _).
    apply (contents_grown w w' a b news Hh Hb).
  - apply fresh_refs_base.
Qed.

Lemma augmented_data_input_unchanged_witness :
  let w := world_of [sample_skeleton] in
  exists (out : list ndarray) (w' : world),
    augmented_data [mkNd 0 3] w = Ok (out, w') /\
    (forall l, l < 1 -> heap w' !! l = heap w !! l) /\
    Forall (fun a => contents w' a = contents w a) [mkNd 0 3] /\
    Forall (fun r => 1 <= base r) out.
Proof.
  intros w.
  apply (augmented_data_input_unchanged (mkNd 0 3) [] w).
  - exact sample_is_skeleton.
  - exact sample_all_finite.
Defined.

(** C8.  On every such collection, the noise variant made for the
    skeleton at position [i] (position [2i + 1] of the output) has joint 0
    equal to (0, 0, 0) exactly. *)
Theorem augmented_data_noise_root_zero
    (first : ndarray) (rest : list ndarray) (w : world) :
  Forall (is_skeleton w) (first :: rest) ->
  all_finite (contents w first) ->
  exists (out : list ndarray) (w' : world),
    augmented_data (first :: rest) w = Ok (out, w') /\
    forall i, i < length (first :: rest) ->
      exists n, out !! (2 * i + 1) = Some n /\
                joint w' n 0 = [Fin 0; Fin 0; Fin 0].
Proof.
  intros Hsk Hfin.
  destruct (augmented_data_run first rest w Hsk Hfin)
    as (news & w' & Hrun & Hh & Hlen & Hvar).
  eexists _, w'. split; [exact Hrun | ].
  intros i Hi.
  destruct (lookup_lt_is_Some_2 (first :: rest) i Hi) as [a Ha].
  destruct (Hvar i a Ha) as (d & noise & G1 & G2 & G3 & G4 & G5).
  assert (Hska : is_skeleton w a).
  { apply (proj1 (Forall_forall _ _) Hsk). eapply list_elem_of_lookup_2; eauto. }
  destruct (contents_skeleton w a Hska) as (Hwf & Hr & Hc).
  exists (mkNd (length (heap w) + (2 * i + 1)) 3).
  split; [apply fresh_refs_lookup; lia | ].
  unfold joint.
  rewrite (contents_fresh w w' news _ _ Hh G2).
  - unfold col, zero_root, array_add. cbn [nrows cols].
    rewrite list_lookup_insert_eq.
    + rewrite Hr. reflexivity.
    + rewrite length_zip_with_vadd. lia.
  - apply zero_root_sum_wf; assumption.
  - cbn [zero_root array_add nrows]. lia.
Qed.

Lemma augmented_data_noise_root_zero_witness :
  let w := world_of [sample_skeleton] in
  exists (out : list ndarray) (w' : world),
    augmented_data [mkNd 0 3] w = Ok (out, w') /\
    forall i, i < 1 ->
      exists n, out !! (2 * i + 1) = Some n /\
                joint w' n 0 = [Fin 0; Fin 0; Fin 0].
Proof.
  intros w.
  apply (augmented_data_noise_root_zero (mkNd 0 3) [] w).
  - exact sample_is_skeleton.
  - exact sample_all_finite.
Defined.

(** C10.  On the empty collection, [augmented_data] does not return the
    empty list: reading the first skeleton raises [IndexError], whatever
    the store. *)
Theorem augmented_data_empty_raises (w : world) :
  augmented_data [] w = Raise IndexError /\
  augmented_data [] w <> Ok ([], w).
Proof. split; [reflexivity | discriminate]. Qed.

(** * The dataset builder *)

Lemma bind_inv {A B} (m : M A) (k : A -> M B) (w w' : world) (x : B) :
  bind m k w = Ok (x, w') ->
  exists a w1, m w = Ok (a, w1) /\ k a w1 = Ok (x, w').
Proof.
  unfold bind. destruct (m w) as [[a w1] | e]; [ | discriminate].
  intros H. exists a, w1. split; [reflexivity | exact H].
Qed.

(** C9.  Every dataset that [generate_dataset] produces holds two lists
    under the keys "3d" and "2d"; they have the same length, and element
    [i] of "2d" is [project_skel] of element [i] of "3d". *)
Theorem generate_dataset_parallel_sequences
    (frames : list frame) (w w' : world) (ds : dataset) :
  generate_dataset frames w = Ok (ds, w') ->
  exists d3 d2 : list ndarray,
    dict_get ds "3d" = Some d3 /\
    dict_get ds "2d" = Some d2 /\
    length d3 = length d2 /\
    forall i a, d3 !! i = Some a -> d2 !! i = Some (project_skel a).
Proof.
  unfold generate_dataset. intros H.
  apply bind_inv in H as (sk & w1 & _ & H).
  apply bind_inv in H as (aug & w2 & _ & H).
  unfold ret in H. inversion H; subst ds w'. clear H.
  exists (sk ++ aug), (map project_skel (sk ++ aug)).
  split; [reflexivity | ]. split; [reflexivity | ].
  split; [rewrite length_map; reflexivity | ].
  intros i a Hi. rewrite lookup_map, Hi. reflexivity.
Qed.

(** *** A run of the builder *)

Lemma fin3_anchor (u v : vec) :
  fin3 u -> fin3 v ->
  exists ax ay az : R,
    vdivs (vadd (take 3 u) (take 3 v)) (Fin 2%R) = [Fin ax; Fin ay; Fin az].
Proof.
  intros (x & y & z & ->) (x' & y' & z' & ->).
  cbn [vadd zip_with_f fadd vdivs map]. rewrite !fdiv_fin by lra.
  eexists _, _, _. reflexivity.
Qed.

Lemma fin3_app (x y z : R) (t : vec) : fin3 ([Fin x; Fin y; Fin z] ++ t).
Proof. exists x, y, z. reflexivity. Qed.

Lemma fin3_scale (c : vec) (ax ay az rho : R) :
  fin3 c -> rho <> 0%R ->
  fin3 (upd_col (fun c => Ok (vdivs (vsub c [Fin ax; Fin ay; Fin az]) (Fin rho)))
                3 c).
Proof.
  intros (x & y & z & E) Hrho. unfold upd_col. rewrite E.
  cbn [vsub zip_with_f fsub fneg fadd vdivs map].
  rewrite !fdiv_fin by exact Hrho. apply fin3_app.
Qed.

Lemma fin3_turn (c : vec) (t : R) :
  fin3 c -> fin3 (upd_col (q_rotate (quat_y t)) 3 c).
Proof.
  intros (x & y & z & E). unfold upd_col. rewrite E.
  unfold quat_y. rewrite q_rotate_y_fin. apply fin3_app.
Qed.

Lemma fin3_take (c : vec) : fin3 c -> Forall is_fin (take 3 c).
Proof. intros (x & y & z & ->). repeat constructor. Qed.

Lemma Forall_map_impl {A B} (P : A -> Prop) (Q : B -> Prop) (f : A -> B)
    (l : list A) :
  (forall x, P x -> Q (f x)) -> Forall P l -> Forall Q (map f l).
Proof.
  intros Hf. induction 1; cbn [map]; constructor; auto.
Qed.

Section NormalizedFinite.
Local Open Scope R_scope.
Variable b : array.
Hypothesis Hwf : array_wf b.
Hypothesis Hrows : (3 <= nrows b)%nat.
Hypothesis Hcols : (10 <= length (cols b))%nat.
Variables x3 y3 z3 x9 y9 z9 : R.
Hypothesis H3 : col3 b 3 = [Fin x3; Fin y3; Fin z3].
Hypothesis H9 : col3 b 9 = [Fin x9; Fin y9; Fin z9].
Hypothesis Hne : (x3, y3, z3) <> (x9, y9, z9).
Hypothesis Hfin : Forall fin3 (cols b).

Lemma recentred_fin3 : Forall fin3 (cols (recentred b)).
Proof.
  unfold recentred. cbn [cols]. apply Forall_insert; [exact Hfin | ].
  rewrite (anchor_of_fin b x3 y3 z3 x9 y9 z9 H3 H9). apply fin3_app.
Qed.

Lemma scaled_fin3 : Forall fin3 (cols (scaled b)).
Proof.
  unfold scaled. cbn [cols].
  rewrite (anchor_of_fin b x3 y3 z3 x9 y9 z9 H3 H9).
  rewrite (resize_of_fin b x3 y3 z3 x9 y9 z9 H3 H9).
  pose proof (shoulder_len_pos x3 y3 z3 x9 y9 z9 Hne) as Hpos.
  eapply Forall_map_impl; [ | exact recentred_fin3].
  intros c Hc. apply fin3_scale; [exact Hc | lra].
Qed.

Lemma normalized_all_finite (t : R) :
  all_finite (view_of 3 (turned (quat_y t) (scaled b))).
Proof.
  unfold all_finite, view_of, turned. cbn [cols].
  eapply Forall_map_impl; [ | eapply Forall_map_impl; [ | exact scaled_fin3]].
  - intros c Hc. apply fin3_take. exact Hc.
  - intros c Hc. apply fin3_turn. exact Hc.
Qed.
End NormalizedFinite.

Lemma turned_scaled_wf (q : quat) (b : array) :
  array_wf b -> 3 <= nrows b -> 10 <= length (cols b) ->
  array_wf (turned q (scaled b)).
Proof.
  intros Hwf Hrows Hcols. unfold array_wf, turned. cbn [nrows cols].
  apply Forall_forall. intros c Hc.
  apply list_elem_of_In, in_map_iff in Hc as (c0 & <- & Hc0).
  apply list_elem_of_In, list_elem_of_lookup in Hc0 as [i Hi].
  pose proof (scaled_col_length b Hwf Hrows Hcols i c0 Hi) as Hl.
  unfold upd_col.
  destruct (q_rotate_total q (take 3 c0)) as (v & -> & Hv).
  - rewrite length_take. lia.
  - rewrite length_app, length_drop, Hv. cbn [scaled nrows]. lia.
Qed.

(** The builder runs through on the sample frame and produces a
    dataset. *)
Lemma generate_dataset_sample_run :
  exists (ds : dataset) (w' : world),
    generate_dataset sample_frames (world_of []) = Ok (ds, w').
Proof.
  set (b := skeleton_with_shoulders [Fin 1; Fin 0; Fin 0; Fin 1]
                                    [Fin 0; Fin 0; Fin 0; Fin 1]%R).
  assert (Hwf : array_wf b) by (apply skeleton_with_shoulders_wf; reflexivity).
  assert (Hrows : 3 <= nrows b) by (cbn; lia).
  assert (Hcols : 10 <= length (cols b)) by (cbn; lia).
  assert (H3 : col3 b 3 = [Fin 1; Fin 0; Fin 0]%R) by reflexivity.
  assert (H9 : col3 b 9 = [Fin 0; Fin 0; Fin 0]%R) by reflexivity.
  assert (Hxz : (1 <> 0 \/ 0 <> 0)%R) by (left; lra).
  assert (Hne : ((1, 0, 0) <> (0, 0, 0))%R)
    by (intros E; injection E as E; lra).
  assert (Hfin : Forall fin3 (cols b)).
  { cbn. repeat (constructor; [eexists _, _, _; reflexivity | ]). constructor. }
  set (w1 := world_of [b]).
  pose proof (normalize_skeleton_frontal_run b Hwf Hrows Hcols 1 0 0 0 0 0
                H3 H9 Hxz w1 0 4 eq_refl (Nat.le_succ_diag_r 3))%R as Hnorm.
  match type of Hnorm with
  | context [turned (quat_y ?t0) _] => set (t := t0) in *
  end.
  match type of Hnorm with
  | _ = Ok (_, ?w0) => set (w2 := w0) in *
  end.
  assert (Hsk : Forall (is_skeleton w2) [mkNd 0 3]).
  { constructor; [ | constructor]. exists (turned (quat_y t) (scaled b)).
    split; [reflexivity | ]. split; [apply turned_scaled_wf; assumption | ].
    split; [cbn; lia | ]. cbn [turned cols]. rewrite length_map, scaled_length.
    lia. }
  assert (Hf2 : all_finite (contents w2 (mkNd 0 3))).
  { apply (normalized_all_finite b 1 0 0 0 0 0 H3 H9 Hne Hfin t)%R. }
  destruct (augmented_data_run (mkNd 0 3) [] w2 Hsk Hf2)
    as (news & w3 & Haug & _).
  eexists _, w3. unfold generate_dataset, sample_frames.
  cbn [step2 normalize_frames normalize_bodies bodies joints19].
  rewrite (bind_ok _ _ (world_of []) w2 [mkNd 0 3]).
  - rewrite (bind_ok _ _ _ _ _ Haug). reflexivity.
  - rewrite (bind_ok _ _ (world_of []) w2 [mkNd 0 3]); [reflexivity | ].
    rewrite (bind_ok _ _ (world_of []) w1 (mkNd 0 4)) by reflexivity.
    rewrite (bind_ok _ _ _ _ _ Hnorm). reflexivity.
Qed.

Lemma generate_dataset_parallel_sequences_witness :
  exists (ds : dataset) (w' : world),
    generate_dataset sample_frames (world_of []) = Ok (ds, w') /\
    exists d3 d2 : list ndarray,
      dict_get ds "3d" = Some d3 /\
      dict_get ds "2d" = Some d2 /\
      length d3 = length d2 /\
      forall i a, d3 !! i = Some a -> d2 !! i = Some (project_skel a).
Proof.
  destruct generate_dataset_sample_run as (ds & w' & Hrun).
  exists ds, w'. split; [exact Hrun | ].
  apply (generate_dataset_parallel_sequences sample_frames (world_of []) w' ds).
  exact Hrun.
Defined.

(** * Further properties of [normalize_skeleton] *)

(** A joint array with fewer than ten joints makes the normaliser raise
    [IndexError], at the read of a shoulder column. *)
Theorem normalize_skeleton_too_few_joints
    (w : world) (l s : nat) (b : array) :
  heap w !! l = Some b -> length (cols b) < 10 ->
  normalize_skeleton (mkNd l s) w = Raise IndexError.
Proof.
  intros Hb Hn. unfold normalize_skeleton, slice_rows. cbn [base stop].
  rewrite (bind_ok _ _ w w (length (cols b))).
  2:{ unfold shape1. rewrite (contents_lookup _ _ _ b Hb).
      cbn [view_of cols]. rewrite length_map. reflexivity. }
  destruct (cols b !! 3) as [C3 | ] eqn:HC3.
  - rewrite (bind_ok _ _ w w (take (Nat.min s 3) C3))
      by (eapply get_col_ok; eauto).
    apply bind_raise. apply (get_col_index_error w l _ 9 b Hb). lia.
  - apply bind_raise. apply (get_col_index_error w l _ 3 b Hb).
    apply lookup_ge_None_1. exact HC3.
Qed.

Lemma normalize_skeleton_too_few_joints_witness :
  normalize_skeleton (mkNd 0 4)
    (world_of [mkArray 4 (replicate 9 [Fin 0; Fin 0; Fin 0; Fin 1]%R)])
  = Raise IndexError.
Proof.
  apply (normalize_skeleton_too_few_joints _ 0 4
           (mkArray 4 (replicate 9 [Fin 0; Fin 0; Fin 0; Fin 1]%R))).
  - reflexivity.
  - cbn. lia.
Defined.

Lemma drop3_upd_col (g : vec -> result vec) (c : vec) :
  (forall v, g (take 3 c) = Ok v -> length v = 3) ->
  drop 3 (upd_col g 3 c) = drop 3 c.
Proof.
  intros Hg. unfold upd_col. destruct (g (take 3 c)) as [v | e] eqn:E.
  - apply drop_app_3. apply Hg. reflexivity.
  - reflexivity.
Qed.

Lemma q_rotate_length (q : quat) (c v : vec) :
  q_rotate q c = Ok v -> length v = 3.
Proof.
  unfold q_rotate.
  destruct c as [ | a0 [ | a1 [ | a2 [ | a3 t]]]]; try discriminate.
  intros E. inversion E. reflexivity.
Qed.

Lemma col_map_upd (g : vec -> result vec) (cs : list vec) (r i : nat) :
  col (mkArray r (map (upd_col g 3) cs)) i =
  match cs !! i with Some c => upd_col g 3 c | None => [] end.
Proof.
  unfold col. cbn [cols]. rewrite lookup_map.
  destruct (cs !! i); reflexivity.
Qed.

(** The rows below the third one come through the two loops as they
    were. *)
Lemma turned_scaled_tail (q : quat) (b : array) (i : nat) :
  array_wf b -> 3 <= nrows b -> 10 <= length (cols b) ->
  drop 3 (col (turned q (scaled b)) i) = drop 3 (col b i).
Proof.
  intros Hwf Hrows Hcols.
  pose proof (anchor_length b Hwf Hrows Hcols) as Ha.
  unfold turned, scaled. cbn [nrows cols]. rewrite col_map_upd, lookup_map.
  unfold recentred. cbn [cols].
  destruct (lt_dec i (length (cols b))) as [Hi | Hi].
  - destruct (lookup_lt_is_Some_2 (cols b) i Hi) as [c Hc].
    assert (Hrc : exists c', <[0 := anchor_of b ++ drop 3 (col b 0)]> (cols b) !! i
                             = Some c' /\ drop 3 c' = drop 3 c /\ 3 <= length c').
    { destruct (Nat.eq_dec i 0) as [-> | Hne].
      - eexists. split; [apply list_lookup_insert_eq; lia | ].
        rewrite (col_lookup b 0 c Hc). split.
        + apply drop_app_3, Ha.
        + rewrite length_app, Ha. lia.
      - exists c. split; [rewrite list_lookup_insert_ne by lia; exact Hc | ].
        split; [reflexivity | ]. rewrite (wf_col_length b Hwf i c Hc). lia. }
    destruct Hrc as (c' & -> & Hd & Hl). cbn [fmap option_fmap option_map].
    rewrite (col_lookup b i c Hc), <- Hd.
    rewrite drop3_upd_col by (intros v; apply q_rotate_length).
    apply drop3_upd_col. intros v E. inversion E.
    unfold vsub. rewrite length_vdivs, length_zip_with_f, length_take, Ha. lia.
  - assert (Hnone : <[0 := anchor_of b ++ drop 3 (col b 0)]> (cols b) !! i = None).
    { apply lookup_ge_None_2. rewrite length_insert. lia. }
    rewrite Hnone. cbn. unfold col.
    rewrite (lookup_ge_None_2 (cols b) i) by lia. reflexivity.
Qed.

(** [normalize_skeleton] works in place.  Whenever it returns, the result
    is a view of three rows on the array it was given; that array keeps its
    shape and all its rows from the fourth on (the confidence row), every
    other array of the store is as before, and neither generator has been
    used. *)
Theorem normalize_skeleton_in_place
    (w w' : world) (l s : nat) (b : array) (r : ndarray) :
  heap w !! l = Some b -> array_wf b ->
  3 <= nrows b -> 3 <= s -> 10 <= length (cols b) ->
  normalize_skeleton (mkNd l s) w = Ok (r, w') ->
  r = mkNd l 3 /\
  length (heap w') = length (heap w) /\
  (forall l', l' <> l -> heap w' !! l' = heap w !! l') /\
  py_random w' = py_random w /\ np_random w' = np_random w /\
  exists b',
    heap w' !! l = Some b' /\
    nrows b' = nrows b /\
    length (cols b') = length (cols b) /\
    forall i, drop 3 (col b' i) = drop 3 (col b i).
Proof.
  intros Hb Hwf Hrows Hstop Hcols Hrun.
  rewrite (normalize_skeleton_run w l s b Hb Hwf Hrows Hstop Hcols) in Hrun.
  destruct (shoulders_finite b); [ | discriminate].
  destruct (angle_between _ _) as [angle | e]; [ | discriminate].
  destruct (Quaternion_axis_angle _ angle) as [q | e]; [ | discriminate].
  inversion Hrun; subst r w'. clear Hrun.
  apply lookup_lt_Some in Hb as Hl.
  split; [reflexivity | ]. split; [cbn [heap set_heap]; apply length_insert | ].
  split; [intros l' Hne; cbn [heap set_heap];
          apply list_lookup_insert_ne; auto | ].
  split; [reflexivity | ]. split; [reflexivity | ].
  exists (turned q (scaled b)).
  split; [cbn [heap set_heap]; apply list_lookup_insert_eq, Hl | ].
  split; [reflexivity | ].
  split; [cbn [turned cols]; rewrite length_map; apply scaled_length | ].
  intros i. apply turned_scaled_tail; assumption.
Qed.

Lemma normalize_skeleton_in_place_witness :
  let b := skeleton_with_shoulders [Fin 1; Fin 0; Fin 0; Fin 1]
                                   [Fin 0; Fin 0; Fin 0; Fin 1]%R in
  exists r w',
    normalize_skeleton (mkNd 0 4) (world_of [b]) = Ok (r, w') /\
    r = mkNd 0 3 /\
    length (heap w') = 1 /\
    (forall l', l' <> 0 -> heap w' !! l' = heap (world_of [b]) !! l') /\
    py_random w' = py_random (world_of [b]) /\
    np_random w' = np_random (world_of [b]) /\
    exists b',
      heap w' !! 0 = Some b' /\
      nrows b' = 4 /\
      length (cols b') = 19 /\
      forall i, drop 3 (col b' i) = drop 3 (col b i).
Proof.
  intros b.
  assert (Hwf : array_wf b) by (apply skeleton_with_shoulders_wf; reflexivity).
  assert (Hrows : 3 <= nrows b) by (cbn; lia).
  assert (Hcols : 10 <= length (cols b)) by (cbn; lia).
  assert (Hxz : (1 <> 0 \/ 0 <> 0)%R) by (left; lra).
  eexists _, _. split.
  - apply (normalize_skeleton_frontal_run b Hwf Hrows Hcols 1 0 0 0 0 0
             eq_refl eq_refl Hxz (world_of [b]) 0 4 eq_refl
             (Nat.le_succ_diag_r 3))%R.
  - apply (normalize_skeleton_in_place (world_of [b]) _ 0 4 b _
             eq_refl Hwf Hrows (Nat.le_succ_diag_r 3) Hcols).
    apply (normalize_skeleton_frontal_run b Hwf Hrows Hcols 1 0 0 0 0 0
             eq_refl eq_refl Hxz (world_of [b]) 0 4 eq_refl
             (Nat.le_succ_diag_r 3))%R.
Defined.

(** ** The similarity the normaliser applies *)

Section JointFormula.
Local Open Scope R_scope.
Variable b : array.
Hypothesis Hwf : array_wf b.
Hypothesis Hrows : (3 <= nrows b)%nat.
Hypothesis Hcols : (10 <= length (cols b))%nat.
Variables x3 y3 z3 x9 y9 z9 : R.
Hypothesis H3 : col3 b 3 = [Fin x3; Fin y3; Fin z3].
Hypothesis H9 : col3 b 9 = [Fin x9; Fin y9; Fin z9].
Hypothesis Hxz : x3 <> x9 \/ z3 <> z9.

Local Abbreviation rho := (shoulder_len x3 y3 z3 x9 y9 z9).
Local Abbreviation theta :=
  (frontal_angle ((x3 - x9) / rho) ((z3 - z9) / rho)).
Local Abbreviation final := (turned (quat_y theta) (scaled b)).

(** A finite joint other than the neck: moved by the shoulder midpoint,
    divided by the shoulder distance, turned by the frontal angle. *)
Lemma final_joint (i : nat) (x y z : R) :
  (0 < i < length (cols b))%nat ->
  col3 b i = [Fin x; Fin y; Fin z] ->
  col3 final i =
  rot_y theta ((x - (x3 + x9) / 2) / rho) ((y - (y3 + y9) / 2) / rho)
              ((z - (z3 + z9) / 2) / rho).
Proof.
  intros Hi Hc.
  pose proof (rho_pos x3 y3 z3 x9 y9 z9 Hxz) as Hp.
  apply turned_col3.
  - rewrite scaled_length. lia.
  - rewrite (scaled_col3 b Hwf Hrows Hcols i Hi).
    rewrite Hc, (anchor_of_fin b x3 y3 z3 x9 y9 z9 H3 H9).
    rewrite (resize_of_fin b x3 y3 z3 x9 y9 z9 H3 H9).
    cbn [vsub zip_with_f fsub fneg fadd vdivs map].
    rewrite !fdiv_fin by lra.
    unfold quat_y. rewrite q_rotate_y_fin. unfold rot_y.
    vec3_eq; field; lra.
Qed.
End JointFormula.

Lemma euclidean_rot_y (t x y z x' y' z' : R) :
  euclidean (rot_y t x y z) (rot_y t x' y' z') =
  Fin (shoulder_len x y z x' y' z').
Proof.
  unfold euclidean, np_norm, rot_y.
  cbn [vsub zip_with_f fsub fneg fadd fmul fsum fold_left].
  pose proof (sin2_cos2 t) as Hsc. unfold Rsqr in Hsc.
  match goal with
  | |- fsqrt (Fin ?e) = _ =>
      replace e with (((x - x') * (x - x') + (z - z') * (z - z'))
                      * (sin t * sin t + cos t * cos t)
                      + (y - y') * (y - y'))%R by ring
  end.
  rewrite Hsc.
  replace (((x - x') * (x - x') + (z - z') * (z - z')) * 1
           + (y - y') * (y - y'))%R with (shoulder_sq x y z x' y' z')
    by (unfold shoulder_sq; ring).
  apply fsqrt_fin, shoulder_sq_nonneg.
Qed.

Lemma shoulder_len_scaled (k ax ay az x y z x' y' z' : R) :
  (0 < k)%R ->
  shoulder_len ((x - ax) / k) ((y - ay) / k) ((z - az) / k)
               ((x' - ax) / k) ((y' - ay) / k) ((z' - az) / k)
  = (shoulder_len x y z x' y' z' / k)%R.
Proof.
  intros Hk. unfold shoulder_len.
  pose proof (shoulder_sq_nonneg x y z x' y' z') as Hn.
  replace (shoulder_sq ((x - ax) / k) ((y - ay) / k) ((z - az) / k)
             ((x' - ax) / k) ((y' - ay) / k) ((z' - az) / k))
    with ((sqrt (shoulder_sq x y z x' y' z') / k)
          * (sqrt (shoulder_sq x y z x' y' z') / k))%R.
  - apply sqrt_square. apply Rmult_le_pos; [apply sqrt_pos | ].
    left. apply Rinv_0_lt_compat, Hk.
  - transitivity ((sqrt (shoulder_sq x y z x' y' z')
                   * sqrt (shoulder_sq x y z x' y' z')) / (k * k))%R.
    + field. lra.
    + rewrite sqrt_sqrt by exact Hn. unfold shoulder_sq. field. lra.
Qed.

(** The normaliser is a similarity on the finite joints: the distance
    between any two joints other than the neck comes out divided by the
    distance between the shoulders. *)
Theorem normalize_skeleton_scales_distances
    (w : world) (l s : nat) (b : array) (x3 y3 z3 x9 y9 z9 : R)
    (i j : nat) (xi yi zi xj yj zj : R) :
  heap w !! l = Some b -> array_wf b ->
  3 <= nrows b -> 3 <= s -> 10 <= length (cols b) ->
  col3 b 3 = [Fin x3; Fin y3; Fin z3] ->
  col3 b 9 = [Fin x9; Fin y9; Fin z9] ->
  x3 <> x9 \/ z3 <> z9 ->
  0 < i < length (cols b) -> 0 < j < length (cols b) ->
  col3 b i = [Fin xi; Fin yi; Fin zi] ->
  col3 b j = [Fin xj; Fin yj; Fin zj] ->
  exists w',
    normalize_skeleton (mkNd l s) w = Ok (mkNd l 3, w') /\
    euclidean (joint w' (mkNd l 3) i) (joint w' (mkNd l 3) j) =
    Fin (shoulder_len xi yi zi xj yj zj / shoulder_len x3 y3 z3 x9 y9 z9).
Proof.
  intros Hb Hwf Hrows Hstop Hcols H3 H9 Hxz Hi Hj Hci Hcj.
  apply lookup_lt_Some in Hb as Hl.
  pose proof (rho_pos x3 y3 z3 x9 y9 z9 Hxz) as Hp.
  eexists. split.
  - eapply normalize_skeleton_frontal_run; eassumption.
  - rewrite !joint_after_write by exact Hl.
    rewrite (final_joint b Hwf Hrows Hcols x3 y3 z3 x9 y9 z9 H3 H9 Hxz
               i xi yi zi Hi Hci).
    rewrite (final_joint b Hwf Hrows Hcols x3 y3 z3 x9 y9 z9 H3 H9 Hxz
               j xj yj zj Hj Hcj).
    rewrite euclidean_rot_y, shoulder_len_scaled by exact Hp. reflexivity.
Qed.

Lemma normalize_skeleton_scales_distances_witness :
  let b := skeleton_with_shoulders [Fin 2; Fin 0; Fin 0; Fin 1]
                                   [Fin 0; Fin 0; Fin 0; Fin 1]%R in
  exists w',
    normalize_skeleton (mkNd 0 4) (world_of [b]) = Ok (mkNd 0 3, w') /\
    euclidean (joint w' (mkNd 0 3) 3) (joint w' (mkNd 0 3) 5) =
    Fin (shoulder_len 2 0 0 0 0 0 / shoulder_len 2 0 0 0 0 0).
Proof.
  intros b.
  apply (normalize_skeleton_scales_distances (world_of [b]) 0 4 b
           2 0 0 0 0 0 3 5 2 0 0 0 0 0)%R.
  - reflexivity.
  - apply skeleton_with_shoulders_wf; reflexivity.
  - cbn; lia.
  - lia.
  - cbn; lia.
  - reflexivity.
  - reflexivity.
  - left. lra.
  - cbn; lia.
  - cbn; lia.
  - reflexivity.
  - reflexivity.
Defined.

(** ** What the result does not depend on *)

Lemma store_at_lookup (w : world) (l : nat) (b0 b : array) :
  heap w !! l = Some b0 -> heap (store_at w l b) !! l = Some b.
Proof.
  intros H. unfold store_at. rewrite heap_set_heap.
  apply list_lookup_insert_eq. eapply lookup_lt_Some; eauto.
Qed.

Lemma store_at_store_at (w : world) (l : nat) (b b' : array) :
  store_at (store_at w l b) l b' = store_at w l b'.
Proof.
  unfold store_at. rewrite set_heap_set_heap, heap_set_heap.
  rewrite list_insert_insert_eq. reflexivity.
Qed.

(** Two stored arrays with the same scaled form are normalised to the
    same outcome. *)
Lemma normalize_skeleton_same_scaled (w : world) (l s : nat) (b0 b b' : array) :
  heap w !! l = Some b0 ->
  array_wf b -> 3 <= nrows b -> 10 <= length (cols b) ->
  array_wf b' -> 3 <= nrows b' -> 10 <= length (cols b') ->
  3 <= s ->
  shoulders_finite b' = shoulders_finite b ->
  scaled b' = scaled b ->
  normalize_skeleton (mkNd l s) (store_at w l b') =
  normalize_skeleton (mkNd l s) (store_at w l b).
Proof.
  intros H0 Hwf Hr Hc Hwf' Hr' Hc' Hs Ef E.
  rewrite (normalize_skeleton_run (store_at w l b') l s b'
             (store_at_lookup w l b0 b' H0) Hwf' Hr' Hs Hc').
  rewrite (normalize_skeleton_run (store_at w l b) l s b
             (store_at_lookup w l b0 b H0) Hwf Hr Hs Hc).
  rewrite Ef, E. fold (store_at (store_at w l b') l).
  destruct (shoulders_finite b); [ | reflexivity].
  destruct (angle_between _ _) as [angle | e]; [ | reflexivity].
  destruct (Quaternion_axis_angle _ angle) as [q | e]; [ | reflexivity].
  fold (store_at (store_at w l b') l (turned q (scaled b))).
  fold (store_at (store_at w l b) l (turned q (scaled b))).
  rewrite !store_at_store_at. reflexivity.
Qed.

Lemma with_neck_wf (v : vec) (b : array) :
  array_wf b -> 3 <= nrows b -> 1 <= length (cols b) -> length v = 3 ->
  array_wf (with_neck v b).
Proof.
  intros Hwf Hr Hc Hv. unfold array_wf, with_neck. cbn [nrows cols].
  apply Forall_insert; [exact Hwf | ].
  destruct (lookup_lt_is_Some_2 (cols b) 0) as [c0 Hc0]; [lia | ].
  rewrite (col_lookup b 0 c0 Hc0), length_app, length_drop, Hv.
  rewrite (wf_col_length b Hwf 0 c0 Hc0). lia.
Qed.

Lemma with_neck_col (v : vec) (b : array) (i : nat) :
  i <> 0 -> col (with_neck v b) i = col b i.
Proof.
  intros Hi. unfold col, with_neck. cbn [cols].
  rewrite list_lookup_insert_ne by lia. reflexivity.
Qed.

Lemma scaled_with_neck (v : vec) (b : array) :
  1 <= length (cols b) -> length v = 3 ->
  scaled (with_neck v b) = scaled b.
Proof.
  intros Hc Hv.
  assert (Ha : anchor_of (with_neck v b) = anchor_of b).
  { unfold anchor_of, col3. rewrite !with_neck_col by lia. reflexivity. }
  assert (Hr : resize_of (with_neck v b) = resize_of b).
  { unfold resize_of, col3. rewrite !with_neck_col by lia. reflexivity. }
  assert (Hrec : recentred (with_neck v b) = recentred b).
  { unfold recentred. rewrite Ha. cbn [with_neck nrows cols]. f_equal.
    rewrite list_insert_insert_eq. f_equal. f_equal.
    unfold col at 1. cbn [with_neck cols].
    rewrite list_lookup_insert_eq by lia. apply drop_app_3, Hv. }
  unfold scaled. rewrite Ha, Hr, Hrec. reflexivity.
Qed.

(** The neck of the input is never read: whatever three numbers (finite
    or not) joint 0 holds, the outcome of the normaliser is the same. *)
Theorem normalize_skeleton_ignores_neck
    (w : world) (l s : nat) (b : array) (v : vec) :
  heap w !! l = Some b -> array_wf b ->
  3 <= nrows b -> 3 <= s -> 10 <= length (cols b) ->
  length v = 3 ->
  normalize_skeleton (mkNd l s) (store_at w l (with_neck v b)) =
  normalize_skeleton (mkNd l s) w.
Proof.
  intros Hb Hwf Hrows Hstop Hcols Hv.
  rewrite (normalize_skeleton_same_scaled w l s b b (with_neck v b) Hb);
    try assumption.
  - unfold store_at. rewrite list_insert_id by exact Hb.
    rewrite set_heap_id. reflexivity.
  - apply with_neck_wf; try assumption. lia.
  - cbn [with_neck cols]. rewrite length_insert. exact Hcols.
  - unfold shoulders_finite, col3. rewrite !with_neck_col by lia. reflexivity.
  - apply scaled_with_neck; [lia | exact Hv].
Qed.

Lemma normalize_skeleton_ignores_neck_witness :
  let b := skeleton_with_shoulders [Fin 1; Fin 0; Fin 0; Fin 1]
                                   [Fin 0; Fin 0; Fin 0; Fin 1]%R in
  normalize_skeleton (mkNd 0 4)
    (store_at (world_of [b]) 0 (with_neck [NaN; PInf; Fin 7%R] b)) =
  normalize_skeleton (mkNd 0 4) (world_of [b]).
Proof.
  intros b.
  apply (normalize_skeleton_ignores_neck (world_of [b]) 0 4 b).
  - reflexivity.
  - apply skeleton_with_shoulders_wf; reflexivity.
  - cbn; lia.
  - lia.
  - cbn; lia.
  - reflexivity.
Defined.

(** ** Moving the whole body *)

Lemma shift_col_fin (tx ty tz x y z : R) (c : vec) :
  take 3 c = [Fin x; Fin y; Fin z] ->
  shift_col [Fin tx; Fin ty; Fin tz] c =
  [Fin (x + tx); Fin (y + ty); Fin (z + tz)]%R ++ drop 3 c.
Proof. intros E. unfold shift_col. rewrite E. reflexivity. Qed.

Lemma translated_col (tx ty tz : R) (b : array) (i : nat) (c : vec) :
  cols b !! i = Some c ->
  col (translated tx ty tz b) i = shift_col [Fin tx; Fin ty; Fin tz] c.
Proof.
  intros Hc. apply col_lookup. unfold translated. cbn [cols].
  rewrite lookup_map, Hc. reflexivity.
Qed.

Lemma col3_translated (tx ty tz x y z : R) (b : array) (i : nat) :
  col3 b i = [Fin x; Fin y; Fin z] ->
  col3 (translated tx ty tz b) i =
  [Fin (x + tx); Fin (y + ty); Fin (z + tz)]%R.
Proof.
  unfold col3 at 1. unfold col at 1.
  destruct (cols b !! i) as [c | ] eqn:Hc; [ | discriminate].
  intros E. unfold col3. rewrite (translated_col tx ty tz b i c Hc).
  rewrite (shift_col_fin tx ty tz x y z c E). reflexivity.
Qed.

Lemma translated_wf (tx ty tz : R) (b : array) :
  array_wf b -> 3 <= nrows b -> array_wf (translated tx ty tz b).
Proof.
  intros Hwf Hr. unfold array_wf, translated. cbn [nrows cols].
  eapply Forall_map_impl; [ | exact Hwf].
  intros c Hc. cbn beta in *. unfold shift_col, vadd.
  rewrite length_app, length_zip_with_f, length_take, length_drop.
  cbn [length]. lia.
Qed.

Lemma shoulder_len_shift (tx ty tz x y z x' y' z' : R) :
  shoulder_len (x + tx) (y + ty) (z + tz) (x' + tx) (y' + ty) (z' + tz) =
  shoulder_len x y z x' y' z'.
Proof. unfold shoulder_len, shoulder_sq. f_equal. ring. Qed.

Section Translated.
Local Open Scope R_scope.
Variable b : array.
Hypothesis Hwf : array_wf b.
Hypothesis Hrows : (3 <= nrows b)%nat.
Hypothesis Hcols : (10 <= length (cols b))%nat.
Hypothesis Hfin : Forall fin3 (cols b).
Variables tx ty tz : R.

Local Abbreviation b' := (translated tx ty tz b).
Local Abbreviation t := [Fin tx; Fin ty; Fin tz].

Lemma fin3_col3 (i : nat) :
  (i < length (cols b))%nat ->
  exists x y z, col3 b i = [Fin x; Fin y; Fin z].
Proof.
  intros Hi. destruct (lookup_lt_is_Some_2 (cols b) i Hi) as [c Hc].
  assert (H : fin3 c).
  { apply (proj1 (Forall_forall _ _) Hfin).
    eapply list_elem_of_lookup_2; eauto. }
  destruct H as (x & y & z & E). exists x, y, z.
  unfold col3. rewrite (col_lookup b i c Hc). exact E.
Qed.

Lemma anchor_translated :
  exists ax ay az,
    anchor_of b = [Fin ax; Fin ay; Fin az] /\
    anchor_of b' = [Fin (ax + tx); Fin (ay + ty); Fin (az + tz)].
Proof.
  destruct (fin3_col3 3) as (x3 & y3 & z3 & H3); [lia | ].
  destruct (fin3_col3 9) as (x9 & y9 & z9 & H9); [lia | ].
  exists ((x3 + x9) / 2), ((y3 + y9) / 2), ((z3 + z9) / 2).
  split; [apply (anchor_of_fin b x3 y3 z3 x9 y9 z9 H3 H9) | ].
  rewrite (anchor_of_fin b' _ _ _ _ _ _
             (col3_translated tx ty tz x3 y3 z3 b 3 H3)
             (col3_translated tx ty tz x9 y9 z9 b 9 H9)).
  f_equal; [ | f_equal; [ | f_equal]]; f_equal; field.
Qed.

Lemma resize_translated : resize_of b' = resize_of b.
Proof.
  destruct (fin3_col3 3) as (x3 & y3 & z3 & H3); [lia | ].
  destruct (fin3_col3 9) as (x9 & y9 & z9 & H9); [lia | ].
  rewrite (resize_of_fin b x3 y3 z3 x9 y9 z9 H3 H9).
  rewrite (resize_of_fin b' _ _ _ _ _ _
             (col3_translated tx ty tz x3 y3 z3 b 3 H3)
             (col3_translated tx ty tz x9 y9 z9 b 9 H9)).
  rewrite shoulder_len_shift. reflexivity.
Qed.

Lemma scale_step_translated (ax ay az : R) (rf : fnum) (c : vec) :
  fin3 c ->
  upd_col (fun c => Ok (vdivs (vsub c [Fin (ax + tx); Fin (ay + ty);
                                        Fin (az + tz)]) rf)) 3
          (shift_col t c) =
  upd_col (fun c => Ok (vdivs (vsub c [Fin ax; Fin ay; Fin az]) rf)) 3 c.
Proof.
  intros (x & y & z & E). rewrite (shift_col_fin tx ty tz x y z c E).
  unfold upd_col. rewrite E. cbn [app take drop].
  cbn [vsub zip_with_f fsub fneg fadd].
  replace (x + tx + - (ax + tx)) with (x + - ax) by ring.
  replace (y + ty + - (ay + ty)) with (y + - ay) by ring.
  replace (z + tz + - (az + tz)) with (z + - az) by ring.
  reflexivity.
Qed.

Lemma scaled_translated : scaled b' = scaled b.
Proof.
  destruct anchor_translated as (ax & ay & az & Ha & Ha').
  destruct (lookup_lt_is_Some_2 (cols b) 0) as [c0 Hc0]; [lia | ].
  assert (Hf0 : fin3 c0).
  { apply (proj1 (Forall_forall _ _) Hfin).
    eapply list_elem_of_lookup_2; eauto. }
  unfold scaled. rewrite resize_translated, Ha, Ha'.
  cbn [translated nrows]. f_equal.
  unfold recentred. rewrite Ha, Ha'. cbn [translated cols nrows].
  rewrite (translated_col tx ty tz b 0 c0 Hc0), (col_lookup b 0 c0 Hc0).
  change (map ?f ?l) with (f <$> l).
  rewrite !list_fmap_insert. f_equal.
  - destruct Hf0 as (x & y & z & E).
    rewrite (shift_col_fin tx ty tz x y z c0 E).
    unfold upd_col. cbn [app take drop].
    cbn [vsub zip_with_f fsub fneg fadd].
    replace (ax + tx + - (ax + tx)) with (ax + - ax) by ring.
    replace (ay + ty + - (ay + ty)) with (ay + - ay) by ring.
    replace (az + tz + - (az + tz)) with (az + - az) by ring.
    reflexivity.
  - rewrite <- list_fmap_compose.
    apply Forall_fmap_ext_1. eapply Forall_impl; [exact Hfin | ].
    intros c Hc. cbn. apply scale_step_translated. exact Hc.
Qed.
End Translated.

(** The normaliser only sees positions relative to the shoulders: moving
    every joint of a finite body by the same vector changes nothing in the
    outcome, be it a skeleton or an exception. *)
Theorem normalize_skeleton_translation_invariant
    (w : world) (l s : nat) (b : array) (tx ty tz : R) :
  heap w !! l = Some b -> array_wf b ->
  3 <= nrows b -> 3 <= s -> 10 <= length (cols b) ->
  Forall fin3 (cols b) ->
  normalize_skeleton (mkNd l s) (store_at w l (translated tx ty tz b)) =
  normalize_skeleton (mkNd l s) w.
Proof.
  intros Hb Hwf Hrows Hstop Hcols Hfin.
  rewrite (normalize_skeleton_same_scaled w l s b b (translated tx ty tz b) Hb);
    try assumption.
  - unfold store_at. rewrite list_insert_id by exact Hb.
    rewrite set_heap_id. reflexivity.
  - apply translated_wf; assumption.
  - cbn [translated cols]. rewrite length_map. exact Hcols.
  - destruct (fin3_col3 b Hfin 3) as (x3 & y3 & z3 & H3); [lia | ].
    destruct (fin3_col3 b Hfin 9) as (x9 & y9 & z9 & H9); [lia | ].
    rewrite (shoulders_finite_fin b _ _ _ _ _ _ H3 H9).
    apply (shoulders_finite_fin _ _ _ _ _ _ _
             (col3_translated tx ty tz x3 y3 z3 b 3 H3)
             (col3_translated tx ty tz x9 y9 z9 b 9 H9)).
  - apply scaled_translated; assumption.
Qed.

Lemma normalize_skeleton_translation_invariant_witness :
  let b := skeleton_with_shoulders [Fin 1; Fin 0; Fin 0; Fin 1]
                                   [Fin 0; Fin 0; Fin 0; Fin 1]%R in
  normalize_skeleton (mkNd 0 4)
    (store_at (world_of [b]) 0 (translated 5 (-2) 3 b)) =
  normalize_skeleton (mkNd 0 4) (world_of [b]).
Proof.
  intros b.
  apply (normalize_skeleton_translation_invariant (world_of [b]) 0 4 b).
  - reflexivity.
  - apply skeleton_with_shoulders_wf; reflexivity.
  - cbn; lia.
  - lia.
  - cbn; lia.
  - cbn. repeat (constructor; [eexists _, _, _; reflexivity | ]). constructor.
Defined.

(** ** Resizing the whole body *)

Lemma stretch_col_fin (k x y z : R) (c : vec) :
  take 3 c = [Fin x; Fin y; Fin z] ->
  stretch_col k c = [Fin (x * k); Fin (y * k); Fin (z * k)]%R ++ drop 3 c.
Proof. intros E. unfold stretch_col. rewrite E. reflexivity. Qed.

Lemma stretched_col (k : R) (b : array) (i : nat) (c : vec) :
  cols b !! i = Some c ->
  col (stretched k b) i = stretch_col k c.
Proof.
  intros Hc. apply col_lookup. unfold stretched. cbn [cols].
  rewrite lookup_map, Hc. reflexivity.
Qed.

Lemma col3_stretched (k x y z : R) (b : array) (i : nat) :
  col3 b i = [Fin x; Fin y; Fin z] ->
  col3 (stretched k b) i = [Fin (x * k); Fin (y * k); Fin (z * k)]%R.
Proof.
  unfold col3 at 1. unfold col at 1.
  destruct (cols b !! i) as [c | ] eqn:Hc; [ | discriminate].
  intros E. unfold col3. rewrite (stretched_col k b i c Hc).
  rewrite (stretch_col_fin k x y z c E). reflexivity.
Qed.

Lemma stretched_wf (k : R) (b : array) :
  array_wf b -> 3 <= nrows b -> array_wf (stretched k b).
Proof.
  intros Hwf Hr. unfold array_wf, stretched. cbn [nrows cols].
  eapply Forall_map_impl; [ | exact Hwf].
  intros c Hc. cbn beta in *. unfold stretch_col, vmuls.
  rewrite length_app, length_map, length_take, length_drop. lia.
Qed.

Lemma shoulder_len_stretch (k x y z x' y' z' : R) :
  (0 < k)%R ->
  shoulder_len (x * k) (y * k) (z * k) (x' * k) (y' * k) (z' * k) =
  (shoulder_len x y z x' y' z' * k)%R.
Proof.
  intros Hk. unfold shoulder_len, shoulder_sq.
  replace ((x * k - x' * k) * (x * k - x' * k) +
           (y * k - y' * k) * (y * k - y' * k) +
           (z * k - z' * k) * (z * k - z' * k))%R
    with (((x - x') * (x - x') + (y - y') * (y - y') + (z - z') * (z - z'))
          * (k * k))%R by ring.
  rewrite sqrt_mult_alt.
  - rewrite sqrt_square by lra. reflexivity.
  - pose proof (sq_nonneg (x - x')). pose proof (sq_nonneg (y - y')).
    pose proof (sq_nonneg (z - z')). lra.
Qed.

(** Dividing by a resize factor that has grown by the same positive factor:
    also when the factor is zero and the quotient an infinity or NaN. *)
Lemma fdiv_stretch (k u r : R) :
  (0 < k)%R -> fdiv (Fin (u * k)) (Fin (r * k)) = fdiv (Fin u) (Fin r).
Proof.
  intros Hk. unfold fdiv.
  destruct (Req_dec_T r 0) as [Er | Er];
    destruct (Req_dec_T (r * k) 0) as [Erk | Erk].
  - unfold inf_signed.
    destruct (Req_dec_T u 0) as [Eu | Eu];
      destruct (Req_dec_T (u * k) 0) as [Euk | Euk].
    + reflexivity.
    + exfalso. apply Euk. rewrite Eu. ring.
    + exfalso. apply Rmult_integral in Euk. destruct Euk; [tauto | lra].
    + destruct (Rlt_dec 0 u) as [Hu | Hu];
        destruct (Rlt_dec 0 (u * k)) as [Huk | Huk]; try reflexivity.
      * exfalso. apply Huk. apply Rmult_lt_0_compat; assumption.
      * exfalso. apply Hu.
        destruct (Rle_or_lt u 0) as [Hle | Hlt]; [ | exact Hlt].
        assert (u * k <= 0 * k)%R by (apply Rmult_le_compat_r; lra). lra.
  - exfalso. apply Erk. rewrite Er. ring.
  - exfalso. apply Rmult_integral in Erk. destruct Erk; [tauto | lra].
  - f_equal. field. split; [exact Er | lra].
Qed.

Section Stretched.
Local Open Scope R_scope.
Variable b : array.
Hypothesis Hwf : array_wf b.
Hypothesis Hrows : (3 <= nrows b)%nat.
Hypothesis Hcols : (10 <= length (cols b))%nat.
Hypothesis Hfin : Forall fin3 (cols b).
Variable k : R.
Hypothesis Hk : 0 < k.

Local Abbreviation bk := (stretched k b).

Lemma anchor_stretched :
  exists ax ay az,
    anchor_of b = [Fin ax; Fin ay; Fin az] /\
    anchor_of bk = [Fin (ax * k); Fin (ay * k); Fin (az * k)].
Proof.
  destruct (fin3_col3 b Hfin 3) as (x3 & y3 & z3 & H3); [lia | ].
  destruct (fin3_col3 b Hfin 9) as (x9 & y9 & z9 & H9); [lia | ].
  exists ((x3 + x9) / 2), ((y3 + y9) / 2), ((z3 + z9) / 2).
  split; [apply (anchor_of_fin b x3 y3 z3 x9 y9 z9 H3 H9) | ].
  rewrite (anchor_of_fin bk _ _ _ _ _ _
             (col3_stretched k x3 y3 z3 b 3 H3)
             (col3_stretched k x9 y9 z9 b 9 H9)).
  f_equal; [ | f_equal; [ | f_equal]]; f_equal; field.
Qed.

Lemma resize_stretched :
  exists r, resize_of b = Fin r /\ resize_of bk = Fin (r * k).
Proof.
  destruct (fin3_col3 b Hfin 3) as (x3 & y3 & z3 & H3); [lia | ].
  destruct (fin3_col3 b Hfin 9) as (x9 & y9 & z9 & H9); [lia | ].
  exists (shoulder_len x3 y3 z3 x9 y9 z9).
  split; [apply (resize_of_fin b x3 y3 z3 x9 y9 z9 H3 H9) | ].
  rewrite (resize_of_fin bk _ _ _ _ _ _
             (col3_stretched k x3 y3 z3 b 3 H3)
             (col3_stretched k x9 y9 z9 b 9 H9)).
  rewrite shoulder_len_stretch by exact Hk. reflexivity.
Qed.

Lemma scale_step_stretched (ax ay az r : R) (c : vec) :
  fin3 c ->
  upd_col (fun c => Ok (vdivs (vsub c [Fin (ax * k); Fin (ay * k);
                                        Fin (az * k)]) (Fin (r * k)))) 3
          (stretch_col k c) =
  upd_col (fun c => Ok (vdivs (vsub c [Fin ax; Fin ay; Fin az]) (Fin r))) 3 c.
Proof.
  intros (x & y & z & E). rewrite (stretch_col_fin k x y z c E).
  unfold upd_col. rewrite E. cbn [app take drop].
  cbn [vsub zip_with_f fsub fneg fadd vdivs map].
  replace (x * k + - (ax * k)) with ((x + - ax) * k) by ring.
  replace (y * k + - (ay * k)) with ((y + - ay) * k) by ring.
  replace (z * k + - (az * k)) with ((z + - az) * k) by ring.
  rewrite !fdiv_stretch by exact Hk. reflexivity.
Qed.

Lemma scaled_stretched : scaled bk = scaled b.
Proof.
  destruct anchor_stretched as (ax & ay & az & Ha & Ha').
  destruct resize_stretched as (r & Hr & Hr').
  destruct (lookup_lt_is_Some_2 (cols b) 0) as [c0 Hc0]; [lia | ].
  assert (Hf0 : fin3 c0).
  { apply (proj1 (Forall_forall _ _) Hfin).
    eapply list_elem_of_lookup_2; eauto. }
  unfold scaled. rewrite Hr, Hr', Ha, Ha'.
  cbn [stretched nrows]. f_equal.
  unfold recentred. rewrite Ha, Ha'. cbn [stretched cols nrows].
  rewrite (stretched_col k b 0 c0 Hc0), (col_lookup b 0 c0 Hc0).
  change (map ?f ?l) with (f <$> l).
  rewrite !list_fmap_insert. f_equal.
  - destruct Hf0 as (x & y & z & E).
    rewrite (stretch_col_fin k x y z c0 E).
    unfold upd_col. cbn [app take drop].
    cbn [vsub zip_with_f fsub fneg fadd vdivs map].
    replace (ax * k + - (ax * k)) with ((ax + - ax) * k) by ring.
    replace (ay * k + - (ay * k)) with ((ay + - ay) * k) by ring.
    replace (az * k + - (az * k)) with ((az + - az) * k) by ring.
    rewrite !fdiv_stretch by exact Hk. reflexivity.
  - rewrite <- list_fmap_compose.
    apply Forall_fmap_ext_1. eapply Forall_impl; [exact Hfin | ].
    intros c Hc. cbn. apply scale_step_stretched. exact Hc.
Qed.
End Stretched.

(** The normaliser does not see the size of the body: multiplying every
    joint of a finite body by the same positive factor changes nothing in
    the outcome, be it a skeleton or an exception. *)
Theorem normalize_skeleton_scale_invariant
    (w : world) (l s : nat) (b : array) (k : R) :
  heap w !! l = Some b -> array_wf b ->
  3 <= nrows b -> 3 <= s -> 10 <= length (cols b) ->
  Forall fin3 (cols b) ->
  (0 < k)%R ->
  normalize_skeleton (mkNd l s) (store_at w l (stretched k b)) =
  normalize_skeleton (mkNd l s) w.
Proof.
  intros Hb Hwf Hrows Hstop Hcols Hfin Hk.
  rewrite (normalize_skeleton_same_scaled w l s b b (stretched k b) Hb);
    try assumption.
  - unfold store_at. rewrite list_insert_id by exact Hb.
    rewrite set_heap_id. reflexivity.
  - apply stretched_wf; assumption.
  - cbn [stretched cols]. rewrite length_map. exact Hcols.
  - destruct (fin3_col3 b Hfin 3) as (x3 & y3 & z3 & H3); [lia | ].
    destruct (fin3_col3 b Hfin 9) as (x9 & y9 & z9 & H9); [lia | ].
    rewrite (shoulders_finite_fin b _ _ _ _ _ _ H3 H9).
    apply (shoulders_finite_fin _ _ _ _ _ _ _
             (col3_stretched k x3 y3 z3 b 3 H3)
             (col3_stretched k x9 y9 z9 b 9 H9)).
  - apply scaled_stretched; assumption.
Qed.

Lemma normalize_skeleton_scale_invariant_witness :
  let b := skeleton_with_shoulders [Fin 1; Fin 0; Fin 0; Fin 1]
                                   [Fin 0; Fin 0; Fin 0; Fin 1]%R in
  normalize_skeleton (mkNd 0 4)
    (store_at (world_of [b]) 0 (stretched 3 b)) =
  normalize_skeleton (mkNd 0 4) (world_of [b]).
Proof.
  intros b.
  apply (normalize_skeleton_scale_invariant (world_of [b]) 0 4 b).
  - reflexivity.
  - apply skeleton_with_shoulders_wf; reflexivity.
  - cbn; lia.
  - lia.
  - cbn; lia.
  - cbn. repeat (constructor; [eexists _, _, _; reflexivity | ]). constructor.
  - lra.
Defined.

(** ** The projection shares its memory with the skeleton *)

(** [project_skel] returns a view and no copy: a joint written into the
    3-D skeleton after the projection was made is seen through the 2-D
    result, as the first two coordinates of what was written. *)
Theorem project_skel_is_a_view
    (w w' : world) (skel_3d : ndarray) (b : array) (i : nat) (v : vec) :
  heap w !! base skel_3d = Some b -> array_wf b ->
  set_col skel_3d i v w = Ok (tt, w') ->
  joint w' (project_skel skel_3d) i = take 2 v.
Proof.
  destruct skel_3d as [l s]. cbn [base]. intros Hb Hwf H.
  unfold set_col in H. rewrite (deref_lookup _ _ b) in H by exact Hb.
  cbn [base stop] in H.
  destruct (Nat.ltb_spec i (length (cols b))) as [Hi | Hi]; [ | discriminate].
  destruct (Nat.eqb_spec (length v) (Nat.min s (nrows b))) as [Hv | Hv];
    [ | discriminate].
  injection H as <-.
  destruct (lookup_lt_is_Some_2 (cols b) i Hi) as [c Hc].
  assert (Hlc : length c = nrows b).
  { apply (proj1 (Forall_forall _ _) Hwf).
    eapply list_elem_of_lookup_2; eauto. }
  apply lookup_lt_Some in Hb as Hl.
  unfold joint, project_skel, slice_rows. cbn [base stop].
  rewrite (contents_lookup _ l _ (write_col s i v b))
    by (rewrite heap_set_heap; apply list_lookup_insert_eq; exact Hl).
  rewrite col_view_of.
  rewrite (col_lookup _ i (v ++ drop s c)).
  2:{ unfold write_col. cbn [cols]. rewrite Hc.
      apply list_lookup_insert_eq. exact Hi. }
  destruct (Nat.le_gt_cases s (nrows b)) as [Hs | Hs].
  - rewrite Nat.min_l in Hv by exact Hs.
    rewrite take_app_le by lia.
    destruct (Nat.le_gt_cases s 2) as [H2 | H2].
    + rewrite Nat.min_l by exact H2. rewrite !take_ge by lia. reflexivity.
    + rewrite Nat.min_r by lia. reflexivity.
  - rewrite Nat.min_r in Hv by lia.
    rewrite (drop_ge c s) by lia. rewrite app_nil_r.
    destruct (Nat.le_gt_cases s 2) as [H2 | H2].
    + rewrite Nat.min_l by exact H2. rewrite !take_ge by lia. reflexivity.
    + rewrite Nat.min_r by lia. reflexivity.
Qed.

Lemma project_skel_is_a_view_witness :
  exists w',
    set_col (mkNd 0 3) 5 [Fin 7; Fin 8; Fin 9]%R (world_of [sample_skeleton])
    = Ok (tt, w') /\
    joint w' (project_skel (mkNd 0 3)) 5 = [Fin 7; Fin 8]%R.
Proof.
  eexists. split; [reflexivity | ].
  apply (project_skel_is_a_view (world_of [sample_skeleton]) _ (mkNd 0 3)
           sample_skeleton 5 [Fin 7; Fin 8; Fin 9]%R).
  - reflexivity.
  - unfold sample_skeleton, array_wf. cbn.
    repeat (constructor; [reflexivity | ]). constructor.
  - reflexivity.
Defined.

(** * Further properties of [rotate_skel] *)

Lemma q_rotate_wrong_length (q : quat) (v : vec) :
  length v <> 3 -> q_rotate q v = Raise ValueError.
Proof.
  destruct v as [ | a0 [ | a1 [ | a2 [ | a3 t]]]]; cbn [length]; intros H;
    try reflexivity. contradiction.
Qed.

(** [rotate_skel] only turns arrays that show three rows: on any other
    stored array with at least one joint (a projected 2 x 19 skeleton, say)
    it raises [ValueError]. *)
Theorem rotate_skel_needs_three_rows
    (w : world) (skel : ndarray) (b : array) (d : R) :
  heap w !! base skel = Some b -> array_wf b ->
  Nat.min (stop skel) (nrows b) <> 3 ->
  1 <= length (cols b) ->
  rotate_skel skel (Fin d) w = Raise ValueError.
Proof.
  intros Hb Hwf Hrows Hcols. unfold rotate_skel.
  rewrite math_radians_fin, Quaternion_y_fin.
  unfold lift at 1. unfold bind at 1.
  set (w1 := set_heap w (heap w ++ [contents w skel])).
  rewrite (bind_ok _ _ w w1 (mkNd (length (heap w)) (nrows (contents w skel))))
    by reflexivity.
  rewrite (bind_ok _ _ w1 w1 (length (cols b))).
  2:{ unfold shape1, w1. rewrite (contents_app w skel b) by exact Hb.
      destruct skel as [l k]. rewrite (contents_lookup w l k b Hb).
      cbn [view_of cols]. rewrite length_map. reflexivity. }
  apply bind_raise. unfold for_range.
  destruct (length (cols b)) as [ | n] eqn:En; [lia | ].
  cbn [seq for_each]. apply bind_raise.
  destruct (lookup_lt_is_Some_2 (cols b) 0) as [c0 Hc0]; [lia | ].
  destruct skel as [l k]. cbn [base stop] in *.
  rewrite (bind_ok _ _ w1 w1 (take k c0)).
  2:{ eapply get_col_ok; eauto. unfold w1. rewrite heap_set_heap.
      apply lookup_app_l_Some. exact Hb. }
  apply bind_raise. unfold lift. rewrite q_rotate_wrong_length; [reflexivity | ].
  rewrite length_take, (wf_col_length b Hwf 0 c0 Hc0). exact Hrows.
Qed.

Lemma rotate_skel_needs_three_rows_witness :
  rotate_skel (project_skel (mkNd 0 3)) (Fin 10) (world_of [sample_skeleton])
  = Raise ValueError.
Proof.
  apply (rotate_skel_needs_three_rows _ (project_skel (mkNd 0 3))
           sample_skeleton 10%R).
  - reflexivity.
  - apply view_of_wf, skeleton_with_shoulders_wf; reflexivity.
  - cbn. lia.
  - cbn. lia.
Defined.

(** What a call of [rotate_skel] leaves: the reference to the new array,
    the store, and what the new reference shows. *)
Lemma rotate_skel_result (w : world) (a : ndarray) (b : array) (d : R) :
  heap w !! base a = Some b -> array_wf b ->
  Nat.min (stop a) (nrows b) = 3 ->
  exists w',
    rotate_skel a (Fin d) w = Ok (mkNd (length (heap w)) 3, w') /\
    heap w' = heap w ++ [rotated_by d (contents w a)] /\
    contents w' (mkNd (length (heap w)) 3) = rotated_by d (contents w a) /\
    array_wf (rotated_by d (contents w a)) /\
    nrows (rotated_by d (contents w a)) = 3.
Proof.
  intros Hb Hwf Hrows.
  assert (Hm : contents w a = view_of (stop a) b).
  { destruct a as [l k]. apply contents_lookup. exact Hb. }
  assert (Hwfr : array_wf (rotated_by d (contents w a))).
  { apply rotated_by_wf; rewrite Hm; [apply view_of_wf, Hwf | exact Hrows]. }
  assert (Hnr : nrows (rotated_by d (contents w a)) = 3).
  { cbn [rotated_by nrows]. rewrite Hm. exact Hrows. }
  eexists. split; [apply (rotate_skel_run w a b d Hb Hwf Hrows) | ].
  split; [reflexivity | ]. split; [ | split; assumption].
  rewrite contents_alloc. apply view_of_id; [exact Hwfr | lia].
Qed.

Lemma joint_rotated_by (d : R) (m : array) (i : nat) (x y z : R) :
  col m i = [Fin x; Fin y; Fin z] ->
  col (rotated_by d m) i = rot_y (d * (PI / 180)) x y z.
Proof.
  unfold col, rotated_by. cbn [cols]. rewrite lookup_map.
  destruct (cols m !! i) as [c | ]; [ | discriminate].
  cbn. intros ->. apply rotated_col_fin.
Qed.

Lemma euclidean_fin (x y z x' y' z' : R) :
  euclidean [Fin x; Fin y; Fin z] [Fin x'; Fin y'; Fin z'] =
  Fin (shoulder_len x y z x' y' z').
Proof.
  unfold euclidean, np_norm.
  cbn [vsub zip_with_f fsub fneg fadd fmul fsum fold_left].
  match goal with
  | |- fsqrt (Fin ?e) = _ =>
      replace e with (shoulder_sq x y z x' y' z')
        by (unfold shoulder_sq; ring)
  end.
  apply fsqrt_fin, shoulder_sq_nonneg.
Qed.

(** [rotate_skel] is a rigid motion about the vertical axis: every finite
    joint keeps its y coordinate, and the distance between any two finite
    joints is the same in the copy as in the input. *)
Theorem rotate_skel_rigid
    (w : world) (skel : ndarray) (b : array) (d : R)
    (i j : nat) (xi yi zi xj yj zj : R) :
  heap w !! base skel = Some b -> array_wf b ->
  Nat.min (stop skel) (nrows b) = 3 ->
  joint w skel i = [Fin xi; Fin yi; Fin zi] ->
  joint w skel j = [Fin xj; Fin yj; Fin zj] ->
  exists r w',
    rotate_skel skel (Fin d) w = Ok (r, w') /\
    joint w' r i !! 1 = Some (Fin yi) /\
    euclidean (joint w' r i) (joint w' r j) =
    euclidean (joint w skel i) (joint w skel j).
Proof.
  intros Hb Hwf Hrows Hi Hj.
  destruct (rotate_skel_result w skel b d Hb Hwf Hrows)
    as (w' & Hrun & _ & Hc & _).
  exists (mkNd (length (heap w)) 3), w'. split; [exact Hrun | ].
  unfold joint in *. rewrite Hc.
  rewrite (joint_rotated_by d _ i xi yi zi Hi).
  rewrite (joint_rotated_by d _ j xj yj zj Hj).
  split; [reflexivity | ].
  rewrite Hi, Hj, euclidean_rot_y, euclidean_fin. reflexivity.
Qed.

Lemma rotate_skel_rigid_witness :
  exists r w',
    rotate_skel (mkNd 0 3) (Fin 15) (world_of [sample_skeleton]) = Ok (r, w') /\
    joint w' r 3 !! 1 = Some (Fin 0) /\
    euclidean (joint w' r 3) (joint w' r 9) =
    euclidean (joint (world_of [sample_skeleton]) (mkNd 0 3) 3)
              (joint (world_of [sample_skeleton]) (mkNd 0 3) 9).
Proof.
  apply (rotate_skel_rigid (world_of [sample_skeleton]) (mkNd 0 3)
           sample_skeleton 15 3 9 1 0 0 0 0 0)%R.
  - reflexivity.
  - apply view_of_wf, skeleton_with_shoulders_wf; reflexivity.
  - reflexivity.
  - reflexivity.
  - reflexivity.
Defined.

Lemma list3_fin_eq (a b c a' b' c' : R) :
  a = a' -> b = b' -> c = c' ->
  [Fin a; Fin b; Fin c] = [Fin a'; Fin b'; Fin c'].
Proof. intros -> -> ->. reflexivity. Qed.

Lemma rot_y_zero (x y z : R) :
  rot_y (0 * (PI / 180)) x y z = [Fin x; Fin y; Fin z].
Proof.
  unfold rot_y. rewrite Rmult_0_l, cos_0, sin_0.
  apply list3_fin_eq; ring.
Qed.

Lemma rotated_by_zero (m : array) :
  Forall fin3 (cols m) -> array_wf m -> nrows m = 3 -> rotated_by 0 m = m.
Proof.
  intros Hfin Hwf Hr. destruct m as [r cs]. unfold rotated_by.
  cbn [nrows cols] in *. f_equal.
  unfold array_wf in Hwf. cbn [nrows cols] in Hwf. subst r.
  induction cs as [ | c cs IH]; [reflexivity | ].
  apply Forall_cons in Hfin as [(x & y & z & E) Hfin'].
  apply Forall_cons in Hwf as [Hl Hwf'].
  cbn [map]. rewrite (IH Hfin' Hwf'). f_equal.
  rewrite take_ge in E by lia. subst c.
  rewrite rotated_col_fin. apply rot_y_zero.
Qed.

(** Turning a finite skeleton by 0 degrees gives an exact copy. *)
Theorem rotate_skel_zero_degrees
    (w : world) (skel : ndarray) (b : array) :
  heap w !! base skel = Some b -> array_wf b ->
  Nat.min (stop skel) (nrows b) = 3 ->
  all_finite (contents w skel) ->
  exists r w',
    rotate_skel skel (Fin 0) w = Ok (r, w') /\
    base r <> base skel /\
    contents w' r = contents w skel.
Proof.
  intros Hb Hwf Hrows Hfin.
  destruct (rotate_skel_result w skel b 0 Hb Hwf Hrows)
    as (w' & Hrun & _ & Hc & _).
  assert (Hm : contents w skel = view_of (stop skel) b).
  { destruct skel as [l k]. apply contents_lookup. exact Hb. }
  exists (mkNd (length (heap w)) 3), w'. split; [exact Hrun | ]. split.
  - cbn [base]. apply lookup_lt_Some in Hb. lia.
  - rewrite Hc. apply rotated_by_zero.
    + assert (Hwfm : array_wf (contents w skel))
        by (rewrite Hm; apply view_of_wf, Hwf).
      assert (Hr3 : nrows (contents w skel) = 3) by (rewrite Hm; exact Hrows).
      unfold all_finite in Hfin. unfold array_wf in Hwfm. rewrite Hr3 in Hwfm.
      revert Hfin Hwfm. generalize (cols (contents w skel)).
      induction l as [ | c cs IH]; intros Hf Hl; constructor.
      * apply Forall_cons in Hf as [Hf _]. apply Forall_cons in Hl as [Hl _].
        destruct c as [ | [x | | | ] [ | [y | | | ] [ | [z | | | ] [ | ? ?]]]];
          cbn in Hl; try lia;
          repeat match goal with
            | H : Forall is_fin (_ :: _) |- _ =>
                apply Forall_cons in H as [? ?]
            end; try contradiction.
        exists x, y, z. reflexivity.
      * apply Forall_cons in Hf as [_ Hf]. apply Forall_cons in Hl as [_ Hl].
        apply IH; assumption.
    + rewrite Hm. apply view_of_wf, Hwf.
    + rewrite Hm. exact Hrows.
Qed.

Lemma rotate_skel_zero_degrees_witness :
  exists r w',
    rotate_skel (mkNd 0 3) (Fin 0) (world_of [sample_skeleton]) = Ok (r, w') /\
    base r <> 0 /\
    contents w' r = contents (world_of [sample_skeleton]) (mkNd 0 3).
Proof.
  apply (rotate_skel_zero_degrees (world_of [sample_skeleton]) (mkNd 0 3)
           sample_skeleton).
  - reflexivity.
  - apply view_of_wf, skeleton_with_shoulders_wf; reflexivity.
  - reflexivity.
  - exact sample_all_finite.
Defined.

Lemma rot_y_rot_y (t1 t2 x y z : R) :
  rotated_col (quat_y t2) (rot_y t1 x y z) = rot_y (t1 + t2) x y z.
Proof.
  unfold rot_y at 1. rewrite rotated_col_fin. unfold rot_y.
  rewrite cos_plus, sin_plus.
  apply list3_fin_eq; ring.
Qed.

(** Two turns compose: turning the copy made by a turn of [d1] degrees by
    [d2] degrees puts every finite joint where a single turn by [d1 + d2]
    degrees puts it. *)
Theorem rotate_skel_twice
    (w : world) (skel : ndarray) (b : array) (d1 d2 : R) :
  heap w !! base skel = Some b -> array_wf b ->
  Nat.min (stop skel) (nrows b) = 3 ->
  exists r1 w1 r2 w2,
    rotate_skel skel (Fin d1) w = Ok (r1, w1) /\
    rotate_skel r1 (Fin d2) w1 = Ok (r2, w2) /\
    forall i x y z,
      joint w skel i = [Fin x; Fin y; Fin z] ->
      joint w2 r2 i = rot_y ((d1 + d2) * (PI / 180)) x y z.
Proof.
  intros Hb Hwf Hrows.
  destruct (rotate_skel_result w skel b d1 Hb Hwf Hrows)
    as (w1 & Hrun1 & Hh1 & Hc1 & Hwf1 & Hr1).
  set (r1 := mkNd (length (heap w)) 3) in *.
  assert (Hb1 : heap w1 !! base r1 = Some (rotated_by d1 (contents w skel))).
  { rewrite Hh1. cbn [r1 base]. rewrite lookup_app_r by lia.
    rewrite Nat.sub_diag. reflexivity. }
  assert (Hrows1 : Nat.min (stop r1) (nrows (rotated_by d1 (contents w skel))) = 3)
    by (rewrite Hr1; reflexivity).
  destruct (rotate_skel_result w1 r1 _ d2 Hb1 Hwf1 Hrows1)
    as (w2 & Hrun2 & _ & Hc2 & _).
  exists r1, w1, (mkNd (length (heap w1)) 3), w2.
  split; [exact Hrun1 | ]. split; [exact Hrun2 | ].
  intros i x y z Hj. unfold joint in *. rewrite Hc2, Hc1.
  pose proof (joint_rotated_by d1 _ i x y z Hj) as H1.
  unfold col in *. unfold rotated_by at 1. cbn [cols]. rewrite lookup_map.
  destruct (cols (rotated_by d1 (contents w skel)) !! i) as [c | ];
    [ | discriminate].
  cbn. rewrite H1, rot_y_rot_y. f_equal. ring.
Qed.

Lemma rotate_skel_twice_witness :
  exists r1 w1 r2 w2,
    rotate_skel (mkNd 0 3) (Fin 10) (world_of [sample_skeleton]) = Ok (r1, w1) /\
    rotate_skel r1 (Fin 5) w1 = Ok (r2, w2) /\
    forall i x y z,
      joint (world_of [sample_skeleton]) (mkNd 0 3) i = [Fin x; Fin y; Fin z] ->
      joint w2 r2 i = rot_y ((10 + 5) * (PI / 180)) x y z.
Proof.
  apply (rotate_skel_twice (world_of [sample_skeleton]) (mkNd 0 3)
           sample_skeleton 10 5)%R.
  - reflexivity.
  - apply view_of_wf, skeleton_with_shoulders_wf; reflexivity.
  - reflexivity.
Defined.

(** ** Normalising twice *)

Lemma array_eta (a : array) : mkArray (nrows a) (cols a) = a.
Proof. destruct a; reflexivity. Qed.

Lemma upd_col_fixed (g : vec -> result vec) (c : vec) :
  g (take 3 c) = Ok (take 3 c) -> upd_col g 3 c = c.
Proof. intros E. unfold upd_col. rewrite E. apply take_drop. Qed.

Lemma map_upd_col_fixed (g : vec -> result vec) (cs : list vec) :
  Forall (fun c => g (take 3 c) = Ok (take 3 c)) cs ->
  map (upd_col g 3) cs = cs.
Proof.
  induction 1 as [ | c cs Hc _ IH]; [reflexivity | ].
  cbn [map]. rewrite IH, (upd_col_fixed g c Hc). reflexivity.
Qed.

(** A shoulder line that already points along (-1, 0) asks for no turn. *)
Lemma frontal_angle_aligned (a : R) : (a < 0)%R -> frontal_angle a 0 = 0%R.
Proof.
  intros Ha. unfold frontal_angle, hyp2.
  replace (a * a + 0 * 0)%R with ((- a) * (- a))%R by ring.
  rewrite sqrt_square by lra.
  replace (- a / - a)%R with 1%R by (field; lra).
  apply acos_1.
Qed.

(** A finite array with the root at the origin, the shoulders opposite
    each other at distance 1 and on a line of constant depth, the left
    one on the side of negative x. *)
Section FixedPoint.
Local Open Scope R_scope.
Variable b : array.
Hypothesis Hwf : array_wf b.
Hypothesis Hrows : (3 <= nrows b)%nat.
Hypothesis Hcols : (10 <= length (cols b))%nat.
Hypothesis Hfin : Forall fin3 (cols b).
Variables x y : R.
Hypothesis H0 : col3 b 0 = [Fin 0; Fin 0; Fin 0].
Hypothesis H3 : col3 b 3 = [Fin x; Fin y; Fin 0].
Hypothesis H9 : col3 b 9 = [Fin (- x); Fin (- y); Fin 0].
Hypothesis Hx : x < 0.
Hypothesis Hlen : shoulder_len x y 0 (- x) (- y) 0 = 1.

Lemma anchor_normal : anchor_of b = [Fin 0; Fin 0; Fin 0].
Proof.
  rewrite (anchor_of_fin b _ _ _ _ _ _ H3 H9). apply list3_fin_eq; field.
Qed.

Lemma resize_normal : resize_of b = Fin 1.
Proof. rewrite (resize_of_fin b _ _ _ _ _ _ H3 H9), Hlen. reflexivity. Qed.

Lemma recentred_normal : recentred b = b.
Proof.
  destruct (lookup_lt_is_Some_2 (cols b) 0%nat) as [c0 Hc0]; [lia | ].
  unfold recentred. rewrite anchor_normal, <- H0. unfold col3.
  rewrite take_drop, (col_lookup b 0 c0 Hc0).
  rewrite list_insert_id by exact Hc0. apply array_eta.
Qed.

Lemma scaled_normal : scaled b = b.
Proof.
  unfold scaled. rewrite recentred_normal, anchor_normal, resize_normal.
  rewrite map_upd_col_fixed; [apply array_eta | ].
  eapply Forall_impl; [exact Hfin | ].
  intros c (u & v & t & E). cbn beta. rewrite E.
  cbn [vsub zip_with_f fsub fneg fadd vdivs map].
  rewrite !fdiv_fin by lra. f_equal. apply list3_fin_eq; field.
Qed.

Lemma turned_zero : turned (quat_y 0) b = b.
Proof.
  unfold turned.
  rewrite map_upd_col_fixed; [apply array_eta | ].
  eapply Forall_impl; [exact Hfin | ].
  intros c (u & v & t & E). cbn beta. rewrite E.
  unfold quat_y. rewrite q_rotate_y_fin, cos_0, sin_0.
  f_equal. apply list3_fin_eq; ring.
Qed.

Lemma normalize_skeleton_fixed (w : world) (l s : nat) :
  heap w !! l = Some b -> (3 <= s)%nat ->
  normalize_skeleton (mkNd l s) w = Ok (mkNd l 3, w).
Proof.
  intros Hb Hstop.
  assert (Hxz : x <> - x \/ 0 <> 0) by (left; lra).
  rewrite (normalize_skeleton_frontal_run b Hwf Hrows Hcols
             x y 0 (- x) (- y) 0 H3 H9 Hxz w l s Hb Hstop).
  rewrite Hlen.
  replace ((x - - x) / 1) with (2 * x) by field.
  replace ((0 - 0) / 1) with 0 by field.
  rewrite frontal_angle_aligned by lra.
  rewrite scaled_normal, turned_zero.
  rewrite list_insert_id by exact Hb. rewrite set_heap_id. reflexivity.
Qed.
End FixedPoint.

Section Idempotent.
Local Open Scope R_scope.
Variable b : array.
Hypothesis Hwf : array_wf b.
Hypothesis Hrows : (3 <= nrows b)%nat.
Hypothesis Hcols : (10 <= length (cols b))%nat.
Hypothesis Hfin : Forall fin3 (cols b).
Variables x3 y3 z3 x9 y9 z9 : R.
Hypothesis H3 : col3 b 3 = [Fin x3; Fin y3; Fin z3].
Hypothesis H9 : col3 b 9 = [Fin x9; Fin y9; Fin z9].
Hypothesis Hxz : x3 <> x9 \/ z3 <> z9.
Hypothesis Hz : z3 <= z9.

Local Abbreviation rho := (shoulder_len x3 y3 z3 x9 y9 z9).
Local Abbreviation dx := ((x3 - x9) / rho).
Local Abbreviation dy := ((y3 - y9) / rho).
Local Abbreviation dz := ((z3 - z9) / rho).
Local Abbreviation theta := (frontal_angle dx dz).
Local Abbreviation final := (turned (quat_y theta) (scaled b)).

Lemma final_fin3 : Forall fin3 (cols final).
Proof.
  unfold turned. cbn [cols].
  eapply Forall_map_impl;
    [ | exact (scaled_fin3 b x3 y3 z3 x9 y9 z9 H3 H9
                 (shoulders_distinct x3 y3 z3 x9 y9 z9 Hxz) Hfin)].
  intros c Hc. apply fin3_turn. exact Hc.
Qed.

Lemma final_normal :
  exists x y : R,
    x < 0 /\
    col3 final 0 = [Fin 0; Fin 0; Fin 0] /\
    col3 final 3 = [Fin x; Fin y; Fin 0] /\
    col3 final 9 = [Fin (- x); Fin (- y); Fin 0] /\
    shoulder_len x y 0 (- x) (- y) 0 = 1.
Proof.
  pose proof (rho_pos x3 y3 z3 x9 y9 z9 Hxz) as Hp.
  pose proof (hyp2_pos dx dz (dxz_nonzero x3 y3 z3 x9 y9 z9 Hxz)) as Hh.
  pose proof (final_shoulder_xz b Hwf Hrows Hcols x3 y3 z3 x9 y9 z9 H3 H9 Hxz)
    as Hxz1.
  rewrite (final_shoulder_xz_aligned b Hwf Hrows Hcols x3 y3 z3 x9 y9 z9
             H3 H9 Hxz Hz) in Hxz1.
  injection Hxz1 as Ex Ez.
  pose proof (final_shoulder3 b Hwf Hrows Hcols x3 y3 z3 x9 y9 z9 H3 H9 Hxz)
    as Hc3.
  pose proof (final_shoulder9 b Hwf Hrows Hcols x3 y3 z3 x9 y9 z9 H3 H9 Hxz)
    as Hc9.
  assert (Hc3' : col3 final 3 = [Fin (- hyp2 dx dz / 2); Fin (dy / 2); Fin 0]).
  { rewrite Hc3. apply list3_fin_eq.
    - rewrite Ex. field. lra.
    - reflexivity.
    - transitivity ((- dx * sin theta + dz * cos theta) / 2); [field; lra | ].
      rewrite <- Ez. field. }
  assert (Hc9' : col3 final 9 =
                 [Fin (- (- hyp2 dx dz / 2)); Fin (- (dy / 2)); Fin 0]).
  { rewrite Hc9. apply list3_fin_eq.
    - rewrite Ex. field. lra.
    - reflexivity.
    - transitivity (- ((- dx * sin theta + dz * cos theta) / 2));
        [field; lra | ].
      rewrite <- Ez. field. }
  exists (- hyp2 dx dz / 2), (dy / 2).
  split; [lra | ].
  split; [exact (final_root b Hwf Hrows Hcols x3 y3 z3 x9 y9 z9 H3 H9 Hxz) | ].
  split; [exact Hc3' | ]. split; [exact Hc9' | ].
  pose proof (resize_of_fin final _ _ _ _ _ _ Hc3' Hc9') as Hr.
  unfold resize_of in Hr.
  rewrite (final_shoulder_distance b Hwf Hrows Hcols x3 y3 z3 x9 y9 z9
             H3 H9 Hxz) in Hr.
  injection Hr as Hr. symmetry. exact Hr.
Qed.
End Idempotent.

(** Normalising is idempotent on the bodies it aligns: when the left
    shoulder is not in front of the right one, a second call on the
    returned skeleton returns the same reference and leaves the store as
    the first call left it. *)
Theorem normalize_skeleton_idempotent
    (w : world) (l s : nat) (b : array) (x3 y3 z3 x9 y9 z9 : R) :
  heap w !! l = Some b -> array_wf b ->
  3 <= nrows b -> 3 <= s -> 10 <= length (cols b) ->
  Forall fin3 (cols b) ->
  col3 b 3 = [Fin x3; Fin y3; Fin z3] ->
  col3 b 9 = [Fin x9; Fin y9; Fin z9] ->
  x3 <> x9 \/ z3 <> z9 ->
  (z3 <= z9)%R ->
  exists skel w1,
    normalize_skeleton (mkNd l s) w = Ok (skel, w1) /\
    normalize_skeleton skel w1 = Ok (skel, w1).
Proof.
  intros Hb Hwf Hrows Hstop Hcols Hfin H3 H9 Hxz Hz.
  eexists _, _. split.
  - exact (normalize_skeleton_frontal_run b Hwf Hrows Hcols
             x3 y3 z3 x9 y9 z9 H3 H9 Hxz w l s Hb Hstop).
  - destruct (final_normal b Hwf Hrows Hcols x3 y3 z3 x9 y9 z9 H3 H9 Hxz Hz)
      as (x & y & Hx & F0 & F3 & F9 & Hlen).
    apply lookup_lt_Some in Hb as Hl.
    apply (normalize_skeleton_fixed _
             (turned_scaled_wf _ b Hwf Hrows Hcols)
             Hrows
             (eq_ind_r (fun n => 10 <= n) Hcols
                (eq_trans (length_map _ _) (scaled_length b)))
             (final_fin3 b Hfin x3 y3 z3 x9 y9 z9 H3 H9 Hxz)
             x y F0 F3 F9 Hx Hlen).
    + rewrite heap_set_heap. apply list_lookup_insert_eq. exact Hl.
    + lia.
Qed.

Lemma normalize_skeleton_idempotent_witness :
  let b := skeleton_with_shoulders [Fin 1; Fin 0; Fin 0; Fin 1]
                                   [Fin 0; Fin 0; Fin 0; Fin 1]%R in
  exists skel w1,
    normalize_skeleton (mkNd 0 4) (world_of [b]) = Ok (skel, w1) /\
    normalize_skeleton skel w1 = Ok (skel, w1).
Proof.
  intros b.
  apply (normalize_skeleton_idempotent (world_of [b]) 0 4 b 1 0 0 0 0 0)%R.
  - reflexivity.
  - apply skeleton_with_shoulders_wf; reflexivity.
  - cbn; lia.
  - lia.
  - cbn; lia.
  - cbn. repeat (constructor; [eexists _, _, _; reflexivity | ]). constructor.
  - reflexivity.
  - reflexivity.
  - left. lra.
  - lra.
Defined.

(** ** The centre of the shoulders *)

(** The docstring's "center of shoulders on 0.0": whenever the shoulder
    line is not vertical, the two shoulders of the returned skeleton are
    opposite points, so that their midpoint is the origin, whichever way
    the turn went. *)
Theorem normalize_skeleton_shoulders_opposite
    (w : world) (l s : nat) (b : array) (x3 y3 z3 x9 y9 z9 : R) :
  heap w !! l = Some b -> array_wf b ->
  3 <= nrows b -> 3 <= s -> 10 <= length (cols b) ->
  col3 b 3 = [Fin x3; Fin y3; Fin z3] ->
  col3 b 9 = [Fin x9; Fin y9; Fin z9] ->
  x3 <> x9 \/ z3 <> z9 ->
  exists skel w' (x y z : R),
    normalize_skeleton (mkNd l s) w = Ok (skel, w') /\
    joint w' skel 3 = [Fin x; Fin y; Fin z] /\
    joint w' skel 9 = [Fin (- x); Fin (- y); Fin (- z)]%R.
Proof.
  intros Hb Hwf Hrows Hstop Hcols H3 H9 Hxz.
  apply lookup_lt_Some in Hb as Hl.
  pose proof (rho_pos x3 y3 z3 x9 y9 z9 Hxz) as Hp.
  eexists _, _, _, _, _. split; [ | split].
  - exact (normalize_skeleton_frontal_run b Hwf Hrows Hcols
             x3 y3 z3 x9 y9 z9 H3 H9 Hxz w l s Hb Hstop).
  - rewrite joint_after_write by exact Hl.
    exact (final_shoulder3 b Hwf Hrows Hcols x3 y3 z3 x9 y9 z9 H3 H9 Hxz).
  - rewrite joint_after_write by exact Hl.
    rewrite (final_shoulder9 b Hwf Hrows Hcols x3 y3 z3 x9 y9 z9 H3 H9 Hxz).
    apply list3_fin_eq; field; lra.
Qed.

Lemma normalize_skeleton_shoulders_opposite_witness :
  let b := skeleton_with_shoulders [Fin 1; Fin 2; Fin 5; Fin 1]
                                   [Fin 0; Fin 0; Fin 3; Fin 1]%R in
  exists skel w' (x y z : R),
    normalize_skeleton (mkNd 0 4) (world_of [b]) = Ok (skel, w') /\
    joint w' skel 3 = [Fin x; Fin y; Fin z] /\
    joint w' skel 9 = [Fin (- x); Fin (- y); Fin (- z)]%R.
Proof.
  intros b.
  apply (normalize_skeleton_shoulders_opposite
           (world_of [b]) 0 4 b 1 2 5 0 0 3)%R.
  - reflexivity.
  - apply skeleton_with_shoulders_wf; reflexivity.
  - cbn; lia.
  - lia.
  - cbn; lia.
  - reflexivity.
  - reflexivity.
  - left. lra.
Defined.

(** ** Shoulders that are not finite *)

Lemma fsub_not_fin (a c : fnum) :
  ~ is_fin a \/ ~ is_fin c -> is_finb (fsub a c) = false.
Proof.
  intros H. destruct a, c; cbn in *; try reflexivity; tauto.
Qed.

Lemma list3_of_length (v : vec) :
  length v = 3 -> exists a0 a1 a2, v = [a0; a1; a2].
Proof.
  destruct v as [ | a0 [ | a1 [ | a2 [ | a3 t]]]]; try discriminate.
  intros _. exists a0, a1, a2. reflexivity.
Qed.

(** A NaN or an infinity among the six shoulder coordinates is refused by
    [distance.euclidean]: the normaliser raises [ValueError] (after it
    has overwritten the neck) instead of handing back an array of NaN. *)
Theorem normalize_skeleton_nonfinite_shoulder
    (w : world) (l s : nat) (b : array) (e : fnum) :
  heap w !! l = Some b -> array_wf b ->
  3 <= nrows b -> 3 <= s -> 10 <= length (cols b) ->
  e ∈ col3 b 3 ++ col3 b 9 -> ~ is_fin e ->
  normalize_skeleton (mkNd l s) w = Raise ValueError.
Proof.
  intros Hb Hwf Hrows Hstop Hcols He Hne.
  rewrite (normalize_skeleton_run w l s b Hb Hwf Hrows Hstop Hcols).
  assert (Hf : shoulders_finite b = false); [ | rewrite Hf; reflexivity].
  destruct (list3_of_length (col3 b 3)) as (a0 & a1 & a2 & E3);
    [apply col3_length; try assumption; lia | ].
  destruct (list3_of_length (col3 b 9)) as (c0 & c1 & c2 & E9);
    [apply col3_length; try assumption; lia | ].
  unfold shoulders_finite. rewrite E3, E9 in *.
  cbn [vsub zip_with_f forallb].
  apply elem_of_app in He as [He | He];
    repeat (apply elem_of_cons in He as [<- | He]);
    try (apply not_elem_of_nil in He; contradiction).
  - rewrite (fsub_not_fin e c0) by (left; exact Hne). reflexivity.
  - rewrite (fsub_not_fin e c1) by (left; exact Hne).
    apply andb_false_iff. right. reflexivity.
  - rewrite (fsub_not_fin e c2) by (left; exact Hne).
    apply andb_false_iff. right. apply andb_false_iff. right. reflexivity.
  - rewrite (fsub_not_fin a0 e) by (right; exact Hne). reflexivity.
  - rewrite (fsub_not_fin a1 e) by (right; exact Hne).
    apply andb_false_iff. right. reflexivity.
  - rewrite (fsub_not_fin a2 e) by (right; exact Hne).
    apply andb_false_iff. right. apply andb_false_iff. right. reflexivity.
Qed.

Lemma normalize_skeleton_nonfinite_shoulder_witness :
  normalize_skeleton (mkNd 0 4)
    (world_of [skeleton_with_shoulders [Fin 1; NaN; Fin 0; Fin 1]
                                       [Fin 0; Fin 0; Fin 0; Fin 1]%R])
  = Raise ValueError.
Proof.
  apply (normalize_skeleton_nonfinite_shoulder _ 0 4
           (skeleton_with_shoulders [Fin 1; NaN; Fin 0; Fin 1]
                                    [Fin 0; Fin 0; Fin 0; Fin 1]%R) NaN)%R.
  - reflexivity.
  - apply skeleton_with_shoulders_wf; reflexivity.
  - cbn; lia.
  - lia.
  - cbn; lia.
  - cbn. apply elem_of_cons. right. apply elem_of_cons. left. reflexivity.
  - cbn. tauto.
Defined.

(** * Further properties of [augmented_data] *)

Lemma drawn_degree_range (w : world) :
  draws_in_unit w -> (-20 <= drawn_degree w <= 20)%R.
Proof.
  intros H. destruct (H 0) as [[H0 H1] _]. unfold drawn_degree. lra.
Qed.

Lemma draws_in_unit_after (n : R) (w : world) (a : ndarray) :
  draws_in_unit w -> draws_in_unit (world_after_augment n w a).
Proof.
  intros H k. unfold world_after_augment. cbn [py_random np_random].
  split; [apply (H (S k)) | apply (H _)].
Qed.

Lemma uniform_noise_within (n : R) (g : nat -> R) (r c : nat) :
  (0 <= n)%R -> (forall k, (0 <= g k < 1)%R) ->
  noise_within n (uniform_noise n g r c).
Proof.
  intros Hn Hg. unfold noise_within, uniform_noise. cbn [cols].
  apply Forall_forall. intros col Hcol.
  apply list_elem_of_In, in_map_iff in Hcol as (j & <- & _).
  apply Forall_forall. intros e He.
  apply list_elem_of_In, in_map_iff in He as (i & <- & _).
  cbn [fsub fneg fadd fmul]. eexists. split; [ | reflexivity].
  destruct (Hg (i * c + j)%nat) as [H0 H1]. nra.
Qed.

(** The loop of the augmenter, with the ranges of its draws. *)
Lemma augment_loop_within (n : R) :
  (0 <= n)%R ->
  forall (skels acc : list ndarray) (w : world),
    draws_in_unit w ->
    Forall (is_skeleton w) skels ->
    exists (news : list array) (w' : world),
      augment_loop (Fin n) acc skels w =
        Ok (acc ++ fresh_refs (length (heap w)) (2 * length skels), w') /\
      heap w' = heap w ++ news /\
      variants_within n w skels news.
Proof.
  intros Hn. induction skels as [ | a rest IH]; intros acc w Hu Hsk.
  - exists [], w. cbn [augment_loop length]. unfold ret, fresh_refs.
    cbn. rewrite !app_nil_r. repeat split. intros i a Hi. discriminate.
  - apply Forall_cons in Hsk as [Ha Hrest].
    pose proof (augment_one_step n acc a w Ha) as Hone.
    set (w1 := world_after_augment n w a) in *.
    assert (Hh1 : heap w1 = heap w ++
                    [rotated_by (drawn_degree w) (contents w a);
                     zero_root (array_add (contents w a)
                       (uniform_noise n (np_random w) 3
                          (length (cols (contents w a)))))])
      by reflexivity.
    assert (Hrest1 : Forall (is_skeleton w1) rest).
    { eapply Forall_impl; [exact Hrest | ]. intros x Hx.
      eapply is_skeleton_grown; eauto. }
    destruct (IH (acc ++ [mkNd (length (heap w)) 3;
                          mkNd (S (length (heap w))) 3]) w1
                (draws_in_unit_after n w a Hu) Hrest1)
      as (news1 & w' & Hloop & Hh' & Hvar1).
    eexists (_ ++ news1), w'.
    split; [ | split].
    + cbn [augment_loop]. rewrite (bind_ok _ _ _ _ _ Hone). rewrite Hloop.
      cbn [length].
      replace (2 * S (length rest)) with (S (S (2 * length rest))) by lia.
      rewrite fresh_refs_step, <- app_assoc.
      rewrite Hh1, length_app. cbn [length]. reflexivity.
    + rewrite Hh', Hh1, <- app_assoc. reflexivity.
    + intros i a' Hi. destruct i as [ | j].
      * cbn in Hi. inversion Hi; subst a'.
        exists (drawn_degree w),
               (uniform_noise n (np_random w) 3 (length (cols (contents w a)))).
        split; [apply drawn_degree_range, Hu | ].
        split; [apply uniform_noise_within; [exact Hn | apply Hu] | ].
        split; [reflexivity | ]. split; [reflexivity | ].
        split; [reflexivity | ]. split.
        -- unfold uniform_noise. cbn [cols]. rewrite length_map. apply length_seq.
        -- apply uniform_noise_col_length.
      * cbn in Hi.
        destruct (Hvar1 j a' Hi) as (d' & noise' & G0 & Gn & G1 & G2 & G3 & G4 & G5).
        assert (Ha' : is_skeleton w a').
        { apply (proj1 (Forall_forall _ _) Hrest).
          eapply list_elem_of_lookup_2; eauto. }
        destruct Ha' as (b' & Hb' & _).
        rewrite (contents_grown w w1 a' b' _ Hh1 Hb') in G1, G2, G4.
        exists d', noise'.
        replace (2 * S j) with (S (S (2 * j))) by lia.
        replace (S (S (2 * j)) + 1) with (S (S (2 * j + 1))) by lia.
        cbn [app lookup list_lookup]. auto 10.
Qed.

Lemma fsqrt_fin_nonneg (a : fnum) (s : R) : fsqrt a = Fin s -> (0 <= s)%R.
Proof.
  destruct a as [x | | | ]; cbn; try discriminate.
  destruct (Rlt_dec x 0); [discriminate | ].
  intros E. inversion E. apply sqrt_pos.
Qed.

Lemma np_std_nonneg (m : array) (s : R) : np_std m = Fin s -> (0 <= s)%R.
Proof. unfold np_std. apply fsqrt_fin_nonneg. Qed.

(** The whole augmenter with the ranges of its draws: the noise amount is
    a tenth of the standard deviation [s] of the first skeleton. *)
Lemma augmented_data_within (first : ndarray) (rest : list ndarray) (w : world) :
  Forall (is_skeleton w) (first :: rest) ->
  all_finite (contents w first) ->
  draws_in_unit w ->
  exists (s : R) (news : list array) (w' : world),
    np_std (contents w first) = Fin s /\ (0 <= s)%R /\
    augmented_data (first :: rest) w =
      Ok (fresh_refs (length (heap w)) (2 * length (first :: rest)), w') /\
    heap w' = heap w ++ news /\
    variants_within (s / 10) w (first :: rest) news.
Proof.
  intros Hsk Hfin Hu.
  assert (Hfirst : is_skeleton w first) by (inversion Hsk; assumption).
  destruct (np_std_fin _ Hfin (is_skeleton_entries w first Hfirst)) as (s & Hs).
  pose proof (np_std_nonneg _ _ Hs) as Hs0.
  assert (Hn : (0 <= s / 10)%R) by lra.
  destruct (augment_loop_within (s / 10) Hn (first :: rest) [] w Hu Hsk)
    as (news & w' & Hloop & Hh & Hvar).
  exists s, news, w'. split; [exact Hs | ]. split; [exact Hs0 | ].
  split; [ | split; assumption].
  unfold augmented_data.
  rewrite (bind_ok _ _ w w (Fin (s / 10))).
  - exact Hloop.
  - rewrite Hs, fdiv_fin by lra. reflexivity.
Qed.

Lemma sample_draws_in_unit : draws_in_unit (world_of [sample_skeleton]).
Proof. intros k. cbn. lra. Qed.

(** Every rotation variant is the source skeleton turned by an angle of
    between -20 and +20 degrees, as long as the draws of [random] lie in
    [0, 1). *)
Theorem augmented_data_rotation_range
    (first : ndarray) (rest : list ndarray) (w : world) :
  Forall (is_skeleton w) (first :: rest) ->
  all_finite (contents w first) ->
  draws_in_unit w ->
  exists (out : list ndarray) (w' : world),
    augmented_data (first :: rest) w = Ok (out, w') /\
    forall i a, (first :: rest) !! i = Some a ->
      exists (r : ndarray) (d : R),
        out !! (2 * i) = Some r /\
        (-20 <= d <= 20)%R /\
        contents w' r = rotated_by d (contents w a).
Proof.
  intros Hsk Hfin Hu.
  destruct (augmented_data_within first rest w Hsk Hfin Hu)
    as (s & news & w' & _ & _ & Hrun & Hh & Hvar).
  eexists _, w'. split; [exact Hrun | ].
  intros i a Hi.
  destruct (Hvar i a Hi) as (d & noise & Hd & _ & G1 & _).
  apply lookup_lt_Some in Hi as Hlt.
  assert (Ha : is_skeleton w a).
  { apply (proj1 (Forall_forall _ _) Hsk). eapply list_elem_of_lookup_2; eauto. }
  destruct (contents_skeleton w a Ha) as (Hwf & Hr & Hc).
  exists (mkNd (length (heap w) + 2 * i) 3), d.
  split; [apply fresh_refs_lookup; lia | ]. split; [exact Hd | ].
  apply (contents_fresh w w' news _ _ Hh G1).
  - apply rotated_by_wf; assumption.
  - cbn [rotated_by nrows]. lia.
Qed.

Lemma augmented_data_rotation_range_witness :
  let w := world_of [sample_skeleton] in
  exists (out : list ndarray) (w' : world),
    augmented_data [mkNd 0 3] w = Ok (out, w') /\
    forall i a, [mkNd 0 3] !! i = Some a ->
      exists (r : ndarray) (d : R),
        out !! (2 * i) = Some r /\
        (-20 <= d <= 20)%R /\
        contents w' r = rotated_by d (contents w a).
Proof.
  intros w.
  apply (augmented_data_rotation_range (mkNd 0 3) [] w).
  - exact sample_is_skeleton.
  - exact sample_all_finite.
  - exact sample_draws_in_unit.
Defined.

Lemma zip_with_f_lookup (f : fnum -> fnum -> fnum) (u v : vec) (i : nat)
    (x y : fnum) :
  u !! i = Some x -> v !! i = Some y ->
  zip_with_f f u v !! i = Some (f x y).
Proof.
  revert v i. induction u as [ | a u IH]; intros [ | b v] [ | i];
    cbn; try discriminate.
  - intros E1 E2. inversion E1; inversion E2. reflexivity.
  - apply IH.
Qed.

Lemma noised_entry (n : R) (m noise : array) (row c : nat) (e : R) :
  array_wf m -> nrows m = 3 ->
  noise_within n noise ->
  length (cols noise) = length (cols m) ->
  (forall v, v ∈ cols noise -> length v = 3) ->
  0 < c ->
  entry m row c = Some (Fin e) ->
  exists e' : R,
    entry (zero_root (array_add m noise)) row c = Some (Fin e') /\
    (e <= e' <= e + n)%R.
Proof.
  intros Hwf Hr Hin Hlen Hl Hc He. unfold entry, col in *.
  destruct (cols m !! c) as [cm | ] eqn:Hcm; [ | discriminate].
  destruct (lookup_lt_is_Some_2 (cols noise) c) as [cn Hcn].
  { rewrite Hlen. eapply lookup_lt_Some; eauto. }
  assert (Hcnl : length cn = 3)
    by (apply Hl; eapply list_elem_of_lookup_2; eauto).
  apply lookup_lt_Some in He as Hrow.
  rewrite (wf_col_length m Hwf c cm Hcm), Hr in Hrow.
  destruct (lookup_lt_is_Some_2 cn row) as [x Hx]; [lia | ].
  assert (Hxin : exists u : R, (0 <= u <= n)%R /\ x = Fin u).
  { unfold noise_within in Hin.
    pose proof (proj1 (Forall_forall _ _) Hin cn
                  (list_elem_of_lookup_2 _ _ _ Hcn)) as Hcol.
    apply (proj1 (Forall_forall _ _) Hcol). eapply list_elem_of_lookup_2; eauto. }
  destruct Hxin as (u & Hu & ->).
  exists (e + u)%R. split; [ | lra].
  unfold zero_root, array_add. cbn [nrows cols].
  rewrite list_lookup_insert_ne by lia.
  rewrite lookup_zip_with, Hcm, Hcn. cbn.
  unfold vadd. apply (zip_with_f_lookup fadd cm cn row (Fin e) (Fin u) He Hx).
Qed.

(** The noise is one-sided and has one scale for the whole collection:
    with [s] the standard deviation of the entries of the first skeleton,
    every finite coordinate [e] of a joint other than the root comes out of
    the noise variant as a value between [e] and [e + s / 10], as long as
    the draws of [numpy.random] lie in [0, 1). *)
Theorem augmented_data_noise_range
    (first : ndarray) (rest : list ndarray) (w : world) :
  Forall (is_skeleton w) (first :: rest) ->
  all_finite (contents w first) ->
  draws_in_unit w ->
  exists (s : R) (out : list ndarray) (w' : world),
    np_std (contents w first) = Fin s /\
    augmented_data (first :: rest) w = Ok (out, w') /\
    forall i a row c e,
      (first :: rest) !! i = Some a -> 0 < c ->
      entry (contents w a) row c = Some (Fin e) ->
      exists (n : ndarray) (e' : R),
        out !! (2 * i + 1) = Some n /\
        entry (contents w' n) row c = Some (Fin e') /\
        (e <= e' <= e + s / 10)%R.
Proof.
  intros Hsk Hfin Hu.
  destruct (augmented_data_within first rest w Hsk Hfin Hu)
    as (s & news & w' & Hs & _ & Hrun & Hh & Hvar).
  exists s. eexists _, w'. split; [exact Hs | ]. split; [exact Hrun | ].
  intros i a row c e Hi Hc He.
  destruct (Hvar i a Hi) as (d & noise & _ & Hin & _ & G2 & G3 & G4 & G5).
  apply lookup_lt_Some in Hi as Hlt.
  assert (Ha : is_skeleton w a).
  { apply (proj1 (Forall_forall _ _) Hsk). eapply list_elem_of_lookup_2; eauto. }
  destruct (contents_skeleton w a Ha) as (Hwf & Hr & Hcn).
  destruct (noised_entry (s / 10) (contents w a) noise row c e
              Hwf Hr Hin G4 G5 Hc He) as (e' & He' & Hb).
  exists (mkNd (length (heap w) + (2 * i + 1)) 3), e'.
  split; [apply fresh_refs_lookup; lia | ]. split; [ | exact Hb].
  rewrite (contents_fresh w w' news _ _ Hh G2); [exact He' | | ].
  - apply zero_root_sum_wf; assumption.
  - cbn [zero_root array_add nrows]. lia.
Qed.

Lemma augmented_data_noise_range_witness :
  let w := world_of [sample_skeleton] in
  exists (s : R) (out : list ndarray) (w' : world),
    np_std (contents w (mkNd 0 3)) = Fin s /\
    augmented_data [mkNd 0 3] w = Ok (out, w') /\
    forall i a row c e,
      [mkNd 0 3] !! i = Some a -> 0 < c ->
      entry (contents w a) row c = Some (Fin e) ->
      exists (n : ndarray) (e' : R),
        out !! (2 * i + 1) = Some n /\
        entry (contents w' n) row c = Some (Fin e') /\
        (e <= e' <= e + s / 10)%R.
Proof.
  intros w.
  apply (augmented_data_noise_range (mkNd 0 3) [] w).
  - exact sample_is_skeleton.
  - exact sample_all_finite.
  - exact sample_draws_in_unit.
Defined.

(** *** A first skeleton that is not a number *)

Lemma fold_fadd_nan (xs : vec) : fold_left fadd xs NaN = NaN.
Proof. induction xs as [ | x xs IH]; [reflexivity | exact IH]. Qed.

Lemma fadd_nan_r (a : fnum) : fadd a NaN = NaN.
Proof. destruct a; reflexivity. Qed.

Lemma fsum_nan (xs : vec) : NaN ∈ xs -> fsum xs = NaN.
Proof.
  unfold fsum. generalize (Fin 0%R).
  induction xs as [ | x xs IH]; intros acc Hin.
  - apply not_elem_of_nil in Hin. contradiction.
  - apply elem_of_cons in Hin as [<- | Hin].
    + cbn [fold_left]. rewrite fadd_nan_r. apply fold_fadd_nan.
    + cbn [fold_left]. apply IH, Hin.
Qed.

Lemma squares_of_nan_deviations (xs : vec) :
  xs <> [] ->
  NaN ∈ zip_with_f fmul (map (fun x => fsub x NaN) xs)
                        (map (fun x => fsub x NaN) xs).
Proof.
  destruct xs as [ | x xs]; [contradiction | ]. intros _.
  cbn [map zip_with_f]. unfold fsub at 1 2. cbn [fneg].
  rewrite fadd_nan_r. cbn [fmul]. apply elem_of_cons; left; reflexivity.
Qed.

Lemma np_std_nan (m : array) : NaN ∈ concat (cols m) -> np_std m = NaN.
Proof.
  intros Hin.
  assert (Hne : concat (cols m) <> []).
  { intros E. rewrite E in Hin. apply not_elem_of_nil in Hin. contradiction. }
  unfold np_std. rewrite (fsum_nan _ Hin). cbn [fdiv].
  rewrite (fsum_nan _ (squares_of_nan_deviations (concat (cols m)) Hne)).
  reflexivity.
Qed.

(** A NaN anywhere in the first skeleton makes the noise amount NaN, and
    the augmenter raises [OverflowError] at its first call of
    [np.random.uniform], whatever the other skeletons hold. *)
Theorem augmented_data_nan_first_raises
    (first : ndarray) (rest : list ndarray) (w : world) :
  is_skeleton w first ->
  NaN ∈ concat (cols (contents w first)) ->
  augmented_data (first :: rest) w = Raise OverflowError.
Proof.
  intros Hsk Hnan. unfold augmented_data.
  rewrite (bind_ok _ _ w w NaN)
    by (rewrite (np_std_nan _ Hnan); reflexivity).
  cbn [augment_loop]. apply bind_raise. unfold augment_one.
  destruct Hsk as (b & Hb & Hwf & Hrows & Hcols).
  set (wa := mkWorld (heap w) (fun k => py_random w (S k)) (np_random w)).
  rewrite (bind_ok _ _ w wa (Fin (drawn_degree w))) by reflexivity.
  destruct (rotate_skel_result wa first b (drawn_degree w) Hb Hwf Hrows)
    as (wb & Hrun & _).
  rewrite (bind_ok _ _ _ _ _ Hrun).
  unfold shape0 at 1. unfold bind at 1.
  unfold shape1 at 1. unfold bind at 1.
  apply bind_raise. reflexivity.
Qed.

Lemma augmented_data_nan_first_raises_witness :
  augmented_data [mkNd 0 3]
    (world_of [mkArray 3 (replicate 19 [NaN; NaN; NaN])])
  = Raise OverflowError.
Proof.
  apply augmented_data_nan_first_raises.
  - exists (mkArray 3 (replicate 19 [NaN; NaN; NaN])).
    split; [reflexivity | ]. split; [ | split; [reflexivity | cbn; lia]].
    unfold array_wf. cbn. repeat constructor.
  - cbn. apply elem_of_cons; left; reflexivity.
Defined.

(** * Further properties of the dataset builder *)

(** ** From the flat list of a body to its joint array *)

Lemma reshape4_spec_bounded (n : nat) :
  forall l, length l <= n ->
    (length l mod 4 <> 0 -> reshape4 l = Raise ValueError) /\
    (length l mod 4 = 0 ->
     exists rows, reshape4 l = Ok rows /\ concat rows = l /\
                  Forall (fun c => length c = 4) rows /\
                  4 * length rows = length l).
Proof.
  induction n as [ | n IH]; intros l Hl.
  - destruct l; [ | cbn in Hl; lia]. split; [intros H; cbn in H; lia | ].
    intros _. exists []. repeat split. constructor.
  - destruct l as [ | a [ | b [ | c [ | d l']]]].
    + split; [intros H; cbn in H; lia | ].
      intros _. exists []. repeat split. constructor.
    + split; [reflexivity | intros H; cbn in H; lia].
    + split; [reflexivity | intros H; cbn in H; lia].
    + split; [reflexivity | intros H; cbn in H; lia].
    + assert (Hl' : length l' <= n) by (cbn in Hl; lia).
      destruct (IH l' Hl') as [Hbad Hgood].
      assert (Hmod : length (a :: b :: c :: d :: l') mod 4 = length l' mod 4).
      { cbn [length].
        replace (S (S (S (S (length l'))))) with (length l' + 1 * 4) by lia.
        apply Nat.Div0.mod_add. }
      rewrite Hmod. cbn [reshape4]. split.
      * intros H. rewrite (Hbad H). reflexivity.
      * intros H. destruct (Hgood H) as (rows & -> & Hc & Hf & Hlen).
        exists ([a; b; c; d] :: rows). cbn [rbind concat app length].
        split; [reflexivity | ]. split; [rewrite Hc; reflexivity | ].
        split; [constructor; [reflexivity | exact Hf] | lia].
Qed.

(** A body whose flat list of numbers has a length that is no multiple of
    four makes the construction of its joint array raise [ValueError]. *)
Theorem np_array_reshape4_T_bad_length (l : list fnum) (w : world) :
  length l mod 4 <> 0 ->
  np_array_reshape4_T l w = Raise ValueError.
Proof.
  intros H. unfold np_array_reshape4_T. apply bind_raise. unfold lift.
  rewrite (proj1 (reshape4_spec_bounded (length l) l (Nat.le_refl _)) H).
  reflexivity.
Qed.

Lemma np_array_reshape4_T_bad_length_witness :
  np_array_reshape4_T [Fin 1; Fin 2; Fin 3; Fin 1; Fin 4]%R (world_of [])
  = Raise ValueError.
Proof.
  apply np_array_reshape4_T_bad_length. cbn. lia.
Defined.

(** A flat list of 4k numbers becomes a new array of four rows and k
    columns whose columns, one after the other, are the list again: joint
    j holds the numbers 4j to 4j + 3. *)
Theorem np_array_reshape4_T_layout (l : list fnum) (w : world) :
  length l mod 4 = 0 ->
  exists cs,
    np_array_reshape4_T l w =
      Ok (mkNd (length (heap w)) 4, set_heap w (heap w ++ [mkArray 4 cs])) /\
    concat cs = l /\
    array_wf (mkArray 4 cs) /\
    4 * length cs = length l.
Proof.
  intros H.
  destruct (proj2 (reshape4_spec_bounded (length l) l (Nat.le_refl _)) H)
    as (rows & Hr & Hc & Hf & Hlen).
  exists rows. split; [ | split; [exact Hc | split; [exact Hf | exact Hlen]]].
  unfold np_array_reshape4_T.
  rewrite (bind_ok _ _ w w rows) by (unfold lift; rewrite Hr; reflexivity).
  reflexivity.
Qed.

Lemma np_array_reshape4_T_layout_witness :
  exists cs,
    np_array_reshape4_T [Fin 1; Fin 2; Fin 3; Fin 1;
                         Fin 4; Fin 5; Fin 6; Fin 1]%R (world_of []) =
      Ok (mkNd 0 4, set_heap (world_of []) ([] ++ [mkArray 4 cs])) /\
    concat cs = [Fin 1; Fin 2; Fin 3; Fin 1; Fin 4; Fin 5; Fin 6; Fin 1]%R /\
    array_wf (mkArray 4 cs) /\
    4 * length cs = 8.
Proof.
  apply (np_array_reshape4_T_layout
           [Fin 1; Fin 2; Fin 3; Fin 1; Fin 4; Fin 5; Fin 6; Fin 1]%R
           (world_of [])).
  reflexivity.
Defined.

(** ** Which frames count *)

Lemma step2_insert_odd {A} (l : list A) (i : nat) (x : A) :
  Nat.Odd i -> step2 (<[i := x]> l) = step2 l.
Proof.
  intros [k ->]. revert l.
  induction k as [ | k IH]; intros l.
  - destruct l as [ | a [ | b l']]; reflexivity.
  - destruct l as [ | a [ | b l']]; try reflexivity.
    replace (2 * S k + 1) with (S (S (2 * k + 1))) by lia.
    cbn [insert list_insert step2]. f_equal. apply IH.
Qed.

(** Every second frame is dropped before anything is read from it:
    replacing a frame at an odd position by any other frame leaves the
    outcome of the builder the same. *)
Theorem generate_dataset_skips_odd_frames
    (frames : list frame) (i : nat) (f : frame) (w : world) :
  Nat.Odd i ->
  generate_dataset (<[i := f]> frames) w = generate_dataset frames w.
Proof.
  intros Hi. unfold generate_dataset. rewrite (step2_insert_odd frames i f Hi).
  reflexivity.
Qed.

Lemma generate_dataset_skips_odd_frames_witness :
  generate_dataset (<[1 := mkFrame [mkBody [NaN]]]>
                      (sample_frames ++ sample_frames)) (world_of []) =
  generate_dataset (sample_frames ++ sample_frames) (world_of []).
Proof.
  apply generate_dataset_skips_odd_frames. exists 0. reflexivity.
Defined.

(** ** Frames without bodies *)

Lemma normalize_frames_no_bodies (fs : list frame) (acc : list ndarray)
    (w : world) :
  Forall (fun f => bodies f = []) fs ->
  normalize_frames acc fs w = Ok (acc, w).
Proof.
  induction 1 as [ | f fs Hf Hfs IH]; [reflexivity | ].
  cbn [normalize_frames]. rewrite Hf. cbn [normalize_bodies].
  rewrite (bind_ok _ _ w w acc) by reflexivity. exact IH.
Qed.

(** When no kept frame holds a body (an empty directory among the cases),
    the builder raises [IndexError] instead of writing an empty dataset. *)
Theorem generate_dataset_no_bodies (frames : list frame) (w : world) :
  Forall (fun f => bodies f = []) (step2 frames) ->
  generate_dataset frames w = Raise IndexError.
Proof.
  intros H. unfold generate_dataset.
  rewrite (bind_ok _ _ w w []) by (apply normalize_frames_no_bodies, H).
  reflexivity.
Qed.

Lemma generate_dataset_no_bodies_witness :
  generate_dataset (mkFrame [] :: sample_frames) (world_of [])
  = Raise IndexError.
Proof.
  apply generate_dataset_no_bodies. cbn. repeat constructor.
Defined.

(** ** The size of the dataset *)

Lemma normalize_bodies_length (bs : list body) :
  forall (acc res : list ndarray) (w w' : world),
    normalize_bodies acc bs w = Ok (res, w') ->
    length res = length acc + length bs.
Proof.
  induction bs as [ | b bs IH]; intros acc res w w' H.
  - cbn in H. unfold ret in H. inversion H. cbn. lia.
  - cbn [normalize_bodies] in H.
    apply bind_inv in H as (r0 & w0 & _ & H).
    apply bind_inv in H as (r1 & w1 & _ & H).
    apply IH in H. rewrite H, length_app. cbn. lia.
Qed.

Lemma normalize_frames_length (fs : list frame) :
  forall (acc res : list ndarray) (w w' : world),
    normalize_frames acc fs w = Ok (res, w') ->
    length res = length acc + body_count fs.
Proof.
  unfold body_count.
  induction fs as [ | f fs IH]; intros acc res w w' H.
  - cbn in H. unfold ret in H. inversion H. cbn. lia.
  - cbn [normalize_frames] in H.
    apply bind_inv in H as (r0 & w0 & H0 & H).
    apply normalize_bodies_length in H0. apply IH in H.
    cbn [map concat]. rewrite length_app. lia.
Qed.

Lemma augment_one_length (na : fnum) (acc res : list ndarray) (a : ndarray)
    (w w' : world) :
  augment_one na acc a w = Ok (res, w') -> length res = length acc + 2.
Proof.
  unfold augment_one. intros H.
  apply bind_inv in H as (x1 & w1 & _ & H).
  apply bind_inv in H as (x2 & w2 & _ & H).
  apply bind_inv in H as (x3 & w3 & _ & H).
  apply bind_inv in H as (x4 & w4 & _ & H).
  apply bind_inv in H as (x5 & w5 & _ & H).
  apply bind_inv in H as (x6 & w6 & _ & H).
  apply bind_inv in H as (x7 & w7 & _ & H).
  unfold ret in H. inversion H. rewrite !length_app. cbn. lia.
Qed.

Lemma augment_loop_length (na : fnum) (skels : list ndarray) :
  forall (acc res : list ndarray) (w w' : world),
    augment_loop na acc skels w = Ok (res, w') ->
    length res = length acc + 2 * length skels.
Proof.
  induction skels as [ | a rest IH]; intros acc res w w' H.
  - cbn in H. unfold ret in H. inversion H. cbn. lia.
  - cbn [augment_loop] in H.
    apply bind_inv in H as (acc1 & w1 & H1 & H).
    apply augment_one_length in H1. apply IH in H. cbn [length]. lia.
Qed.

Lemma augmented_data_length (skels out : list ndarray) (w w' : world) :
  augmented_data skels w = Ok (out, w') -> length out = 2 * length skels.
Proof.
  unfold augmented_data. destruct skels as [ | first rest]; [discriminate | ].
  intros H. apply bind_inv in H as (na & w1 & _ & H).
  apply augment_loop_length in H. cbn [length] in *. lia.
Qed.

(** Every dataset the builder produces holds, in both lists, three
    entries per body of the kept frames (the frames at even positions), and
    at least three entries. *)
Theorem generate_dataset_size
    (frames : list frame) (w w' : world) (ds : dataset) :
  generate_dataset frames w = Ok (ds, w') ->
  exists d3 d2 : list ndarray,
    dict_get ds "3d" = Some d3 /\
    dict_get ds "2d" = Some d2 /\
    length d3 = 3 * body_count (step2 frames) /\
    length d2 = 3 * body_count (step2 frames) /\
    3 <= length d3.
Proof.
  unfold generate_dataset. intros H.
  apply bind_inv in H as (sk & w1 & Hsk & H).
  apply bind_inv in H as (aug & w2 & Haug & H).
  unfold ret in H. inversion H; subst ds w'. clear H.
  apply normalize_frames_length in Hsk. cbn [length] in Hsk.
  pose proof (augmented_data_length _ _ _ _ Haug) as Hlen.
  assert (Hpos : 1 <= length sk).
  { destruct sk; [discriminate | cbn; lia]. }
  exists (sk ++ aug), (map project_skel (sk ++ aug)).
  split; [reflexivity | ]. split; [reflexivity | ].
  rewrite length_map, length_app. lia.
Qed.

Lemma generate_dataset_size_witness :
  exists (ds : dataset) (w' : world),
    generate_dataset sample_frames (world_of []) = Ok (ds, w') /\
    exists d3 d2 : list ndarray,
      dict_get ds "3d" = Some d3 /\
      dict_get ds "2d" = Some d2 /\
      length d3 = 3 * body_count (step2 sample_frames) /\
      length d2 = 3 * body_count (step2 sample_frames) /\
      3 <= length d3.
Proof.
  destruct generate_dataset_sample_run as (ds & w' & Hrun).
  exists ds, w'. split; [exact Hrun | ].
  apply (generate_dataset_size sample_frames (world_of []) w' ds Hrun).
Defined.

(** ** A first body with coincident shoulders *)

Lemma normalize_skeleton_few_columns (w : world) (l s : nat) (b : array) :
  heap w !! l = Some b -> length (cols b) < 10 ->
  forall r w', normalize_skeleton (mkNd l s) w <> Ok (r, w').
Proof.
  intros Hb Hn r w' Hrun.
  unfold normalize_skeleton, slice_rows in Hrun. cbn [base stop] in Hrun.
  rewrite (bind_ok _ _ w w (length (cols b))) in Hrun.
  2:{ unfold shape1. rewrite (contents_lookup _ _ _ b Hb).
      cbn [view_of cols]. rewrite length_map. reflexivity. }
  destruct (cols b !! 3) as [C3 | ] eqn:HC3.
  - rewrite (bind_ok _ _ w w (take (Nat.min s 3) C3)) in Hrun
      by (eapply get_col_ok; eauto).
    rewrite (bind_raise _ _ w IndexError) in Hrun; [discriminate | ].
    apply (get_col_index_error w l _ 9 b Hb). lia.
  - rewrite (bind_raise _ _ w IndexError) in Hrun; [discriminate | ].
    apply (get_col_index_error w l _ 3 b Hb).
    apply lookup_ge_None_1. exact HC3.
Qed.

(** A call of the normaliser that returns has written to the array it
    was given and to no other. *)
Lemma normalize_skeleton_frame
    (w w' : world) (l s : nat) (b : array) (r : ndarray) :
  heap w !! l = Some b -> array_wf b -> 3 <= nrows b -> 3 <= s ->
  normalize_skeleton (mkNd l s) w = Ok (r, w') ->
  r = mkNd l 3 /\
  length (heap w') = length (heap w) /\
  (forall l', l' <> l -> heap w' !! l' = heap w !! l').
Proof.
  intros Hb Hwf Hrows Hstop Hrun.
  destruct (le_lt_dec 10 (length (cols b))) as [Hcols | Hcols].
  - rewrite (normalize_skeleton_run w l s b Hb Hwf Hrows Hstop Hcols) in Hrun.
    destruct (shoulders_finite b); [ | discriminate].
    destruct (angle_between _ _) as [angle | e]; [ | discriminate].
    destruct (Quaternion_axis_angle _ angle) as [q | e]; [ | discriminate].
    inversion Hrun; subst r w'. clear Hrun.
    split; [reflexivity | ]. split; [cbn [heap set_heap]; apply length_insert | ].
    intros l' Hne. cbn [heap set_heap]. apply list_lookup_insert_ne. auto.
  - exfalso. exact (normalize_skeleton_few_columns w l s b Hb Hcols r w' Hrun).
Qed.

Lemma np_array_reshape4_T_inv (js : list fnum) (w w1 : world) (r : ndarray) :
  np_array_reshape4_T js w = Ok (r, w1) ->
  exists cs,
    r = mkNd (length (heap w)) 4 /\
    w1 = set_heap w (heap w ++ [mkArray 4 cs]) /\
    array_wf (mkArray 4 cs).
Proof.
  intros H. unfold np_array_reshape4_T, bind, lift, alloc in H.
  destruct (reshape4 js) as [cs | e] eqn:Hr; [ | discriminate].
  cbn [nrows] in H. inversion H; subst r w1. exists cs.
  split; [reflexivity | ]. split; [reflexivity | ].
  destruct (Nat.eq_dec (length js mod 4) 0) as [Hm | Hm].
  - destruct (proj2 (reshape4_spec_bounded _ js (Nat.le_refl _)) Hm)
      as (rows & Hr' & _ & Hf & _).
    rewrite Hr in Hr'. inversion Hr'; subst rows. exact Hf.
  - rewrite (proj1 (reshape4_spec_bounded _ js (Nat.le_refl _)) Hm) in Hr.
    discriminate.
Qed.

(** The loops over bodies and frames only add to the end of the list of
    skeletons, and leave every array that was already stored as it was. *)
Lemma normalize_bodies_frame (bs : list body) :
  forall (acc sk : list ndarray) (w w' : world),
    normalize_bodies acc bs w = Ok (sk, w') ->
    (exists more, sk = acc ++ more) /\
    length (heap w) <= length (heap w') /\
    (forall l, l < length (heap w) -> heap w' !! l = heap w !! l).
Proof.
  induction bs as [ | b bs IH]; intros acc sk w w' H.
  - cbn [normalize_bodies] in H. inversion H; subst sk w'.
    split; [exists []; rewrite app_nil_r; reflexivity | ]. split; auto.
  - cbn [normalize_bodies] in H.
    apply bind_inv in H as (r & w1 & Hr & H).
    apply bind_inv in H as (r2 & w2 & Hn & H).
    destruct (np_array_reshape4_T_inv _ _ _ _ Hr) as (cs & -> & -> & Hwf).
    assert (Hb : heap (set_heap w (heap w ++ [mkArray 4 cs])) !! length (heap w)
                 = Some (mkArray 4 cs)).
    { rewrite heap_set_heap, lookup_app_r by lia.
      rewrite Nat.sub_diag. reflexivity. }
    destruct (normalize_skeleton_frame _ _ _ _ _ _ Hb Hwf
                (Nat.le_succ_diag_r 3) (Nat.le_succ_diag_r 3) Hn)
      as (-> & Hlen & Hsame).
    rewrite heap_set_heap, length_app in Hlen. cbn [length] in Hlen.
    destruct (IH _ _ _ _ H) as ((more & ->) & Hle & Hkeep).
    split; [exists (mkNd (length (heap w)) 3 :: more);
            rewrite <- app_assoc; reflexivity | ].
    split; [lia | ].
    intros l Hl. rewrite (Hkeep l) by lia. rewrite (Hsame l) by lia.
    rewrite heap_set_heap. apply lookup_app_l. exact Hl.
Qed.

Lemma normalize_frames_frame (fs : list frame) :
  forall (acc sk : list ndarray) (w w' : world),
    normalize_frames acc fs w = Ok (sk, w') ->
    (exists more, sk = acc ++ more) /\
    length (heap w) <= length (heap w') /\
    (forall l, l < length (heap w) -> heap w' !! l = heap w !! l).
Proof.
  induction fs as [ | f fs IH]; intros acc sk w w' H.
  - cbn [normalize_frames] in H. inversion H; subst sk w'.
    split; [exists []; rewrite app_nil_r; reflexivity | ]. split; auto.
  - cbn [normalize_frames] in H.
    apply bind_inv in H as (sk1 & w1 & Hb & H).
    destruct (normalize_bodies_frame _ _ _ _ _ Hb) as ((m1 & ->) & Hle1 & Hk1).
    destruct (IH _ _ _ _ H) as ((m2 & ->) & Hle2 & Hk2).
    split; [exists (m1 ++ m2); rewrite app_assoc; reflexivity | ].
    split; [lia | ].
    intros l Hl. rewrite (Hk2 l) by lia. apply Hk1. exact Hl.
Qed.

(** A NaN noise amount stops the augmenter at its first call of
    [np.random.uniform]. *)
Lemma augmented_data_nan_amount
    (first : ndarray) (rest : list ndarray) (w : world) :
  is_skeleton w first ->
  np_std (contents w first) = NaN ->
  augmented_data (first :: rest) w = Raise OverflowError.
Proof.
  intros (b & Hb & Hwf & Hrows & Hcols) Hstd. unfold augmented_data.
  rewrite (bind_ok _ _ w w NaN) by (rewrite Hstd; reflexivity).
  cbn [augment_loop]. apply bind_raise. unfold augment_one.
  set (wa := mkWorld (heap w) (fun k => py_random w (S k)) (np_random w)).
  rewrite (bind_ok _ _ w wa (Fin (drawn_degree w))) by reflexivity.
  destruct (rotate_skel_result wa first b (drawn_degree w) Hb Hwf Hrows)
    as (wb & Hrun & _).
  rewrite (bind_ok _ _ _ _ _ Hrun).
  unfold shape0 at 1. unfold bind at 1.
  unfold shape1 at 1. unfold bind at 1.
  apply bind_raise. reflexivity.
Qed.

(** When the first body of the first frame has its two shoulders at the
    same finite position and the normalisation of all the kept bodies goes
    through, no dataset is written: the normaliser has handed back NaN
    joints for that body without complaint, the noise amount is taken from
    it, and the builder fails in the augmenter with [OverflowError]. *)
Theorem generate_dataset_coincident_first_body
    (js : list fnum) (cs : list vec) (x y z : R)
    (bs : list body) (fs : list frame)
    (w w' : world) (sk : list ndarray) :
  reshape4 js = Ok cs ->
  10 <= length cs ->
  col3 (mkArray 4 cs) 3 = [Fin x; Fin y; Fin z] ->
  col3 (mkArray 4 cs) 9 = [Fin x; Fin y; Fin z] ->
  normalize_frames [] (step2 (mkFrame (mkBody js :: bs) :: fs)) w
    = Ok (sk, w') ->
  generate_dataset (mkFrame (mkBody js :: bs) :: fs) w = Raise OverflowError.
Proof.
  intros Hr Hcols H3 H9 Hall.
  set (b := mkArray 4 cs) in *.
  set (l := length (heap w)).
  set (w1 := set_heap w (heap w ++ [b])).
  assert (Hwf : array_wf b).
  { destruct (Nat.eq_dec (length js mod 4) 0) as [Hm | Hm].
    - destruct (proj2 (reshape4_spec_bounded _ js (Nat.le_refl _)) Hm)
        as (rows & Hr' & _ & Hf & _).
      rewrite Hr in Hr'. inversion Hr'; subst rows. exact Hf.
    - rewrite (proj1 (reshape4_spec_bounded _ js (Nat.le_refl _)) Hm) in Hr.
      discriminate. }
  assert (Hrows : 3 <= nrows b) by (cbn; lia).
  assert (Hcols' : 10 <= length (cols b)) by exact Hcols.
  assert (Hb1 : heap w1 !! l = Some b).
  { unfold w1, l. rewrite heap_set_heap, lookup_app_r by lia.
    rewrite Nat.sub_diag. reflexivity. }
  pose proof (normalize_skeleton_coincident_run b Hwf Hrows Hcols x y z H3 H9
                w1 l 4 Hb1 (Nat.le_succ_diag_r 3)) as Hnorm.
  set (F := turned (mkQuat NaN NaN NaN NaN) (scaled b)) in *.
  set (w2 := set_heap w1 (<[l := F]> (heap w1))) in *.
  assert (Hl : l < length (heap w1)) by (eapply lookup_lt_Some; eauto).
  assert (HF : heap w2 !! l = Some F).
  { unfold w2. rewrite heap_set_heap. apply list_lookup_insert_eq, Hl. }
  assert (Hl2 : l < length (heap w2)) by (eapply lookup_lt_Some; eauto).
  (* the skeletons of the other bodies come after the first one *)
  assert (Hshape : exists more, sk = mkNd l 3 :: more /\ heap w' !! l = Some F).
  { cbn [step2 normalize_frames normalize_bodies bodies joints19] in Hall.
    apply bind_inv in Hall as (sk1 & w3 & Hb & Hfs).
    rewrite (bind_ok _ _ w w1 (mkNd l 4)) in Hb.
    2:{ unfold np_array_reshape4_T.
        rewrite (bind_ok _ _ w w cs) by (unfold lift; rewrite Hr; reflexivity).
        reflexivity. }
    rewrite (bind_ok _ _ _ _ _ Hnorm) in Hb.
    destruct (normalize_bodies_frame _ _ _ _ _ Hb) as ((m1 & ->) & Hle1 & Hk1).
    destruct (normalize_frames_frame _ _ _ _ _ Hfs) as ((m2 & ->) & Hle2 & Hk2).
    exists (m1 ++ m2). split; [reflexivity | ].
    rewrite (Hk2 l) by lia. rewrite (Hk1 l) by lia. exact HF. }
  destruct Hshape as (more & -> & HF').
  assert (Hsk : is_skeleton w' (mkNd l 3)).
  { exists F. split; [exact HF' | ].
    split; [apply turned_scaled_wf; assumption | ].
    split; [cbn; lia | ].
    unfold F. cbn [turned cols]. rewrite length_map, scaled_length. lia. }
  assert (Hnan : NaN ∈ concat (cols (contents w' (mkNd l 3)))).
  { assert (H0 : col3 F 0 = [NaN; NaN; NaN])
      by (apply (turned_nan_col3 b Hwf Hrows Hcols' 0); lia).
    rewrite (contents_lookup w' l 3 F HF').
    destruct (cols (view_of 3 F)) as [ | c0 rest] eqn:E.
    - exfalso. apply (f_equal (@length vec)) in E.
      cbn [view_of cols] in E. rewrite length_map in E.
      unfold F in E. cbn [turned cols] in E.
      rewrite length_map, scaled_length in E. rewrite E in Hcols'.
      cbn in Hcols'. lia.
    - assert (Hc0 : c0 = [NaN; NaN; NaN]).
      { rewrite <- H0. unfold col3. rewrite <- col_view_of.
        unfold col. rewrite E. reflexivity. }
      rewrite Hc0. cbn [concat app]. apply elem_of_cons. left. reflexivity. }
  unfold generate_dataset.
  rewrite (bind_ok _ _ _ _ _ Hall).
  apply bind_raise.
  apply augmented_data_nan_amount; [exact Hsk | apply np_std_nan, Hnan].
Qed.

Lemma generate_dataset_coincident_first_body_witness :
  generate_dataset
    [mkFrame [mkBody (concat (replicate 19 [Fin 1; Fin 2; Fin 3; Fin 1]%R));
              mkBody (concat (cols (skeleton_with_shoulders
                                      [Fin 1; Fin 0; Fin 0; Fin 1]
                                      [Fin 0; Fin 0; Fin 0; Fin 1]%R)))];
     mkFrame [mkBody [Fin 1%R]]]
    (world_of [])
  = Raise OverflowError.
Proof.
  set (cb := mkArray 4 (replicate 19 [Fin 1; Fin 2; Fin 3; Fin 1]%R)).
  set (nb := skeleton_with_shoulders [Fin 1; Fin 0; Fin 0; Fin 1]
                                     [Fin 0; Fin 0; Fin 0; Fin 1]%R).
  assert (Hcwf : array_wf cb).
  { unfold array_wf, cb. cbn. repeat (constructor; [reflexivity | ]).
    constructor. }
  assert (Hnwf : array_wf nb) by (apply skeleton_with_shoulders_wf; reflexivity).
  assert (Hxz : (1 <> 0 \/ 0 <> 0)%R) by (left; lra).
  set (w1 := world_of [cb]).
  pose proof (normalize_skeleton_coincident_run cb Hcwf
                (Nat.le_succ_diag_r 3) (proj1 (Nat.leb_le 10 19) eq_refl) 1 2 3
                eq_refl eq_refl w1 0 4 eq_refl (Nat.le_succ_diag_r 3))%R
    as Hnorm1.
  match type of Hnorm1 with
  | _ = Ok (_, set_heap _ (<[_ := ?F0]> _)) => set (F := F0) in *
  end.
  set (w2 := world_of [F]).
  set (w3 := world_of [F; nb]).
  pose proof (normalize_skeleton_frontal_run nb Hnwf
                (Nat.le_succ_diag_r 3) (proj1 (Nat.leb_le 10 19) eq_refl) 1 0 0 0 0 0
                eq_refl eq_refl Hxz w3 1 4 eq_refl (Nat.le_succ_diag_r 3))%R
    as Hnorm2.
  match type of Hnorm2 with
  | _ = Ok (_, ?w0) => set (w4 := w0) in *
  end.
  apply (generate_dataset_coincident_first_body _
           (replicate 19 [Fin 1; Fin 2; Fin 3; Fin 1]%R) 1 2 3 _ _
           (world_of []) w4 [mkNd 0 3; mkNd 1 3])%R.
  - reflexivity.
  - cbn. lia.
  - reflexivity.
  - reflexivity.
  - cbn [step2 normalize_frames normalize_bodies bodies joints19].
    rewrite (bind_ok _ _ (world_of []) w4 [mkNd 0 3; mkNd 1 3]);
      [reflexivity | ].
    rewrite (bind_ok _ _ (world_of []) w1 (mkNd 0 4)) by reflexivity.
    rewrite (bind_ok _ _ w1 w2 (mkNd 0 3)) by exact Hnorm1.
    rewrite (bind_ok _ _ w2 w3 (mkNd 1 4)) by reflexivity.
    rewrite (bind_ok _ _ w3 w4 (mkNd 1 3)) by exact Hnorm2.
    reflexivity.
Defined.
